(** * Resilient extraction: grounding offsets, deduplication, orchestration

    A shallow embedding of
      - [lib/core/grounding.ts]            (computeEvidenceOffsets),
      - [lib/core/extraction-pipeline.ts]  (deduplicateItems,
        calculateAverageConfidence, extractFromPages, extractParallel,
        extractStreaming),
    with the properties the design document states about them.

    Conventions.
      - A JavaScript string is a sequence of code units; it is modelled by
        [string], one character per code unit, code units in 0..255.
      - A JavaScript number used as an offset is an integer, modelled by [Z];
        a number carried by an extracted item is a finite double, given
        by its exact value, a rational [Qc]; the arithmetic on such
        numbers is that of IEEE 754 binary64, with the rounding written
        out ([Float64]).
      - A thrown [TypeError] is modelled by [None]; what else is thrown is
        a value of the type [Thrown] of a run. *)

From Stdlib Require Import ZArith QArith Qcanon Ascii String.
From stdpp Require Import base option list gmap strings pretty.

Open Scope string_scope.
Open Scope Z_scope.

(** ** ECMAScript string built-ins used by the sources *)

Module JS.

(** [s.length] *)
Definition len (s : string) : Z := Z.of_nat (String.length s).

(** Clamp of an index argument into [0, s.length], as [indexOf] and
    [substring] do with their integer arguments. *)
Definition clamp (s : string) (i : Z) : nat :=
  Z.to_nat (Z.min (Z.max i 0) (len s)).

(** The suffix of [s] from offset [n]. *)
Fixpoint dropStr (n : nat) (s : string) : string :=
  match n, s with
  | O, _ => s
  | S n', String _ s' => dropStr n' s'
  | S _, EmptyString => EmptyString
  end.

(** [search pat s i]: [s] is the suffix of the source that starts at
    offset [i]; candidates are tried at [i], [i+1], ... in ascending
    order (StringIndexOf, ECMA-262 6.1.4.1). *)
Fixpoint search (pat s : string) (i : nat) : option nat :=
  if String.prefix pat s then Some i
  else match s with
       | EmptyString => None
       | String _ s' => search pat s' (S i)
       end.

(** [s.indexOf(pat, position)]; [-1] when there is no match. *)
Definition indexOf (s pat : string) (position : Z) : Z :=
  let start := clamp s position in
  match search pat (dropStr start s) start with
  | Some i => Z.of_nat i
  | None => -1
  end.

(** [s.substring(a, b)]: both ends clamped, swapped when [a > b]. *)
Definition substring (s : string) (a b : Z) : string :=
  let a' := clamp s a in
  let b' := clamp s b in
  let from := Nat.min a' b' in
  let to := Nat.max a' b' in
  String.substring from (to - from) s.

(** [pat] occurs in [s] at offset [i]. *)
Definition occursAt (s pat : string) (i : Z) : Prop :=
  0 <= i /\ String.substring (Z.to_nat i) (String.length pat) s = pat.

(** WhiteSpace and LineTerminator code units below U+0100: TAB, LF, VT, FF,
    CR, SP, NBSP. *)
Definition isWhiteSpace (c : ascii) : bool :=
  let n := nat_of_ascii c in
  ((9 <=? n) && (n <=? 13) || (n =? 32) || (n =? 160))%nat.

Fixpoint trimStart (s : string) : string :=
  match s with
  | String c s' => if isWhiteSpace c then trimStart s' else s
  | EmptyString => EmptyString
  end.

Fixpoint trimEnd (s : string) : string :=
  match s with
  | EmptyString => EmptyString
  | String c s' =>
      match trimEnd s' with
      | EmptyString => if isWhiteSpace c then EmptyString else String c EmptyString
      | t => String c t
      end
  end.

(** [s.trim()] *)
Definition trim (s : string) : string := trimEnd (trimStart s).

(** Lower-case mapping of one code unit below U+0100: A-Z, and the Latin-1
    capitals U+00C0..U+00DE except the multiplication sign U+00D7. *)
Definition lowerUnit (c : ascii) : ascii :=
  let n := nat_of_ascii c in
  if ((65 <=? n) && (n <=? 90) || (192 <=? n) && (n <=? 222) && negb (n =? 215))%nat
  then ascii_of_nat (n + 32) else c.

(** [s.toLowerCase()] *)
Fixpoint toLowerCase (s : string) : string :=
  match s with
  | EmptyString => EmptyString
  | String c s' => String (lowerUnit c) (toLowerCase s')
  end.

Set Warnings "-register-all".

(** Values as [JSON.parse] and schema validation deliver them, with
    [Undefined] for what a read of an absent property gives. An object
    keeps its properties in insertion order. *)
Inductive Value : Type :=
| Undefined
| Null
| Bool (b : bool)
| Num (q : Qc)
| Str (s : string)
| Arr (elems : list Value)
| Obj (props : list (string * Value)).

Fixpoint assoc (name : string) (props : list (string * Value)) : Value :=
  match props with
  | [] => Undefined
  | (k, v) :: rest => if String.eqb k name then v else assoc name rest
  end.

(** Read of a property of a non-nullish value. The names this program
    reads ([evidence], [descriptionSpan], [text], [description],
    [confidence]) are defined on no built-in prototype, so only an object's
    own properties answer. *)
Definition getProp (v : Value) (name : string) : Value :=
  match v with
  | Obj props => assoc name props
  | _ => Undefined
  end.

Definition nullish (v : Value) : bool :=
  match v with Undefined | Null => true | _ => false end.

(** [v.name]: a [TypeError] on [undefined] and [null]. *)
Definition member (v : Value) (name : string) : option Value :=
  if nullish v then None else Some (getProp v name).

(** [v?.name] *)
Definition optMember (v : Value) (name : string) : Value :=
  if nullish v then Undefined else getProp v name.

(** ToBoolean *)
Definition truthy (v : Value) : bool :=
  match v with
  | Undefined | Null => false
  | Bool b => b
  | Num q => negb (bool_decide (q = 0%Qc))
  | Str s => negb (String.eqb s "")
  | Arr _ | Obj _ => true
  end.

(** [v.trim()]: only a string has a callable [trim]; a call of anything
    else is a [TypeError]. *)
Definition callTrim (v : Value) : option string :=
  match v with
  | Str s => Some (trim s)
  | _ => None
  end.

End JS.

(** ** lib/core/grounding.ts *)

Module Grounding.

Record EvidenceSpan := mkSpan {
  text : string;
  startOffset : Z;
  endOffset : Z;
}.

(** [!s] for a string [s]: only the empty string is falsy. *)
Definition falsyStr (s : string) : bool :=
  match s with EmptyString => true | _ => false end.

Definition computeEvidenceOffsets
    (sourceText evidenceText : string) (startFrom : Z) : option EvidenceSpan :=
  if falsyStr evidenceText || falsyStr sourceText then None
  else
    let startOffset := JS.indexOf sourceText evidenceText startFrom in
    if startOffset =? -1 then None
    else Some {| text := evidenceText;
                 startOffset := startOffset;
                 endOffset := startOffset + JS.len evidenceText |}.

(** [computeMultipleOffsets]: every text resolved from offset 0, the
    unresolved ones left out. *)
Fixpoint computeMultipleOffsets
    (sourceText : string) (evidenceTexts : list string) : list EvidenceSpan :=
  match evidenceTexts with
  | [] => []
  | t :: rest =>
      match computeEvidenceOffsets sourceText t 0 with
      | Some span => span :: computeMultipleOffsets sourceText rest
      | None => computeMultipleOffsets sourceText rest
      end
  end.

End Grounding.

(** ** Number arithmetic: IEEE 754 binary64, the rounding written out

    The additions and the division of [calculateAverageConfidence] are
    operations on doubles. A finite double is given by its exact value,
    a rational; the result of an operation is the exact result rounded
    to the nearest double, ties to even. *)

Module Float64.

(** The values of the Number type. [Finite 0] is the positive zero. *)
Inductive Number : Type :=
| Finite (q : Qc)
| NegZero
| PosInfinity
| NegInfinity
| NaN.

(** The integer part of the binary logarithm of [n / d], for positive
    [n] and [d]. *)
Definition ilog2 (n d : Z) : Z :=
  let e := Z.log2 n - Z.log2 d in
  if (if 0 <=? e then d * 2 ^ e <=? n else d <=? n * 2 ^ (- e)) then e else e - 1.

(** [n / d] rounded to the nearest integer, ties to even, for [n] not
    negative and [d] positive. *)
Definition roundEven (n d : Z) : Z :=
  let f := n / d in
  let r := 2 * (n mod d) in
  if r <? d then f
  else if d <? r then f + 1
  else if Z.even f then f else f + 1.

(** The magnitude [n / d] rounded to 53 significant bits: the integer
    significand [m] and the exponent [c] of the result [m * 2 ^ c]. The
    exponent of the leading bit is at least -1022, below which the
    subnormal doubles share the spacing [2 ^ -1074]. *)
Definition roundMagnitude (n d : Z) : Z * Z :=
  let c := Z.max (ilog2 n d) (-1022) - 52 in
  (if 0 <=? c then roundEven n (d * 2 ^ c) else roundEven (n * 2 ^ (- c)) d, c).

(** [m * 2 ^ c] *)
Definition scaled (m c : Z) : Qc :=
  if 0 <=? c then Q2Qc (inject_Z (m * 2 ^ c))
  else Q2Qc (Qmake m (Z.to_pos (2 ^ (- c)))).

(** The double nearest to the rational [q]: an infinity from
    [2 ^ 1024] on, a zero of the sign of [q] when the magnitude rounds
    to nothing. *)
Definition round64 (q : Qc) : Number :=
  if decide (q = 0%Qc) then Finite 0
  else
    let n := Qnum (this q) in
    let '(m, c) := roundMagnitude (Z.abs n) (Zpos (Qden (this q))) in
    if m =? 0 then (if 0 <? n then Finite 0 else NegZero)
    else if (0 <=? c) && (2 ^ 1024 <=? m * 2 ^ c)
         then (if 0 <? n then PosInfinity else NegInfinity)
         else Finite (if 0 <? n then scaled m c else - scaled m c).

(** [x + y] (Number::add). A zero operand leaves the other operand as it
    is; opposite finite operands give the positive zero. *)
Definition add (x y : Number) : Number :=
  match x, y with
  | NaN, _ | _, NaN => NaN
  | PosInfinity, NegInfinity | NegInfinity, PosInfinity => NaN
  | PosInfinity, _ | _, PosInfinity => PosInfinity
  | NegInfinity, _ | _, NegInfinity => NegInfinity
  | NegZero, NegZero => NegZero
  | NegZero, Finite b => Finite b
  | Finite a, NegZero => Finite a
  | Finite a, Finite b =>
      if decide (a = 0%Qc) then Finite b
      else if decide (b = 0%Qc) then Finite a
      else round64 (a + b)
  end.

Definition Qc_of_nat (n : nat) : Qc := Q2Qc (inject_Z (Z.of_nat n)).

(** [x / count] for the length [count] of an array, which is a Number
    exactly (Number::divide with a divisor that is not negative). *)
Definition divide (x : Number) (count : nat) : Number :=
  match count with
  | O =>
      match x with
      | Finite q =>
          if decide (q = 0%Qc) then NaN
          else if 0 <? Qnum (this q) then PosInfinity else NegInfinity
      | NegZero | NaN => NaN
      | PosInfinity => PosInfinity
      | NegInfinity => NegInfinity
      end
  | S _ =>
      match x with
      | Finite q => round64 (q / Qc_of_nat count)
      | other => other
      end
  end.

End Float64.

(** ** lib/core/extraction-pipeline.ts *)

(** Modelled from the spec: the records of [./types], which is not among
    the sources, after the data model of the design document and with the
    field names the pipeline reads and writes: [PageChunk] (Chunk),
    [PageExtractionResult] (ChunkResult), [ExtractionResult]
    (AggregateResult) and its metrics; [ExtractionError] is what
    [wrapError] of [./errors] returns. *)
Module PageChunk.
Record t := mk { content : string; pageNumber : Z }.
End PageChunk.

Module ExtractionError.
Record t := mk { message : string; code : string }.
End ExtractionError.

Module PageExtractionResult.
Record t := mk {
  items : list JS.Value;
  pageNumber : Z;
  success : bool;
  error : option string;
  errorCode : option string;
}.
End PageExtractionResult.

(** What [calculateAverageConfidence] returns: [undefined], or the
    Number [totalConfidence / items.length]. [FromString] stands for the
    number (or NaN) that the division gives once a non-numeric
    confidence has turned the additions of the [reduce] into string
    concatenations; its value is not tracked. *)
Inductive Average : Type :=
| NoAverage
| Mean (x : Float64.Number)
| FromString.

Module Metrics.
Record t := mk {
  totalItems : nat;
  itemsBeforeDedup : nat;
  processingTimeMs : Z;
  averageConfidence : Average;
}.
End Metrics.

Module ExtractionResult.
Record t := mk {
  items : list JS.Value;
  pagesProcessed : nat;
  pagesFailed : nat;
  pageResults : list PageExtractionResult.t;
  metrics : Metrics.t;
}.
End ExtractionResult.

(** How an awaited promise ends. *)
Inductive Settled (E A : Type) : Type :=
| Fulfilled (value : A)
| Rejected (reason : E).
Arguments Fulfilled {E A} value.
Arguments Rejected {E A} reason.

(** How a call of an [async] orchestration method ends: it resolves; it
    rejects with a [TypeError] raised in the post-processing; it rejects
    with a value thrown on the way, by the progress callback or by the
    engine when the items of a page are spread into a call; or it stays
    pending because a promise it awaits never settles. *)
Inductive Completion (E A : Type) : Type :=
| Resolves (a : A)
| RejectsTypeError
| Rejects (reason : E)
| StaysPending.
Arguments Resolves {E A} a.
Arguments RejectsTypeError {E A}.
Arguments Rejects {E A} reason.
Arguments StaysPending {E A}.

Module Pipeline.
Import JS.

Section pipeline.

(** [JSON.stringify], a built-in outside this repository. *)
Variable JSON_stringify : Value -> string.

(** What is thrown and caught: the reasons that a rejected
    [rateLimiter.execute] carries, the values that the progress callback
    throws, the errors of the engine; and [wrapError] of [./errors],
    which turns any of them into an [ExtractionError]. *)
Variable Thrown : Type.
Variable wrapError : Thrown -> ExtractionError.t.

(** The key computed in the body of the loop of [deduplicateItems]. *)
Definition keyOf (item : Value) : option string :=
  evidence ← member item "evidence";
  if truthy (optMember (optMember evidence "descriptionSpan") "text") then
    descriptionSpan ← member evidence "descriptionSpan";
    text ← member descriptionSpan "text";
    trimmed ← callTrim text;
    Some ("evidence:" +:+ trimmed)
  else
    description ← member item "description";
    match description with
    | Str d => Some ("desc:" +:+ trim (toLowerCase d))
    | _ => Some ("json:" +:+ JSON_stringify item)
    end.

(** The branch of the [if] / [else if] / [else] that computes the key. *)
Inductive Tier : Type := EvidenceTier | DescriptionTier | JsonTier.

Definition tierPrefix (t : Tier) : string :=
  match t with
  | EvidenceTier => "evidence:"
  | DescriptionTier => "desc:"
  | JsonTier => "json:"
  end.

Definition tierOf (item : Value) : option Tier :=
  evidence ← member item "evidence";
  if truthy (optMember (optMember evidence "descriptionSpan") "text") then
    Some EvidenceTier
  else
    description ← member item "description";
    match description with
    | Str _ => Some DescriptionTier
    | _ => Some JsonTier
    end.

(** The key as the design document words it: the evidence text trimmed,
    else the description lower-cased and trimmed, else the serialization
    of the item. Kept apart from [keyOf] to compare the two. *)
Definition documentedKey (item : Value) : option string :=
  evidence ← member item "evidence";
  if truthy (optMember (optMember evidence "descriptionSpan") "text") then
    descriptionSpan ← member evidence "descriptionSpan";
    text ← member descriptionSpan "text";
    callTrim text
  else
    description ← member item "description";
    match description with
    | Str d => Some (trim (toLowerCase d))
    | _ => Some (JSON_stringify item)
    end.

(** The [for ... of] loop of [deduplicateItems], with its two locals. *)
Fixpoint dedupLoop (items : list Value) (seen : gset string)
    (deduplicated : list Value) : option (list Value) :=
  match items with
  | [] => Some deduplicated
  | item :: rest =>
      key ← keyOf item;
      if decide (key ∈ seen) then dedupLoop rest seen deduplicated
      else dedupLoop rest ({[key]} ∪ seen) (deduplicated ++ [item])
  end.

Definition deduplicateItems (items : list Value) : option (list Value) :=
  dedupLoop items ∅ [].

(** The accumulator of the [reduce] in [calculateAverageConfidence]: a
    number, or a string once [+] has concatenated. *)
Inductive Total : Type :=
| TotalNum (x : Float64.Number)
| TotalStr.

(** [sum + (item.confidence || 0)]: a falsy confidence counts for [0], a
    number is added, [true] adds [1], and a non-empty string, an array or
    an object makes [+] concatenate. *)
Definition addConfidence (sum : Total) (item : Value) : option Total :=
  confidence ← member item "confidence";
  Some match sum with
       | TotalStr => TotalStr
       | TotalNum x =>
           if truthy confidence then
             match confidence with
             | Num y => TotalNum (Float64.add x (Float64.Finite y))
             | Bool _ => TotalNum (Float64.add x (Float64.Finite 1))
             | _ => TotalStr
             end
           else TotalNum (Float64.add x (Float64.Finite 0))
       end.

Fixpoint reduceConfidence (items : list Value) (sum : Total) : option Total :=
  match items with
  | [] => Some sum
  | item :: rest => sum' ← addConfidence sum item; reduceConfidence rest sum'
  end.

Definition calculateAverageConfidence (items : list Value) : option Average :=
  match items with
  | [] => Some NoAverage
  | item0 :: _ =>
      confidence0 ← member item0 "confidence";
      match confidence0 with
      | Num _ =>
          totalConfidence ← reduceConfidence items (TotalNum (Float64.Finite 0));
          Some match totalConfidence with
               | TotalNum total => Mean (Float64.divide total (length items))
               | TotalStr => FromString
               end
      | _ => Some NoAverage
      end
  end.

(** The page result of a settled [rateLimiter.execute]: the two branches
    of the [try]/[catch] common to the three entry points. *)
Definition pageResult (chunk : PageChunk.t) (outcome : Settled Thrown (list Value))
    : PageExtractionResult.t :=
  match outcome with
  | Fulfilled items =>
      PageExtractionResult.mk items (PageChunk.pageNumber chunk) true None None
  | Rejected error =>
      let exError := wrapError error in
      PageExtractionResult.mk [] (PageChunk.pageNumber chunk) false
        (Some (ExtractionError.message exError))
        (Some (ExtractionError.code exError))
  end.

(** One run of an entry point: [execute i chunk] is how the awaited
    [rateLimiter.execute(() => this.extractSingle(chunk.content, extractor), ...)]
    of the chunk at index [i] ends in this run, retries included;
    [startTime] and [endTime] are the two readings of [Date.now()]. The
    logger only observes the run and is left out. *)
Variable execute : nat -> PageChunk.t -> Settled Thrown (list Value).
Variables startTime endTime : Z.

(** [progress i chunk] is how the call
    [this.onProgress?.(i + 1, chunks.length, ...)] for the chunk at index
    [i] ends in this run: [None] when the pipeline has no callback or
    the callback returns, [Some thrown] when it throws. *)
Variable progress : nat -> PageChunk.t -> option Thrown.

(** The engine takes at most [maxArguments] arguments in a call, and
    throws [rangeError], a [RangeError], at a call with more. *)
Variable maxArguments : nat.
Variable rangeError : Thrown.

(** [allItems.push(...items)]: the elements of [items] are the arguments
    of the call; when they are too many, nothing is pushed. *)
Definition pushSpread (allItems items : list Value) : Thrown + list Value :=
  if (maxArguments <? length items)%nat then inl rangeError
  else inr (allItems ++ items)%list.

(** The [for] loop of [extractFromPages], from index [i] on. The progress
    callback is called before the [try]: what it throws ends the loop.
    Inside the [try] the successful page result is pushed before the
    items are spread, so that a [RangeError] of the spread is caught
    after it and adds a failed page result for the same chunk. *)
Fixpoint pagesLoop (i : nat) (chunks : list PageChunk.t)
    (pageResults : list PageExtractionResult.t) (allItems : list Value)
    : Thrown + (list PageExtractionResult.t * list Value) :=
  match chunks with
  | [] => inr (pageResults, allItems)
  | chunk :: rest =>
      match progress i chunk with
      | Some thrown => inl thrown
      | None =>
          match execute i chunk with
          | Fulfilled items =>
              let pageResults1 :=
                (pageResults ++ [pageResult chunk (Fulfilled items)])%list in
              match pushSpread allItems items with
              | inr allItems1 => pagesLoop (S i) rest pageResults1 allItems1
              | inl error =>
                  pagesLoop (S i) rest
                    (pageResults1 ++ [pageResult chunk (Rejected error)])
                    allItems
              end
          | Rejected error =>
              pagesLoop (S i) rest
                (pageResults ++ [pageResult chunk (Rejected error)])
                allItems
          end
      end
  end.

(** The aggregation that ends [extractFromPages] and [extractParallel]. *)
Definition aggregate (chunks : list PageChunk.t)
    (pageResults : list PageExtractionResult.t) (allItems : list Value)
    (itemsBeforeDedup : nat) : Completion Thrown ExtractionResult.t :=
  match deduplicateItems allItems with
  | None => RejectsTypeError
  | Some allItems' =>
      match calculateAverageConfidence allItems' with
      | None => RejectsTypeError
      | Some averageConfidence =>
          Resolves
            (ExtractionResult.mk allItems' (length chunks)
               (length (filter (λ r, PageExtractionResult.success r = false) pageResults))
               pageResults
               (Metrics.mk (length allItems') itemsBeforeDedup
                  (endTime - startTime) averageConfidence))
      end
  end.

Definition extractFromPages (chunks : list PageChunk.t)
    : Completion Thrown ExtractionResult.t :=
  match pagesLoop 0 chunks [] [] with
  | inl thrown => Rejects thrown
  | inr (pageResults, allItems) =>
      aggregate chunks pageResults allItems
        (foldl (λ sum r, (sum + length (PageExtractionResult.items r))%nat)
               0%nat pageResults)
  end.

(** [chunks.map(async (chunk) => ...)] of [extractStreaming]: the value
    each task promise fulfils with; a task never rejects. *)
Definition tasksOf (chunks : list PageChunk.t) : list PageExtractionResult.t :=
  imap (λ i chunk, pageResult chunk (execute i chunk)) chunks.

(** [chunks.map(async (chunk, i) => ...)] of [extractParallel]: the
    progress callback is called inside the [try], so that what it throws
    is caught and makes the page result a failed one, without a call of
    [rateLimiter.execute]. *)
Definition parallelTasksOf (chunks : list PageChunk.t)
    : list PageExtractionResult.t :=
  imap (λ i chunk,
          match progress i chunk with
          | Some thrown => pageResult chunk (Rejected thrown)
          | None => pageResult chunk (execute i chunk)
          end) chunks.

(** [Promise.all(tasks)]: [completion] lists the indices of the tasks in
    the order in which they settle; each settlement stores the value at
    the index of its task; the result is the array of values, in the order
    of [tasks], once no slot is empty. *)
Definition promiseAll {A} (tasks : list A) (completion : list nat)
    : option (list A) :=
  let values :=
    foldl (λ values i, match tasks !! i with
                       | Some v => <[i := Some v]> values
                       | None => values
                       end)
          (replicate (length tasks) None) completion in
  mapM id values.

(** The [for ... of] loop of [extractParallel] that gathers the items,
    outside any [try]: a [RangeError] of the spread ends it. *)
Fixpoint gatherItems (pageResults : list PageExtractionResult.t)
    (allItems : list Value) : Thrown + list Value :=
  match pageResults with
  | [] => inr allItems
  | res :: rest =>
      match pushSpread allItems (PageExtractionResult.items res) with
      | inr allItems1 => gatherItems rest allItems1
      | inl error => inl error
      end
  end.

Definition extractParallel (completion : list nat) (chunks : list PageChunk.t)
    : Completion Thrown ExtractionResult.t :=
  match promiseAll (parallelTasksOf chunks) completion with
  | None => StaysPending
  | Some pageResults =>
      match gatherItems pageResults [] with
      | inl error => Rejects error
      | inr allItems =>
          aggregate chunks pageResults allItems (length allItems)
      end
  end.

(** [extractStreaming]. The pool holds the task promises, named by their
    index in [chunks], in insertion order. [race pool] names the promise
    whose wrapper wins [Promise.race] over [Array.from(pool)]; the pool
    shrinks at every iteration, so a function of the pool describes any
    sequence of winners of one run. The loop yields the value of the
    winner and deletes it from the pool; [fuel] bounds the number of
    iterations. *)
Variable race : list nat -> nat.

Fixpoint streamLoop (fuel : nat) (tasks : list PageExtractionResult.t)
    (pool : list nat) : option (list PageExtractionResult.t) :=
  match pool with
  | [] => Some []
  | _ :: _ =>
      match fuel with
      | O => None
      | S fuel' =>
          let p := race pool in
          match tasks !! p with
          | Some res =>
              if decide (p ∈ pool)
              then (res ::.) <$> streamLoop fuel' tasks (filter (λ q, q ≠ p) pool)
              else None
          | None => None
          end
      end
  end.

Definition extractStreaming (fuel : nat) (chunks : list PageChunk.t)
    : option (list PageExtractionResult.t) :=
  streamLoop fuel (tasksOf chunks) (seq 0 (length chunks)).

End pipeline.
End Pipeline.

(** ** The scheduler *)

Module Scheduler.

Record CallConfig := mkConfig {
  maxConcurrent : nat;
  minStartSpacing : nat;
  maxRetries : nat;
}.

(** Modelled from the spec: the Scheduler, [RateLimiter] of
    [./rate-limiter], which is not among the sources. It owns the
    in-flight count and the time of the most recent call start. A call
    is started only when the in-flight count is below [maxConcurrent]
    and [minStartSpacing] has elapsed since the most recent start; the
    admission increments the count and records the start, check and
    increment being one step; a completion, and the release of the slot
    before a retry backs off, decrement it. *)
Record State := mkState {
  inFlight : nat;
  lastStart : option nat;
}.

Definition initial : State := mkState 0 None.

Definition spacingElapsed (cfg : CallConfig) (st : State) (now : nat) : bool :=
  match lastStart st with
  | None => true
  | Some t => (t + minStartSpacing cfg <=? now)%nat
  end.

Definition canStart (cfg : CallConfig) (st : State) (now : nat) : bool :=
  (inFlight st <? maxConcurrent cfg)%nat && spacingElapsed cfg st now.

Inductive Event : Type :=
| Started (now : nat)
| Completed (now : nat).

(** The accounting of an admission and of a completion; [None] when the
    scheduler does not permit it in that state. *)
Definition start (cfg : CallConfig) (st : State) (now : nat) : option State :=
  if canStart cfg st now
  then Some (mkState (S (inFlight st)) (Some now))
  else None.

Definition release (st : State) : option State :=
  match inFlight st with
  | O => None
  | S n => Some (mkState n (lastStart st))
  end.

Definition step (cfg : CallConfig) (st : State) (ev : Event) : option State :=
  match ev with
  | Started now => start cfg st now
  | Completed _ => release st
  end.

(** The states after each event of a history. *)
Fixpoint states (cfg : CallConfig) (st : State) (events : list Event)
    : option (list State) :=
  match events with
  | [] => Some []
  | ev :: rest =>
      st' ← step cfg st ev;
      sts ← states cfg st' rest;
      Some (st' :: sts)
  end.

(** The state a history leads to. *)
Fixpoint exec (cfg : CallConfig) (st : State) (events : list Event)
    : option State :=
  match events with
  | [] => Some st
  | ev :: rest => st' ← step cfg st ev; exec cfg st' rest
  end.

(** Modelled from the spec: callers that wait for admission, re-checking
    as time passes and as other calls finish. [waiting] holds the
    durations of the calls not yet started, [running] the finish times
    of the calls in flight; time advances by one unit per round. A round
    first completes the calls that finish now, then starts waiting calls
    as long as the scheduler permits. *)
Fixpoint completeDue (now : nat) (running : list nat) (st : State)
    : list Event * list nat * State :=
  match running with
  | [] => ([], [], st)
  | finish :: rest =>
      if (finish <=? now)%nat then
        match release st with
        | Some st' =>
            let '(events, running', st'') := completeDue now rest st' in
            (Completed now :: events, running', st'')
        | None => completeDue now rest st
        end
      else
        let '(events, running', st') := completeDue now rest st in
        (events, finish :: running', st')
  end.

Fixpoint startWaiting (cfg : CallConfig) (now : nat) (waiting running : list nat)
    (st : State) : list Event * list nat * list nat * State :=
  match waiting with
  | [] => ([], [], running, st)
  | duration :: rest =>
      match start cfg st now with
      | Some st' =>
          let '(events, waiting', running', st'') :=
            startWaiting cfg now rest (running ++ [(now + duration)%nat]) st' in
          (Started now :: events, waiting', running', st'')
      | None => ([], waiting, running, st)
      end
  end.

Fixpoint simulate (cfg : CallConfig) (rounds now : nat) (waiting running : list nat)
    (st : State) : list Event :=
  match rounds with
  | O => []
  | S rounds' =>
      let '(completions, running1, st1) := completeDue now running st in
      let '(admissions, waiting2, running2, st2) :=
        startWaiting cfg now waiting running1 st1 in
      match waiting2, running2 with
      | [], [] => completions ++ admissions
      | _, _ =>
          completions ++ admissions
            ++ simulate cfg rounds' (S now) waiting2 running2 st2
      end
  end.

(** The largest in-flight count among the states of a history. *)
Definition maxInFlight (sts : list State) : nat :=
  foldr Nat.max 0%nat (map inFlight sts).

Definition isStarted (ev : Event) : bool :=
  match ev with Started _ => true | Completed _ => false end.

Definition admissions (events : list Event) : nat :=
  length (filter (λ ev, isStarted ev = true) events).

Definition completions (events : list Event) : nat :=
  length (filter (λ ev, isStarted ev = false) events).

End Scheduler.

(** ** Notions used to state the properties *)

(** The elements of [l] whose mask bit is set, in the order of [l]. *)
Fixpoint select {A : Type} (mask : list bool) (l : list A) : list A :=
  match mask, l with
  | b :: mask', x :: l' => if b then x :: select mask' l' else select mask' l'
  | _, _ => []
  end.

(** [keptMask seen keys]: bit [i] is set when key [i] is neither in [seen]
    nor among the keys before it. *)
Fixpoint keptMask (seen : gset string) (keys : list string) : list bool :=
  match keys with
  | [] => []
  | k :: rest =>
      if decide (k ∈ seen) then false :: keptMask seen rest
      else true :: keptMask ({[k]} ∪ seen) rest
  end.

(** [dedup] keeps of [items] the first occurrence per [key], in order: it
    returns the selection of a mask whose bit [i] is clear exactly when an
    earlier item has the key of item [i]. *)
Definition firstOccurrenceBy (key : JS.Value -> option string)
    (dedup : list JS.Value -> option (list JS.Value)) (items : list JS.Value) : Prop :=
  forall keys, mapM key items = Some keys ->
    exists kept : list bool,
      length kept = length items /\
      dedup items = Some (select kept items) /\
      forall i k, keys !! i = Some k ->
        (kept !! i = Some false <-> exists j, (j < i)%nat /\ keys !! j = Some k).






(** The sum of the first [k] of the numbers. *)
Definition partialSum (qs : list Qc) (k : nat) : Qc :=
  foldr Qcplus 0%Qc (take k qs).

(** The rational [q] is a double: rounding leaves it as it is. *)
Definition exact (q : Qc) : Prop := Float64.round64 q = Float64.Finite q.

(** The mean as doubles compute it: the numbers added from left to
    right, starting from zero, and the sum divided by their count. *)
Definition meanFloat64 (qs : list Qc) : Float64.Number :=
  Float64.divide
    (foldl (λ sum q, Float64.add sum (Float64.Finite q)) (Float64.Finite 0) qs)
    (length qs).



(** The progress callback throws at no chunk of the run. *)
Definition quiet {Thrown} (progress : nat -> PageChunk.t -> option Thrown)
    (chunks : list PageChunk.t) : Prop :=
  forall i chunk, chunks !! i = Some chunk -> progress i chunk = None.

(** The items of every fulfilled call fit into the arguments of one
    call. *)
Definition fits {Thrown} (execute : nat -> PageChunk.t -> Settled Thrown (list JS.Value))
    (maxArguments : nat) (chunks : list PageChunk.t) : Prop :=
  forall i chunk items,
    chunks !! i = Some chunk -> execute i chunk = Fulfilled items ->
    (length items <= maxArguments)%nat.

(** What an iteration of the loop of [extractFromPages] that is not
    ended by the progress callback records for its chunk, and the items
    it gathers. *)
Definition recorded {Thrown} (wrapError : Thrown -> ExtractionError.t)
    (maxArguments : nat) (rangeError : Thrown) (chunk : PageChunk.t)
    (outcome : Settled Thrown (list JS.Value)) : list PageExtractionResult.t :=
  match outcome with
  | Fulfilled items =>
      if (maxArguments <? length items)%nat
      then [Pipeline.pageResult Thrown wrapError chunk (Fulfilled items);
            Pipeline.pageResult Thrown wrapError chunk (Rejected rangeError)]
      else [Pipeline.pageResult Thrown wrapError chunk (Fulfilled items)]
  | Rejected error => [Pipeline.pageResult Thrown wrapError chunk (Rejected error)]
  end.

Definition gathered {Thrown} (maxArguments : nat)
    (outcome : Settled Thrown (list JS.Value)) : list JS.Value :=
  match outcome with
  | Fulfilled items => if (maxArguments <? length items)%nat then [] else items
  | Rejected _ => []
  end.

(** A serializer to evaluate the examples with: [JSON.stringify] on
    values whose numbers are integers and whose strings hold no control
    character. A number that is not an integer is printed as a fraction,
    which [JSON.stringify] never does; no example uses one. *)
Module Examples.
Import JS.

Definition dquote : string := String (ascii_of_nat 34) EmptyString.
Definition backslash : string := String (ascii_of_nat 92) EmptyString.

Fixpoint escape (s : string) : string :=
  match s with
  | EmptyString => EmptyString
  | String c rest =>
      (if Ascii.eqb c (ascii_of_nat 34) then backslash +:+ dquote
       else if Ascii.eqb c (ascii_of_nat 92) then backslash +:+ backslash
       else String c EmptyString) +:+ escape rest
  end.

Definition quoted (s : string) : string := dquote +:+ escape s +:+ dquote.

Definition number (q : Qc) : string :=
  let n := Qnum (this q) in
  let d := Zpos (Qden (this q)) in
  if d =? 1 then pretty n else pretty n +:+ "/" +:+ pretty d.

Fixpoint stringify (v : Value) : string :=
  match v with
  | Undefined => "undefined"
  | Null => "null"
  | Bool true => "true"
  | Bool false => "false"
  | Num q => number q
  | Str s => quoted s
  | Arr elems => "[" +:+ String.concat "," (map stringify elems) +:+ "]"
  | Obj props =>
      "{" +:+ String.concat ","
                (map (λ kv, quoted (fst kv) +:+ ":" +:+ stringify (snd kv)) props)
          +:+ "}"
  end.

(** Items of the unit tests of the deduplication. *)
Definition itemA : Value :=
  Obj [("description", Str "Item A"); ("total", Num (Q2Qc 100))].
Definition itemA_lower : Value :=
  Obj [("description", Str "item a"); ("total", Num (Q2Qc 100))].
Definition unknown50 : Value :=
  Obj [("name", Str "Unknown"); ("price", Num (Q2Qc 50))].
Definition unknown75 : Value :=
  Obj [("name", Str "Unknown"); ("price", Num (Q2Qc 75))].
Definition webDevelopment : Value :=
  Obj [("description", Str "Web Development Services");
       ("total", Num (Q2Qc 6000));
       ("evidence",
        Obj [("descriptionSpan", Obj [("text", Str "Web Development Services")]);
             ("totalSpan", Obj [("text", Str "$6,000.00")])])].

(** An item keyed by its evidence text and one keyed by its description,
    the two texts equal up to case. *)
Definition consultingEvidence : Value :=
  Obj [("evidence", Obj [("descriptionSpan", Obj [("text", Str "consulting")])])].
Definition consultingDescription : Value :=
  Obj [("description", Str "Consulting")].

Definition half : Value := Obj [("fact", Str "a"); ("confidence", Num (Q2Qc (1 # 2)))].
Definition quarter : Value := Obj [("fact", Str "b"); ("confidence", Num (Q2Qc (1 # 4)))].

(** A run for the examples: a rejected call carries its message, and
    [wrap] stands for [wrapError]. *)
Definition wrap (message : string) : ExtractionError.t :=
  ExtractionError.mk ("Extraction failed: " +:+ message) "EXTRACTION_ERROR".

(** Three pages; the call of page 2 ends in a validation error. *)
Definition threePages : list PageChunk.t :=
  [PageChunk.mk "Item A" 1; PageChunk.mk "page two" 2; PageChunk.mk "Unknown" 3].

Definition secondFails (i : nat) (chunk : PageChunk.t)
    : Settled string (list Value) :=
  if PageChunk.pageNumber chunk =? 2
  then Rejected "response did not match schema"
  else Fulfilled [Obj [("description", Str (PageChunk.content chunk))]].

(** Two pages that name the same item with a different case. *)
Definition twoPages : list PageChunk.t :=
  [PageChunk.mk "Item A" 1; PageChunk.mk "item a" 2].

Definition describes (i : nat) (chunk : PageChunk.t)
    : Settled string (list Value) :=
  Fulfilled [Obj [("description", Str (PageChunk.content chunk))]].

(** The race of the streaming example: the youngest promise of the pool
    wins. *)
Definition youngest (pool : list nat) : nat := default 0%nat (last pool).

(** A pipeline without a progress callback. *)
Definition noCallback (i : nat) (chunk : PageChunk.t) : option string := None.

(** A progress callback that throws at the second call. *)
Definition throwsAtSecond (i : nat) (chunk : PageChunk.t) : option string :=
  if (i =? 1)%nat then Some "progress failed" else None.

(** An engine scaled down for the examples, which takes 100 arguments
    where the engines in use take some ten thousands, and the message
    of its [RangeError]. *)
Definition argumentLimit : nat := 100.
Definition rangeError : string := "Maximum call stack size exceeded".

(** One page whose call is fulfilled with 150 items. *)
Definition onePage : list PageChunk.t := [PageChunk.mk "a long page" 1].
Definition manyItems : list Value := replicate 150 (Obj []).
Definition returnsMany (i : nat) (chunk : PageChunk.t)
    : Settled string (list Value) := Fulfilled manyItems.

(** An item without a confidence, and the doubles nearest to 0.1 and
    0.2 as confidences. *)
Definition whole : Value := Obj [("fact", Str "c"); ("confidence", Num 1)].
Definition unrated : Value := Obj [("fact", Str "d")].
Definition tenthQc : Qc := Q2Qc (3602879701896397 # 36028797018963968).
Definition fifthQc : Qc := Q2Qc (3602879701896397 # 18014398509481984).
Definition tenth : Value := Obj [("confidence", Num tenthQc)].
Definition fifth : Value := Obj [("confidence", Num fifthQc)].

End Examples.

(** ** lib/core/grounding.ts: raw evidence records *)

Module RawEvidence.
Import Grounding.

(** [result[key] = value] on the plain object under construction, as far
    as its own properties go: the key ["__proto__"] reaches the setter
    inherited from [Object.prototype] and creates no own property. *)
Definition setOwn {V} (key : string) (value : V) (result : gmap string V)
    : gmap string V :=
  if decide (key = "__proto__") then result else <[key := value]> result.

(** The body of the loop of [processRawEvidence]; a raw span is its text,
    or [None] when it is [undefined]. *)
Definition resolveRaw (sourceText : string) (rawSpan : option string)
    : option EvidenceSpan :=
  match rawSpan with
  | Some text =>
      if falsyStr text then None else computeEvidenceOffsets sourceText text 0
  | None => None
  end.

(** [processRawEvidence]: [rawEvidence] is [Object.entries(rawEvidence)],
    the result the own properties of the record returned, with [None] for
    [null]. *)
Definition processRawEvidence (sourceText : string)
    (rawEvidence : list (string * option string))
    : gmap string (option EvidenceSpan) :=
  foldl (λ result entry, setOwn (fst entry) (resolveRaw sourceText (snd entry)) result)
        ∅ rawEvidence.

End RawEvidence.

(** ** Further string built-ins: slice, lastIndexOf, split *)

Module JSText.
Import JS.

(** The relative index of [slice]: a negative index counts from the end,
    and the result is clamped into [0, s.length]. *)
Definition relIndex (s : string) (i : Z) : nat :=
  if i <? 0 then Z.to_nat (Z.max (len s + i) 0) else Z.to_nat (Z.min i (len s)).

(** [s.slice(a, b)]: empty when the start is not before the end. *)
Definition slice (s : string) (a b : Z) : string :=
  let from := relIndex s a in
  let to := relIndex s b in
  String.substring from (to - from) s.

(** [s.slice(a)] *)
Definition sliceFrom (s : string) (a : Z) : string := slice s a (len s).

(** Candidates are tried at [i], [i-1], ..., [0] (StringLastIndexOf). *)
Fixpoint searchBack (pat s : string) (i : nat) : option nat :=
  if String.prefix pat (dropStr i s) then Some i
  else match i with
       | O => None
       | S i' => searchBack pat s i'
       end.

(** [s.lastIndexOf(pat, position)]: the start is [position] clamped into
    [0, s.length - pat.length]; [-1] when there is no match. *)
Definition lastIndexOf (s pat : string) (position : Z) : Z :=
  if len s <? len pat then -1
  else
    let start := Z.to_nat (Z.min (Z.max position 0) (len s - len pat)) in
    match searchBack pat s start with
    | Some i => Z.of_nat i
    | None => -1
    end.

(** The scan of [split] for a non-empty separator: [skip] counts the code
    units of a matched separator still to pass, [piece] is the piece
    under construction. The separators are the leftmost occurrences that
    do not overlap. *)
Fixpoint splitScan (sep s : string) (skip : nat) (piece : string) : list string :=
  match s with
  | EmptyString => [piece]
  | String c s' =>
      match skip with
      | S k => splitScan sep s' k piece
      | O =>
          if String.prefix sep s
          then piece :: splitScan sep s' (String.length sep - 1) EmptyString
          else splitScan sep s' 0 (piece +:+ String c EmptyString)
      end
  end.

(** [s.split(sep)]: with the empty separator, the code units of [s]. *)
Definition split (s sep : string) : list string :=
  match sep with
  | EmptyString => map (λ c, String c EmptyString) (list_ascii_of_string s)
  | _ => splitScan sep s 0 EmptyString
  end.

End JSText.

(** ** lib/core/extraction-pipeline.ts: the chunking utilities *)

Module Chunking.
Import JS JSText.

Definition newline : string := String (ascii_of_nat 10) EmptyString.

(** The default delimiter of [splitIntoPages], a line [---PAGE---]. *)
Definition defaultDelimiter : string := newline +:+ "---PAGE---" +:+ newline.

(** [pages.map((content, index) => ({content: content.trim(), pageNumber: index + 1}))] *)
Definition splitIntoPages (text delimiter : string) : list PageChunk.t :=
  imap (λ index content, PageChunk.mk (trim content) (Z.of_nat index + 1))
       (split text delimiter).

(** The index at which one iteration of [chunkBySize] cuts [remaining].
    [maxChunkSize] is an integer, for which [x > maxChunkSize * 0.5] is
    [2 * x > maxChunkSize]. *)
Definition splitIndexOf (remaining : string) (maxChunkSize : Z) : Z :=
  if len remaining >? maxChunkSize then
    let paragraphBreak := lastIndexOf remaining (newline +:+ newline) maxChunkSize in
    if 2 * paragraphBreak >? maxChunkSize then paragraphBreak
    else
      let sentenceBreak := lastIndexOf remaining ". " maxChunkSize in
      if 2 * sentenceBreak >? maxChunkSize then sentenceBreak + 1
      else maxChunkSize
  else len remaining.

(** The [while] loop of [chunkBySize]; [None] when [fuel] iterations do
    not end it. *)
Fixpoint chunkLoop (fuel : nat) (maxChunkSize : Z) (remaining : string)
    (pageNumber : Z) (chunks : list PageChunk.t) : option (list PageChunk.t) :=
  if len remaining >? 0 then
    match fuel with
    | O => None
    | S fuel' =>
        let splitIndex := splitIndexOf remaining maxChunkSize in
        chunkLoop fuel' maxChunkSize
          (trim (sliceFrom remaining splitIndex))
          (pageNumber + 1)
          (chunks ++ [PageChunk.mk (trim (slice remaining 0 splitIndex)) pageNumber])
    end
  else Some chunks.

Definition chunkBySize (fuel : nat) (text : string) (maxChunkSize : Z)
    : option (list PageChunk.t) :=
  chunkLoop fuel maxChunkSize text 1 [].

(** A string that is empty or starts with a code unit that is not white
    space. *)
Definition startsClean (s : string) : Prop :=
  match s with
  | EmptyString => True
  | String c _ => isWhiteSpace c = false
  end.

(** The code units of a string that are not white space, in order. *)
Fixpoint nonWhite (s : string) : list ascii :=
  match s with
  | EmptyString => []
  | String c s' => if isWhiteSpace c then nonWhite s' else c :: nonWhite s'
  end.

(** The code units that are not white space of the chunks, in order. *)
Definition nonWhiteOf (chunks : list PageChunk.t) : list ascii :=
  concat (map (λ chunk, nonWhite (PageChunk.content chunk)) chunks).

(** The page numbers [first], [first + 1], ... of [n] chunks. *)
Definition numbersFrom (first : Z) (n : nat) : list Z :=
  map (λ i, first + Z.of_nat i) (seq 0 n).

End Chunking.

(** ** components/grounding-viewer.tsx: the segments rendered *)

Module Viewer.
Import JS JSText.

Record Highlight := mkHighlight {
  id : string;
  span : Grounding.EvidenceSpan;
  color : string;
  label : string;
}.

Record Segment := mkSegment {
  text : string;
  highlight : option Highlight;
}.

Definition startOf (h : Highlight) : Z := Grounding.startOffset (span h).
Definition endOf (h : Highlight) : Z := Grounding.endOffset (span h).

(** [[...highlights].sort((a, b) => a.span.startOffset - b.span.startOffset)]:
    the stable sort by ascending start offset, as an insertion sort. *)
Fixpoint insertHighlight (h : Highlight) (sorted : list Highlight) : list Highlight :=
  match sorted with
  | [] => [h]
  | x :: rest =>
      if startOf h <=? startOf x then h :: x :: rest
      else x :: insertHighlight h rest
  end.

Definition sortedHighlights (highlights : list Highlight) : list Highlight :=
  foldr insertHighlight [] highlights.

(** The [for ... of] loop that builds the segments, and the remaining
    text added after it. *)
Fixpoint segmentsLoop (sourceText : string) (highlights : list Highlight)
    (cursor : Z) (result : list Segment) : list Segment :=
  match highlights with
  | [] =>
      if cursor <? len sourceText
      then (result ++ [mkSegment (sliceFrom sourceText cursor) None])%list
      else result
  | h :: rest =>
      if (startOf h <? cursor) || (endOf h >? len sourceText)
      then segmentsLoop sourceText rest cursor result
      else
        let result1 :=
          if startOf h >? cursor
          then (result ++ [mkSegment (slice sourceText cursor (startOf h)) None])%list
          else result in
        segmentsLoop sourceText rest (endOf h)
          (result1 ++ [mkSegment (slice sourceText (startOf h) (endOf h)) (Some h)])
  end.

Definition segments (sourceText : string) (highlights : list Highlight)
    : list Segment :=
  segmentsLoop sourceText (sortedHighlights highlights) 0 [].

(** The text that the segments render, one after the other. *)
Definition rendered (segs : list Segment) : string :=
  foldr (λ seg acc, text seg +:+ acc) EmptyString segs.

(** The highlights follow one another from [cursor] on: each starts at
    or after the end of the one before it, the first at or after
    [cursor], and each ends within the source. *)
Fixpoint inOrderFrom (sourceText : string) (cursor : Z) (shown : list Highlight)
    : Prop :=
  match shown with
  | [] => True
  | h :: rest =>
      cursor <= startOf h /\ endOf h <= len sourceText /\
      inOrderFrom sourceText (endOf h) rest
  end.

(** Highlights for the examples. *)
Definition totalHighlight : Highlight :=
  mkHighlight "item-0-total" (Grounding.mkSpan "$1,234.56" 7 16) "yellow" "Total".
Definition overlapping : Highlight :=
  mkHighlight "item-1-desc" (Grounding.mkSpan "1,234" 8 13) "green" "Amount".
Definition reversed : Highlight :=
  mkHighlight "item-2-desc" (Grounding.mkSpan "?" 5 2) "red" "Reversed".

End Viewer.

(** ** The demo page: the highlights built from the extracted items

    [ExtractedItem] as the page declares it, every field optional. An
    index is rendered in a template literal as its decimal digits; the
    rendering of the number [total] is a parameter. *)

Module DemoPage.
Import JS.

Record Evidence := mkEvidence {
  descriptionSpan : option Grounding.EvidenceSpan;
  totalSpan : option Grounding.EvidenceSpan;
}.

Record ExtractedItem := mkItem {
  description : option string;
  total : option Qc;
  evidence : option Evidence;
}.

Definition colors : list string := ["yellow"; "green"; "blue"; "red"].

(** [colors[index % colors.length]]; the index is always within the
    array. *)
Definition colorOf (index : nat) : string :=
  default "undefined" (colors !! (index mod length colors)%nat).

(** [`item-${index}-desc`] and [`item-${index}-total`] *)
Definition idOf (index : nat) (part : string) : string :=
  "item-" +:+ pretty index +:+ "-" +:+ part.

(** [item.description || "Description"] *)
Definition descriptionOr (item : ExtractedItem) : string :=
  match description item with
  | Some d => if Grounding.falsyStr d then "Description" else d
  | None => "Description"
  end.

Section page.

(** The string a template literal renders a number to. *)
Variable Number_toString : Qc -> string.

(** [`${item.total}`] *)
Definition totalString (item : ExtractedItem) : string :=
  match total item with
  | Some t => Number_toString t
  | None => "undefined"
  end.

(** What the callback of [result.items.forEach] pushes for one item. *)
Definition pushed (index : nat) (item : ExtractedItem) : list Viewer.Highlight :=
  let color := colorOf index in
  (match evidence item ≫= descriptionSpan with
   | Some span =>
       [Viewer.mkHighlight (idOf index "desc") span color
          ("Item " +:+ pretty (index + 1)%nat +:+ ": " +:+ descriptionOr item)]
   | None => []
   end ++
   match evidence item ≫= totalSpan with
   | Some span =>
       [Viewer.mkHighlight (idOf index "total") span color
          ("Item " +:+ pretty (index + 1)%nat +:+ ": $" +:+ totalString item)]
   | None => []
   end)%list.

Fixpoint forEachItem (index : nat) (items : list ExtractedItem)
    (allHighlights : list Viewer.Highlight) : list Viewer.Highlight :=
  match items with
  | [] => allHighlights
  | item :: rest => forEachItem (S index) rest (allHighlights ++ pushed index item)
  end.

(** The [highlights] memo; [result] is [None] before an extraction. *)
Definition highlights (result : option (list ExtractedItem)) : list Viewer.Highlight :=
  match result with
  | None => []
  | Some items => forEachItem 0 items []
  end.

End page.

(** The [selectedHighlights] memo:
    [h.id.startsWith(`item-${selectedItemIndex}-`)]. *)
Definition selectedHighlights (highlights : list Viewer.Highlight)
    (selectedItemIndex : option nat) : list Viewer.Highlight :=
  match selectedItemIndex with
  | None => highlights
  | Some selected =>
      List.filter
        (λ h, String.prefix ("item-" +:+ pretty selected +:+ "-") (Viewer.id h))
        highlights
  end.

(** [\d] *)
Definition isDigit (c : ascii) : bool :=
  let n := nat_of_ascii c in ((48 <=? n) && (n <=? 57))%nat.

(** The longest run of digits at the start of a string, and the rest. *)
Fixpoint digitRun (s : string) : string * string :=
  match s with
  | String c s' =>
      if isDigit c then let (run, rest) := digitRun s' in (String c run, rest)
      else (EmptyString, s)
  | EmptyString => (EmptyString, EmptyString)
  end.

(** A match of [/item-(\d+)-/] that starts at the start of [s]: the
    text [item-], the longest run of digits, which is not empty, and a
    dash. A shorter run of digits is followed by a digit, not by the
    dash, so that backtracking finds no other match here. *)
Definition matchAt (s : string) : option string :=
  if String.prefix "item-" s then
    match digitRun (dropStr 5 s) with
    | (String c run, String "-" _) => Some (String c run)
    | _ => None
    end
  else None.

(** [id.match(/item-(\d+)-/)]: the first group of the leftmost match. *)
Fixpoint matchItem (s : string) : option string :=
  match matchAt s with
  | Some group => Some group
  | None =>
      match s with
      | String _ s' => matchItem s'
      | EmptyString => None
      end
  end.

(** [parseInt(digits, 10)] on a run of digits: the digits are added to
    the number read so far, from the left. *)
Fixpoint parseFrom (acc : N) (digits : string) : N :=
  match digits with
  | EmptyString => acc
  | String c rest => parseFrom (acc * 10 + (N.of_nat (nat_of_ascii c) - 48))%N rest
  end.

Definition parseInt10 (digits : string) : N := parseFrom 0 digits.

(** [onHighlightClick]: the selected index after a click on the
    highlight [id]. *)
Definition onHighlightClick (id : string) (selectedItemIndex : option nat)
    : option nat :=
  match matchItem id with
  | Some group => Some (N.to_nat (parseInt10 group))
  | None => selectedItemIndex
  end.

(** Every code unit of a string is a digit. *)
Fixpoint allDigits (s : string) : bool :=
  match s with
  | EmptyString => true
  | String c s' => isDigit c && allDigits s'
  end.

(** Two items of an invoice: the first with both evidence spans, the
    second with the span of its total only. *)
Definition invoiceItems : list ExtractedItem :=
  [ mkItem (Some "Web Development Services") (Some (Q2Qc 6000))
      (Some (mkEvidence (Some (Grounding.mkSpan "Web Development Services" 0 24))
                        (Some (Grounding.mkSpan "$6,000.00" 50 59))));
    mkItem None (Some (Q2Qc 1400))
      (Some (mkEvidence None (Some (Grounding.mkSpan "$1,400.00" 110 119)))) ].

End DemoPage.

(** ** Properties of the string search *)

Section search_facts.
Import JS.

Lemma prefix_substring0 pat s :
  String.prefix pat s = true <-> String.substring 0 (String.length pat) s = pat.
Proof.
  split; intros H.
  - by apply String.prefix_correct.
  - by apply String.prefix_correct.
Qed.

Lemma substring_dropStr n m s :
  String.substring 0 m (dropStr n s) = String.substring n m s.
Proof.
  revert s. induction n as [|n IH]; intros s; [done|].
  destruct s as [|c s]; simpl.
  - by destruct m.
  - apply IH.
Qed.

Lemma dropStr_S n s c s' :
  dropStr n s = String c s' -> dropStr (S n) s = s'.
Proof.
  revert s. induction n as [|n IH]; intros s H; simpl in *.
  - by subst.
  - destruct s as [|d s]; [done|]. by apply IH.
Qed.

Lemma length_dropStr n s :
  String.length (dropStr n s) = (String.length s - n)%nat.
Proof.
  revert s. induction n as [|n IH]; intros s; simpl; [lia|].
  destruct s as [|c s]; simpl; [done|]. apply IH.
Qed.

Lemma length_substring_le n m s :
  (String.length (String.substring n m s) <= String.length s - n)%nat.
Proof.
  revert n m. induction s as [|c s IH]; intros n m.
  - by destruct n, m.
  - destruct n as [|n]; simpl.
    + destruct m as [|m]; simpl; [lia|]. specialize (IH 0%nat m). lia.
    + apply IH.
Qed.

Lemma search_unfold pat s i :
  search pat s i =
    if String.prefix pat s then Some i
    else match s with
         | EmptyString => None
         | String _ s' => search pat s' (S i)
         end.
Proof. by destruct s. Qed.

(** The search returns the least matching offset at or after its start. *)
Lemma search_Some pat s n i :
  search pat (dropStr n s) n = Some i ->
  (n <= i)%nat /\
  String.substring i (String.length pat) s = pat /\
  forall j, (n <= j < i)%nat -> String.substring j (String.length pat) s <> pat.
Proof.
  remember (dropStr n s) as t eqn:Ht.
  revert n Ht. induction t as [|c t IH]; intros n Ht; rewrite search_unfold.
  - destruct (String.prefix pat "") eqn:Hp; [|done].
    intros [= <-]. split; [lia|]. split; [|lia].
    rewrite <- substring_dropStr, <- Ht. by apply prefix_substring0.
  - destruct (String.prefix pat (String c t)) eqn:Hp.
    + intros [= <-]. split; [lia|]. split; [|lia].
      rewrite <- substring_dropStr, <- Ht. by apply prefix_substring0.
    + intros Hs. symmetry in Ht. pose proof Ht as Ht'.
      apply dropStr_S in Ht.
      destruct (IH (S n) (eq_sym Ht) Hs) as (Hle & Hm & Hmin).
      split; [lia|]. split; [done|].
      intros j Hj. destruct (decide (j = n)) as [->|Hne].
      * intros Heq. rewrite <- substring_dropStr, Ht' in Heq.
        apply prefix_substring0 in Heq. congruence.
      * apply Hmin. lia.
Qed.

(** A failed search leaves no occurrence at or after its start. *)
Lemma search_None pat s n j :
  search pat (dropStr n s) n = None ->
  (n <= j)%nat -> String.substring j (String.length pat) s <> pat.
Proof.
  remember (dropStr n s) as t eqn:Ht.
  revert n Ht. induction t as [|c t IH]; intros n Ht; rewrite search_unfold.
  - destruct (String.prefix pat "") eqn:Hp; [done|]. intros _ Hj Heq.
    assert (dropStr j s = "") as Hd.
    { apply (f_equal String.length) in Ht. rewrite length_dropStr in Ht.
      assert (String.length (dropStr j s) = 0%nat) as H0
        by (rewrite length_dropStr; simpl in Ht; lia).
      by destruct (dropStr j s). }
    rewrite <- substring_dropStr, Hd in Heq.
    apply prefix_substring0 in Heq. congruence.
  - destruct (String.prefix pat (String c t)) eqn:Hp; [done|].
    intros Hs Hj. symmetry in Ht. pose proof Ht as Ht'.
    apply dropStr_S in Ht.
    destruct (decide (j = n)) as [->|Hne].
    + intros Heq. rewrite <- substring_dropStr, Ht' in Heq.
      apply prefix_substring0 in Heq. congruence.
    + apply (IH (S n) (eq_sym Ht) Hs). lia.
Qed.

End search_facts.

Section grounding_facts.
Import JS Grounding.

Lemma occurrence_fits i pat s :
  pat <> "" -> String.substring i (String.length pat) s = pat ->
  (i + String.length pat <= String.length s)%nat.
Proof.
  intros Hne Heq. pose proof (length_substring_le i (String.length pat) s) as Hle.
  rewrite Heq in Hle. destruct pat; [done|]. simpl in *. lia.
Qed.

Lemma falsyStr_true s : falsyStr s = true <-> s = "".
Proof. by destruct s. Qed.

Lemma indexOf_found s pat position i :
  pat <> "" -> indexOf s pat position = i -> i <> -1 ->
  position <= i /\ occursAt s pat i /\
  (forall j, position <= j < i -> ~ occursAt s pat j) /\
  JS.substring s i (i + len pat) = pat.
Proof.
  intros Hne Hi Hfound. unfold indexOf in Hi.
  destruct (search pat (dropStr (clamp s position) s) (clamp s position))
    as [k|] eqn:Hs; [|congruence].
  subst i. apply search_Some in Hs as (Hle & Hocc & Hmin).
  pose proof (occurrence_fits _ _ _ Hne Hocc) as Hfit.
  assert (0 < String.length pat)%nat as Hpos by (destruct pat; [done|simpl; lia]).
  unfold clamp, len in *.
  split; [lia|]. split.
  { split; [lia|]. by rewrite Nat2Z.id. }
  split.
  { intros j Hj [Hj0 Hoccj]. apply (Hmin (Z.to_nat j)); [lia|done]. }
  unfold JS.substring, clamp, len.
  replace (Z.to_nat (Z.min (Z.max (Z.of_nat k) 0) (Z.of_nat (String.length s))))
    with k by lia.
  replace (Z.to_nat (Z.min (Z.max (Z.of_nat k + Z.of_nat (String.length pat)) 0)
                           (Z.of_nat (String.length s))))
    with (k + String.length pat)%nat by lia.
  replace (Nat.min k (k + String.length pat)) with k by lia.
  replace (Nat.max k (k + String.length pat) - k)%nat
    with (String.length pat) by lia.
  done.
Qed.

Lemma indexOf_not_found s pat position j :
  indexOf s pat position = -1 -> position <= j -> ~ occursAt s pat j.
Proof.
  unfold indexOf.
  destruct (search pat (dropStr (clamp s position) s) (clamp s position))
    as [k|] eqn:Hs; [lia|].
  intros _ Hj [Hj0 Hocc].
  apply (search_None _ _ _ (Z.to_nat j) Hs); [|done].
  unfold clamp, len. lia.
Qed.

End grounding_facts.

(** C1. Whenever [computeEvidenceOffsets] returns a span, the span is
    [{text: evidenceText, startOffset, endOffset: startOffset + length}]
    with [startOffset] the leftmost occurrence of [evidenceText] in
    [sourceText] at or after [startFrom], so that
    [sourceText.substring(startOffset, endOffset)] is [evidenceText]; and
    it returns null exactly when [evidenceText] is empty, [sourceText] is
    empty, or [evidenceText] has no occurrence at or after [startFrom]. *)
Theorem computeEvidenceOffsets_leftmost (sourceText evidenceText : string) (startFrom : Z) :
  (forall span,
      Grounding.computeEvidenceOffsets sourceText evidenceText startFrom = Some span ->
      Grounding.text span = evidenceText /\
      Grounding.endOffset span = Grounding.startOffset span + JS.len evidenceText /\
      startFrom <= Grounding.startOffset span /\
      JS.occursAt sourceText evidenceText (Grounding.startOffset span) /\
      (forall j, startFrom <= j < Grounding.startOffset span ->
                 ~ JS.occursAt sourceText evidenceText j) /\
      JS.substring sourceText (Grounding.startOffset span) (Grounding.endOffset span)
        = evidenceText) /\
  (Grounding.computeEvidenceOffsets sourceText evidenceText startFrom = None <->
      evidenceText = "" \/ sourceText = "" \/
      ~ exists j, startFrom <= j /\ JS.occursAt sourceText evidenceText j).
Proof.
  unfold Grounding.computeEvidenceOffsets.
  destruct (Grounding.falsyStr evidenceText) eqn:He.
  { apply falsyStr_true in He. split; [done|]. split; auto. }
  destruct (Grounding.falsyStr sourceText) eqn:Hs.
  { apply falsyStr_true in Hs. split; [done|]. split; auto. }
  assert (evidenceText <> "") as Hne by (intros ->; done).
  assert (sourceText <> "") as Hsne by (intros ->; done).
  simpl. destruct (Z.eqb_spec (JS.indexOf sourceText evidenceText startFrom) (-1))
    as [Hnf|Hf].
  - split; [done|]. split; [|done]. intros _. right; right.
    intros (j & Hj & Hocc). by eapply indexOf_not_found.
  - destruct (indexOf_found _ _ _ _ Hne eq_refl Hf) as (Hle & Hocc & Hmin & Hsub).
    split.
    + intros span [= <-]. simpl. done.
    + split; [done|]. intros [?|[?|Hno]]; [done|done|].
      exfalso. apply Hno. eauto.
Qed.

(** The design document's scenario, evaluated on the code. *)
Example computeEvidenceOffsets_total :
  Grounding.computeEvidenceOffsets "Total: $1,234.56" "$1,234.56" 0
  = Some (Grounding.mkSpan "$1,234.56" 7 16).
Proof. reflexivity. Qed.

Lemma computeEvidenceOffsets_leftmost_witness :
  Grounding.computeEvidenceOffsets "Item: Widget, Item: Gadget" "Item:" 3
    = Some (Grounding.mkSpan "Item:" 14 19) /\
  JS.substring "Item: Widget, Item: Gadget" 14 19 = "Item:".
Proof.
  split; [reflexivity|].
  destruct (computeEvidenceOffsets_leftmost "Item: Widget, Item: Gadget" "Item:" 3)
    as [Hsome _].
  destruct (Hsome (Grounding.mkSpan "Item:" 14 19) eq_refl) as (_ & _ & _ & _ & _ & Hsub).
  exact Hsub.
Defined.

(** ** Properties of the deduplication *)

Section dedup_facts.
Import JS Pipeline.
Variable JSON_stringify : Value -> string.

Local Abbreviation keyOf := (Pipeline.keyOf JSON_stringify).
Local Abbreviation dedupLoop := (Pipeline.dedupLoop JSON_stringify).
Local Abbreviation deduplicateItems := (Pipeline.deduplicateItems JSON_stringify).

Lemma select_nil_r {A} (mask : list bool) : select mask (@nil A) = [].
Proof. by destruct mask. Qed.

Lemma select_all {A} (l : list A) : select (replicate (length l) true) l = l.
Proof. induction l as [|x l IH]; simpl; [done|]. by rewrite IH. Qed.

Lemma select_sublist {A} (mask : list bool) (l : list A) :
  select mask l `sublist_of` l.
Proof.
  revert mask. induction l as [|x l IH]; intros [|[] mask]; simpl;
    try apply sublist_nil_l.
  - by apply sublist_skip.
  - by apply sublist_cons.
Qed.

Lemma Forall_select {A} (P : A -> Prop) (mask : list bool) (l : list A) :
  Forall P l -> Forall P (select mask l).
Proof.
  intros Hall. revert mask. induction Hall as [|x l Hx _ IH]; intros [|[] mask];
    simpl; auto.
Qed.

Lemma length_keptMask seen keys : length (keptMask seen keys) = length keys.
Proof.
  revert seen. induction keys as [|k keys IH]; intros seen; simpl; [done|].
  case_decide; simpl; by rewrite IH.
Qed.

(** Bit [i] of the mask is clear exactly when key [i] was seen before:
    in the initial set or at an earlier index. *)
Lemma keptMask_dropped seen keys i k :
  keys !! i = Some k ->
  keptMask seen keys !! i = Some false <->
  k ∈ seen \/ exists j, (j < i)%nat /\ keys !! j = Some k.
Proof.
  revert seen i. induction keys as [|k0 keys IH]; intros seen i Hk; [done|].
  destruct i as [|i]; simpl in *.
  - injection Hk as ->. case_decide; simpl.
    + split; [auto|done].
    + split; [done|]. intros [?|(j & ? & _)]; [done|lia].
  - case_decide; simpl; rewrite (IH _ _ Hk).
    + split.
      * intros [?|(j & ? & ?)]; [by left|]. right. exists (S j). split; [lia|done].
      * intros [?|(j & Hj & Hkj)]; [by left|].
        destruct j as [|j]; simpl in *.
        -- injection Hkj as ->. by left.
        -- right. exists j. split; [lia|done].
    + split.
      * intros [Hin|(j & ? & ?)].
        -- apply elem_of_union in Hin as [->%elem_of_singleton|?]; [|by left].
           right. exists 0%nat. split; [lia|done].
        -- right. exists (S j). split; [lia|done].
      * intros [?|(j & Hj & Hkj)]; [left; apply elem_of_union; by right|].
        destruct j as [|j]; simpl in *.
        -- injection Hkj as ->. left. apply elem_of_union. left.
           by apply elem_of_singleton.
        -- right. exists j. split; [lia|done].
Qed.

(** The keys that survive are new: masking the survivors again keeps all. *)
Lemma keptMask_select seen keys :
  keptMask seen (select (keptMask seen keys) keys)
  = replicate (length (select (keptMask seen keys) keys)) true.
Proof.
  revert seen. induction keys as [|k keys IH]; intros seen; simpl; [done|].
  case_decide as Hin; simpl; [apply IH|].
  rewrite decide_False by done. by rewrite IH.
Qed.

(** The loop, in closed form. *)
Lemma dedupLoop_closed items seen acc :
  dedupLoop items seen acc
  = keys ← mapM keyOf items; Some (acc ++ select (keptMask seen keys) items)%list.
Proof.
  revert seen acc. induction items as [|item items IH]; intros seen acc; simpl.
  - by rewrite app_nil_r.
  - destruct (keyOf item) as [k|]; simpl; [|done].
    case_decide as Hin; rewrite IH; destruct (mapM keyOf items) as [keys|]; simpl;
      try done.
    + by rewrite decide_True.
    + rewrite decide_False by done. by rewrite <- app_assoc.
Qed.

Lemma deduplicateItems_closed items :
  deduplicateItems items
  = keys ← mapM keyOf items; Some (select (keptMask ∅ keys) items).
Proof. unfold Pipeline.deduplicateItems. by rewrite dedupLoop_closed. Qed.

Lemma mapM_select (mask : list bool) items keys :
  mapM keyOf items = Some keys ->
  mapM keyOf (select mask items) = Some (select mask keys).
Proof.
  revert mask keys. induction items as [|item items IH]; intros mask keys; simpl.
  - intros [= <-]. by rewrite !select_nil_r.
  - destruct (keyOf item) as [k|] eqn:Hk; simpl; [|done].
    destruct (mapM keyOf items) as [keys'|]; simpl; [|done].
    intros [= <-]. destruct mask as [|[] mask]; simpl; [done| |by apply IH].
    rewrite Hk. simpl. by rewrite (IH mask keys').
Qed.

Lemma length_select_same {A B} (mask : list bool) (l : list A) (k : list B) :
  length l = length k -> length (select mask l) = length (select mask k).
Proof.
  revert l k. induction mask as [|b mask IH]; intros [|x l] [|y k] Hlen;
    simpl in *; try done.
  destruct b; simpl; auto.
Qed.

(** The loop fails exactly when the key of some item cannot be computed. *)
Lemma deduplicateItems_None items :
  deduplicateItems items = None <-> exists item, item ∈ items /\ keyOf item = None.
Proof.
  rewrite deduplicateItems_closed.
  destruct (mapM keyOf items) as [keys|] eqn:Hm; simpl.
  - split; [done|]. intros (item & Hin & Hnone).
    apply mapM_Some_1 in Hm. apply Forall2_Forall_l with (Q := λ x, is_Some (keyOf x)) in Hm.
    + rewrite Forall_forall in Hm. destruct (Hm _ Hin) as [? ?]. congruence.
    + apply Forall_true. intros y x Hx. eauto.
  - split; [|done]. intros _. apply mapM_None_1 in Hm.
    apply Exists_exists in Hm as (item & Hin & Hnone).
    exists item. split; [done|]. by destruct (keyOf item); [destruct Hnone; eauto|].
Qed.

Lemma deduplicateItems_firstOccurrence items :
  firstOccurrenceBy keyOf deduplicateItems items.
Proof.
  intros keys Hm. exists (keptMask ∅ keys).
  split; [rewrite length_keptMask; symmetry; by eapply length_mapM|].
  split; [by rewrite deduplicateItems_closed, Hm|].
  intros i k Hk. rewrite (keptMask_dropped _ _ _ _ Hk).
  split; [intros [?|?]; [set_solver|done]|by right].
Qed.

(** The key carries the prefix of the branch that computed it. *)
Lemma keyOf_tierOf item key :
  keyOf item = Some key ->
  exists tier rest, tierOf item = Some tier /\ key = tierPrefix tier +:+ rest.
Proof.
  unfold Pipeline.keyOf, tierOf.
  destruct (member item "evidence") as [evidence|]; simpl; [|done].
  destruct (truthy _).
  - destruct (member evidence "descriptionSpan") as [ds|]; simpl; [|done].
    destruct (member ds "text") as [text|]; simpl; [|done].
    destruct (callTrim text) as [trimmed|]; simpl; [|done].
    intros [= <-]. by exists EvidenceTier, trimmed.
  - destruct (member item "description") as [[]|]; simpl; try done;
      intros [= <-]; solve [ by eexists JsonTier, _ | by eexists DescriptionTier, _ ].
Qed.

Lemma tierPrefix_inj t1 t2 r1 r2 :
  tierPrefix t1 +:+ r1 = tierPrefix t2 +:+ r2 -> t1 = t2.
Proof. by destruct t1, t2. Qed.

Lemma keyOf_same_tier a b key :
  keyOf a = Some key -> keyOf b = Some key -> tierOf a = tierOf b.
Proof.
  intros (ta & ra & -> & ->)%keyOf_tierOf (tb & rb & -> & Heq)%keyOf_tierOf.
  f_equal. by eapply tierPrefix_inj.
Qed.

End dedup_facts.

(** C2. Deduplicating twice gives what deduplicating once gives; when a
    key cannot be computed both sides raise the same [TypeError]. *)
Theorem deduplicateItems_idempotent (JSON_stringify : JS.Value -> string)
    (x : list JS.Value) :
  Pipeline.deduplicateItems JSON_stringify x
    ≫= Pipeline.deduplicateItems JSON_stringify
  = Pipeline.deduplicateItems JSON_stringify x.
Proof.
  rewrite (deduplicateItems_closed _ x).
  destruct (mapM (Pipeline.keyOf JSON_stringify) x) as [keys|] eqn:Hm; simpl; [|done].
  rewrite deduplicateItems_closed.
  rewrite (mapM_select _ (keptMask ∅ keys) _ _ Hm). simpl.
  rewrite keptMask_select. f_equal.
  rewrite <- (length_select_same _ x keys) by (by eapply length_mapM).
  apply select_all.
Qed.

(** C3, as amended. [deduplicateItems] makes one pass that keeps the first
    occurrence per key and the order of the kept items: an item is dropped
    exactly when an earlier item has the same key. The key is
    ["evidence:"] followed by the trimmed evidence text when
    [evidence?.descriptionSpan?.text] is a non-empty string, else
    ["desc:"] followed by the description lower-cased and trimmed when
    [description] is a string, else ["json:"] followed by the
    serialization of the item. *)
Theorem deduplicateItems_first_wins (JSON_stringify : JS.Value -> string)
    (items : list JS.Value) :
  firstOccurrenceBy (Pipeline.keyOf JSON_stringify)
    (Pipeline.deduplicateItems JSON_stringify) items /\
  (forall out, Pipeline.deduplicateItems JSON_stringify items = Some out ->
     out `sublist_of` items) /\
  (Pipeline.deduplicateItems JSON_stringify items = None <->
     exists item, item ∈ items /\ Pipeline.keyOf JSON_stringify item = None) /\
  (forall item evidence, JS.member item "evidence" = Some evidence ->
     let text := JS.optMember (JS.optMember evidence "descriptionSpan") "text" in
     (forall t, text = JS.Str t -> t <> "" ->
        Pipeline.keyOf JSON_stringify item = Some ("evidence:" +:+ JS.trim t)) /\
     (forall d, JS.truthy text = false -> JS.getProp item "description" = JS.Str d ->
        Pipeline.keyOf JSON_stringify item
          = Some ("desc:" +:+ JS.trim (JS.toLowerCase d))) /\
     (JS.truthy text = false -> (forall d, JS.getProp item "description" <> JS.Str d) ->
        Pipeline.keyOf JSON_stringify item
          = Some ("json:" +:+ JSON_stringify item))).
Proof.
  split; [apply deduplicateItems_firstOccurrence|].
  split.
  { intros out. rewrite deduplicateItems_closed.
    destruct (mapM _ items); simpl; [|done]. intros [= <-]. apply select_sublist. }
  split; [apply deduplicateItems_None|].
  intros item evidence Hev text. unfold Pipeline.keyOf. rewrite Hev. simpl.
  fold text. unfold JS.member in Hev.
  destruct (JS.nullish item) eqn:Hnull; [done|]. injection Hev as <-.
  split; [|split].
  - intros t Ht Hne. rewrite Ht. simpl.
    destruct (String.eqb_spec t "") as [|_]; [done|]. simpl.
    subst text. unfold JS.optMember in Ht.
    unfold JS.member.
    destruct (JS.nullish (JS.getProp item "evidence")) eqn:Hn1; [done|].
    destruct (JS.nullish (JS.getProp (JS.getProp item "evidence") "descriptionSpan"))
      eqn:Hn2; [done|].
    simpl. rewrite Hn2. simpl. by rewrite Ht.
  - intros d -> Hd. unfold JS.member. rewrite Hnull. simpl. by rewrite Hd.
  - intros -> Hd. unfold JS.member. rewrite Hnull. simpl.
    destruct (JS.getProp item "description"); try done. by destruct (Hd s).
Qed.

Lemma deduplicateItems_first_wins_witness :
  Pipeline.deduplicateItems Examples.stringify [Examples.itemA; Examples.itemA_lower]
    = Some [Examples.itemA] /\
  Pipeline.keyOf Examples.stringify Examples.itemA_lower = Some "desc:item a".
Proof.
  split; [by vm_compute|].
  pose proof (deduplicateItems_first_wins Examples.stringify []) as (_ & _ & _ & Hkey).
  destruct (Hkey Examples.itemA_lower JS.Undefined eq_refl) as (_ & Hdesc & _).
  exact (Hdesc "item a" eq_refl eq_refl).
Defined.

(** C3, as the design document words it, fails: with the keys taken
    without their prefixes, an item with the description ["Consulting"]
    has the key of an earlier item whose evidence text is ["consulting"],
    and [deduplicateItems] keeps both. *)
Lemma deduplicateItems_documentedKey_counterexample :
  ~ firstOccurrenceBy (Pipeline.documentedKey Examples.stringify)
      (Pipeline.deduplicateItems Examples.stringify)
      [Examples.consultingEvidence; Examples.consultingDescription].
Proof.
  intros H.
  destruct (H ["consulting"; "consulting"] eq_refl) as (kept & Hlen & Hout & Hdrop).
  assert (kept !! 1%nat = Some false) as Hclear.
  { apply (Hdrop 1%nat "consulting" eq_refl). exists 0%nat. split; [lia|done]. }
  vm_compute in Hout.
  destruct kept as [|b0 [|b1 [|]]]; try done.
  simpl in Hclear. injection Hclear as ->.
  destruct b0; simpl in Hout; discriminate.
Qed.

(** C10. Every key starts with the prefix of the branch that computed it,
    so two items with equal keys took the same branch; an item is dropped
    only for an earlier item of its own branch; and two items of which one
    is keyed by its evidence text and the other by its description are
    both kept, whatever the two texts are. *)
Theorem keyOf_tier_distinct (JSON_stringify : JS.Value -> string) :
  (forall item key, Pipeline.keyOf JSON_stringify item = Some key ->
     exists tier rest,
       Pipeline.tierOf item = Some tier /\ key = Pipeline.tierPrefix tier +:+ rest) /\
  (forall a b key,
     Pipeline.keyOf JSON_stringify a = Some key ->
     Pipeline.keyOf JSON_stringify b = Some key ->
     Pipeline.tierOf a = Pipeline.tierOf b) /\
  (forall items keys, mapM (Pipeline.keyOf JSON_stringify) items = Some keys ->
     exists kept : list bool,
       Pipeline.deduplicateItems JSON_stringify items = Some (select kept items) /\
       forall i item, items !! i = Some item -> kept !! i = Some false ->
         exists j earlier, (j < i)%nat /\ items !! j = Some earlier /\
           Pipeline.keyOf JSON_stringify earlier = Pipeline.keyOf JSON_stringify item /\
           Pipeline.tierOf earlier = Pipeline.tierOf item) /\
  (forall a b,
     Pipeline.tierOf a = Some Pipeline.EvidenceTier ->
     Pipeline.tierOf b = Some Pipeline.DescriptionTier ->
     is_Some (Pipeline.keyOf JSON_stringify a) ->
     Pipeline.deduplicateItems JSON_stringify [a; b] = Some [a; b] /\
     Pipeline.deduplicateItems JSON_stringify [b; a] = Some [b; a]).
Proof.
  split; [apply keyOf_tierOf|]. split; [apply keyOf_same_tier|]. split.
  - intros items keys Hm.
    destruct (deduplicateItems_firstOccurrence JSON_stringify items keys Hm)
      as (kept & Hlen & Hout & Hdrop).
    exists kept. split; [done|]. intros i item Hi Hclear.
    apply mapM_Some_1 in Hm.
    pose proof (Forall2_lookup_l _ _ _ _ _ Hm Hi) as (key & Hk & Hkey).
    destruct (proj1 (Hdrop _ _ Hk) Hclear) as (j & Hj & Hkj).
    pose proof (Forall2_lookup_r _ _ _ _ _ Hm Hkj) as (earlier & He & Hkey').
    exists j, earlier. split; [done|]. split; [done|].
    split; [congruence|]. by eapply keyOf_same_tier.
  - intros a b Ha Hb [ka Hka].
    assert (exists kb, Pipeline.keyOf JSON_stringify b = Some kb) as [kb Hkb].
    { clear -Hb. unfold Pipeline.tierOf in Hb. unfold Pipeline.keyOf.
      destruct (JS.member b "evidence"); simpl in *; [|done].
      destruct (JS.truthy _); [done|].
      destruct (JS.member b "description") as [[]|]; simpl in *; try done. eauto. }
    assert (ka <> kb) as Hne.
    { intros <-. pose proof (keyOf_same_tier _ _ _ _ Hka Hkb). congruence. }
    unfold Pipeline.deduplicateItems; simpl. rewrite Hka, Hkb. simpl.
    rewrite !(decide_False (P := _ ∈ ∅)) by apply not_elem_of_empty. simpl.
    rewrite !decide_False; [done| |];
      rewrite elem_of_union, elem_of_singleton, elem_of_empty;
      intros [?|[]]; congruence.
Qed.

Lemma keyOf_tier_distinct_witness :
  Pipeline.deduplicateItems Examples.stringify
    [Examples.consultingEvidence; Examples.consultingDescription]
  = Some [Examples.consultingEvidence; Examples.consultingDescription].
Proof.
  pose proof (keyOf_tier_distinct Examples.stringify) as (_ & _ & _ & Hpair).
  refine (proj1 (Hpair Examples.consultingEvidence Examples.consultingDescription
                   eq_refl eq_refl _)).
  exists "evidence:consulting". reflexivity.
Defined.

(** The unit tests of the deduplication, evaluated on the code. *)
Example deduplicateItems_identical_evidence :
  Pipeline.deduplicateItems Examples.stringify
    [Examples.webDevelopment; Examples.webDevelopment]
  = Some [Examples.webDevelopment].
Proof. by vm_compute. Qed.

Example deduplicateItems_json_fallback :
  Pipeline.deduplicateItems Examples.stringify
    [Examples.unknown50; Examples.unknown50; Examples.unknown75]
  = Some [Examples.unknown50; Examples.unknown75].
Proof. by vm_compute. Qed.

Example keyOf_json_fallback :
  Pipeline.keyOf Examples.stringify Examples.unknown50
  = Some ("json:{" +:+ Examples.quoted "name" +:+ ":" +:+ Examples.quoted "Unknown"
            +:+ "," +:+ Examples.quoted "price" +:+ ":50}").
Proof. by vm_compute. Qed.

(** ** Properties of the number arithmetic *)

Section float64_facts.
Import Float64.

Lemma ilog2_lower n d :
  0 < n -> 0 < d -> 0 <= ilog2 n d -> d * 2 ^ ilog2 n d <= n.
Proof.
  intros Hn Hd. unfold ilog2.
  destruct (Z.log2_spec n Hn) as [Hn1 Hn2].
  destruct (Z.log2_spec d Hd) as [Hd1 Hd2].
  pose proof (Z.log2_nonneg n). pose proof (Z.log2_nonneg d).
  set (e := Z.log2 n - Z.log2 d) in *.
  destruct (Z.leb_spec 0 e) as [He|He].
  - destruct (Z.leb_spec (d * 2 ^ e) n) as [Ht|Ht]; [done|].
    intros He1.
    assert (2 ^ Z.log2 n = 2 ^ Z.succ (Z.log2 d) * 2 ^ (e - 1)) as Hpow.
    { rewrite <- Z.pow_add_r by lia. f_equal. lia. }
    assert (0 < 2 ^ (e - 1)) by (apply Z.pow_pos_nonneg; lia).
    nia.
  - destruct (d <=? n * 2 ^ (- e)); lia.
Qed.

Lemma ilog2_upper n d :
  0 < n -> 0 < d -> ilog2 n d <= 52 -> n < d * 2 ^ 53.
Proof.
  intros Hn Hd. unfold ilog2.
  destruct (Z.log2_spec n Hn) as [Hn1 Hn2].
  destruct (Z.log2_spec d Hd) as [Hd1 Hd2].
  pose proof (Z.log2_nonneg n). pose proof (Z.log2_nonneg d).
  set (e := Z.log2 n - Z.log2 d) in *.
  destruct (Z.le_gt_cases e 52) as [He|He].
  - intros _.
    assert (2 ^ Z.succ (Z.log2 n) <= 2 ^ (Z.log2 d + 53)) as Hpow
      by (apply Z.pow_le_mono_r; lia).
    rewrite Z.pow_add_r in Hpow by lia.
    assert (0 < 2 ^ 53) by (by apply Z.pow_pos_nonneg).
    nia.
  - destruct (Z.leb_spec 0 e); [|lia].
    destruct (Z.leb_spec (d * 2 ^ e) n) as [Ht|Ht]; [lia|].
    intros He1. by assert (e = 53) as <- by lia.
Qed.

(** Rounding to the nearest integer stays below an integer bound. *)
Lemma roundEven_bounds a b N :
  0 <= a -> 0 < b -> a <= N * b -> 0 <= roundEven a b <= N.
Proof.
  intros Ha Hb HN. unfold roundEven.
  pose proof (Z.div_mod a b ltac:(lia)) as Hdm.
  pose proof (Z.mod_pos_bound a b Hb) as Hmod.
  assert (0 <= a / b) by (apply Z.div_pos; lia).
  assert (a / b <= N) by (apply Z.div_le_upper_bound; lia).
  destruct (Z.ltb_spec (2 * (a mod b)) b); [lia|].
  assert (a / b < N) by nia.
  destruct (Z.ltb_spec b (2 * (a mod b))); [lia|].
  destruct (Z.even (a / b)); lia.
Qed.

Lemma Q2Qc_le (a b : Q) : (Q2Qc a <= Q2Qc b)%Qc <-> (a <= b)%Q.
Proof. unfold Qcle. simpl. by rewrite !Qred_correct. Qed.

Lemma Q2Qc_nonneg (a : Q) : (0 <= Q2Qc a)%Qc <-> (0 <= a)%Q.
Proof. unfold Qcle. simpl. by rewrite !Qred_correct. Qed.

Lemma Qc_le_integer (q : Qc) (K : Z) :
  (q <= Q2Qc (inject_Z K))%Qc <-> Qnum (this q) <= K * Zpos (Qden (this q)).
Proof.
  unfold Qcle. simpl. rewrite Qred_correct. unfold Qle. simpl.
  by rewrite Z.mul_1_r.
Qed.

Lemma Qc_nonneg_num (q : Qc) : (0 <= q)%Qc <-> 0 <= Qnum (this q).
Proof. unfold Qcle, Qle. simpl. split; lia. Qed.

Lemma Qc_zero_num (q : Qc) : q = 0%Qc <-> Qnum (this q) = 0.
Proof.
  split; [by intros ->|]. intros Hn. apply Qc_is_canon.
  unfold Qeq. simpl. lia.
Qed.

Lemma scaled_bounds m c K :
  c <= 0 -> 0 <= m <= K * 2 ^ (- c) ->
  (0 <= scaled m c <= Q2Qc (inject_Z K))%Qc.
Proof.
  intros Hc Hm. unfold scaled.
  assert (0 < 2 ^ (- c)) by (apply Z.pow_pos_nonneg; lia).
  destruct (Z.leb_spec 0 c).
  - assert (c = 0) as -> by lia. simpl in Hm. rewrite Z.mul_1_r in Hm.
    rewrite Q2Qc_nonneg, Q2Qc_le. unfold Qle. simpl. lia.
  - rewrite Q2Qc_nonneg, Q2Qc_le. unfold Qle. simpl.
    rewrite Z2Pos.id by lia. lia.
Qed.

(** Rounding does not leave an interval between zero and an integer,
    for a number below [2 ^ 53]: the doubles are spaced by at most 1
    there, so that the integer is a double or lies above the number
    rounded. *)
Lemma round64_bounds_below (q : Qc) (K : Z) :
  (q <> 0%Qc -> ilog2 (Qnum (this q)) (Zpos (Qden (this q))) <= 52) ->
  (0 <= q <= Q2Qc (inject_Z K))%Qc ->
  exists y, round64 q = Finite y /\ (0 <= y <= Q2Qc (inject_Z K))%Qc.
Proof.
  intros Hlog [Hq0 HqK]. unfold round64.
  destruct (decide (q = 0%Qc)) as [->|Hne]; [by exists 0%Qc|].
  specialize (Hlog Hne).
  apply Qc_nonneg_num in Hq0. apply Qc_le_integer in HqK.
  assert (Qnum (this q) <> 0) as Hn0 by (by intros ?%Qc_zero_num).
  set (n := Qnum (this q)) in *. set (d := Zpos (Qden (this q))) in *.
  assert (0 < n) as Hn by lia. assert (0 < d) as Hd by done.
  rewrite Z.abs_eq by lia. unfold roundMagnitude.
  set (c := Z.max (ilog2 n d) (-1022) - 52).
  assert (c <= 0) as Hc by (unfold c; lia).
  assert (0 < 2 ^ (- c)) by (apply Z.pow_pos_nonneg; lia).
  set (m := if 0 <=? c then roundEven n (d * 2 ^ c) else roundEven (n * 2 ^ (- c)) d).
  assert (0 <= m <= K * 2 ^ (- c)) as Hm.
  { unfold m. destruct (Z.leb_spec 0 c).
    - assert (c = 0) as -> by lia. simpl. rewrite Z.mul_1_r.
      apply roundEven_bounds; lia.
    - apply roundEven_bounds; [lia|lia|nia]. }
  destruct (Z.eqb_spec m 0) as [Hm0|Hm0].
  { destruct (Z.ltb_spec 0 n); [|lia]. exists 0%Qc. split; [done|].
    split; [done|]. apply Qc_le_integer. simpl. lia. }
  assert ((0 <=? c) && (2 ^ 1024 <=? m * 2 ^ c) = false) as ->.
  { destruct (Z.leb_spec 0 c); [|done]. assert (c = 0) as -> by lia.
    simpl (2 ^ 0) in *. apply Z.leb_gt.
    assert (n < d * 2 ^ 53) as Hup by (by apply ilog2_upper).
    assert (m <= 2 ^ 53).
    { unfold m. simpl. rewrite Z.mul_1_r.
      apply roundEven_bounds; lia. }
    assert (2 ^ 53 < 2 ^ 1024) by (apply Z.pow_lt_mono_r; lia). lia. }
  destruct (Z.ltb_spec 0 n); [|lia].
  exists (scaled m c). split; [done|]. by apply scaled_bounds.
Qed.

Lemma round64_bounds (q : Qc) (K : Z) :
  K < 2 ^ 53 -> (0 <= q <= Q2Qc (inject_Z K))%Qc ->
  exists y, round64 q = Finite y /\ (0 <= y <= Q2Qc (inject_Z K))%Qc.
Proof.
  intros HK Hq. apply round64_bounds_below; [|done]. intros Hne.
  destruct Hq as [Hq0 HqK].
  apply Qc_nonneg_num in Hq0. apply Qc_le_integer in HqK.
  assert (Qnum (this q) <> 0) as Hn0 by (by intros ?%Qc_zero_num).
  set (n := Qnum (this q)) in *. set (d := Zpos (Qden (this q))) in *.
  assert (0 < n) as Hn by lia. assert (0 < d) as Hd by done.
  destruct (Z.le_gt_cases (ilog2 n d) 52) as [|He]; [done|].
  pose proof (ilog2_lower n d Hn Hd ltac:(lia)) as Hlow.
  assert (2 ^ 53 <= 2 ^ ilog2 n d) by (apply Z.pow_le_mono_r; lia).
  nia.
Qed.

(** From [2 ^ 53] on the doubles are the even integers: a sum of at most
    [2 ^ 53 + 1] is rounded to at most [2 ^ 53], the tie going to the
    even significand. *)
Lemma round64_saturates (q : Qc) :
  (0 <= q <= Q2Qc (inject_Z (2 ^ 53 + 1)))%Qc ->
  exists y, round64 q = Finite y /\ (0 <= y <= Q2Qc (inject_Z (2 ^ 53)))%Qc.
Proof.
  intros [Hq0 HqK].
  destruct (decide (q = 0%Qc)) as [->|Hne].
  { exists 0%Qc. split; [done|]. split; [done|]. by apply Qc_le_integer. }
  pose proof Hq0 as Hn0. apply Qc_nonneg_num in Hn0.
  pose proof HqK as HnK. apply Qc_le_integer in HnK.
  assert (Qnum (this q) <> 0) as Hnz by (by intros ?%Qc_zero_num).
  destruct (Z.le_gt_cases (ilog2 (Qnum (this q)) (Zpos (Qden (this q)))) 52)
    as [Hlog|Hlog].
  { apply round64_bounds_below; [done|]. split; [done|].
    apply Qc_le_integer.
    pose proof (ilog2_upper (Qnum (this q)) (Zpos (Qden (this q)))
                  ltac:(lia) ltac:(done) Hlog).
    lia. }
  unfold round64. rewrite decide_False by done.
  set (n := Qnum (this q)) in *. set (d := Zpos (Qden (this q))) in *.
  assert (0 < n) as Hn by lia. assert (0 < d) as Hd by done.
  pose proof (ilog2_lower n d Hn Hd ltac:(lia)) as Hlow.
  assert (ilog2 n d = 53) as Hlog53.
  { destruct (Z.le_gt_cases (ilog2 n d) 53); [lia|].
    assert (2 ^ 54 <= 2 ^ ilog2 n d) by (apply Z.pow_le_mono_r; lia).
    assert (2 ^ 54 = 2 * 2 ^ 53) as Hpow by done.
    assert (0 < 2 ^ 53) by done.
    nia. }
  rewrite Hlog53 in Hlow.
  rewrite Z.abs_eq by lia. unfold roundMagnitude. rewrite Hlog53.
  change (Z.max 53 (-1022) - 52) with 1. change (0 <=? 1) with true.
  cbn [andb]. change (2 ^ 1) with 2.
  assert (0 <= n - d * 2 * 2 ^ 52 <= d) as Hrest.
  { assert (2 * 2 ^ 52 = 2 ^ 53) as Hpow by done. nia. }
  assert (n / (d * 2) = 2 ^ 52) as Hdiv.
  { symmetry. apply (Z.div_unique n (d * 2) (2 ^ 52) (n - d * 2 * 2 ^ 52)); lia. }
  assert (n mod (d * 2) = n - d * 2 * 2 ^ 52) as Hmod.
  { symmetry. apply (Z.mod_unique n (d * 2) (2 ^ 52) (n - d * 2 * 2 ^ 52)); lia. }
  assert (roundEven n (d * 2) = 2 ^ 52) as ->.
  { unfold roundEven. rewrite Hdiv, Hmod.
    destruct (Z.ltb_spec (2 * (n - d * 2 * 2 ^ 52)) (d * 2)); [done|].
    destruct (Z.ltb_spec (d * 2) (2 * (n - d * 2 * 2 ^ 52))); [lia|done]. }
  change (2 ^ 52 =? 0) with false.
  change (2 ^ 1024 <=? 2 ^ 52 * 2) with false.
  destruct (Z.ltb_spec 0 n); [|lia].
  exists (scaled (2 ^ 52) 1). split; [done|]. by vm_compute.
Qed.

Lemma add_zero_r (a : Qc) : add (Finite a) (Finite 0) = Finite a.
Proof.
  unfold add. destruct (decide (a = 0%Qc)) as [->|]; [done|].
  by rewrite decide_True.
Qed.



Lemma partialSum_all qs : partialSum qs (length qs) = foldr Qcplus 0%Qc qs.
Proof. unfold partialSum. by rewrite firstn_all. Qed.



Lemma Qc_of_nat_Z n : Qc_of_nat n = Qc_of_Z (Z.of_nat n).
Proof. apply Qc_is_canon. simpl. apply Qred_correct. Qed.

Lemma Qc_of_nat_S n : Qc_of_nat (S n) = (Qc_of_nat n + 1)%Qc.
Proof.
  rewrite !Qc_of_nat_Z, Nat2Z.inj_succ, <- Z.add_1_r, Z2Qc_inj_add.
  by rewrite Z2Qc_inj_1.
Qed.

Lemma Qc_of_nat_nonneg n : (0 <= Qc_of_nat n)%Qc.
Proof.
  rewrite Qc_of_nat_Z, <- Z2Qc_inj_0.
  apply (proj1 (Z2Qc_inj_le 0 (Z.of_nat n))). lia.
Qed.

Lemma Q2Qc_inject_Z (K : Z) : Q2Qc (inject_Z K) = Qc_of_Z K.
Proof. apply Qc_is_canon. simpl. apply Qred_correct. Qed.

(** The left-to-right sum of doubles between 0 and 1 is a finite double
    between 0 and their count: every partial sum is rounded within the
    interval up to the count so far, and to [2 ^ 53] at most. *)
Lemma foldl_add_bounds (qs : list Qc) (s : Qc) (k : nat) :
  Forall (λ q, (0 <= q)%Qc /\ (q <= 1)%Qc) qs ->
  (0 <= s <= Qc_of_Z (Z.min (Z.of_nat k) (2 ^ 53)))%Qc ->
  exists total,
    foldl (λ sum q, add sum (Finite q)) (Finite s) qs = Finite total /\
    (0 <= total <= Qc_of_Z (Z.min (Z.of_nat (k + length qs)) (2 ^ 53)))%Qc.
Proof.
  intros Hall. revert s k. induction Hall as [|q qs [Hq0 Hq1] _ IH];
    intros s k [Hs0 Hsk]; cbn [foldl length] in *.
  - exists s. by rewrite Nat.add_0_r.
  - assert (0 < 2 ^ 53) as Hpos by done.
    assert (exists y, add (Finite s) (Finite q) = Finite y /\
                      (0 <= y <= Qc_of_Z (Z.min (Z.of_nat (S k)) (2 ^ 53)))%Qc)
      as (y & -> & Hy).
    { unfold add. destruct (decide (s = 0%Qc)) as [->|].
      - exists q. split; [done|]. split; [done|].
        etrans; [exact Hq1|]. rewrite <- Z2Qc_inj_1.
        apply (proj1 (Z2Qc_inj_le 1 _)). lia.
      - destruct (decide (q = 0%Qc)) as [->|].
        + exists s. split; [done|]. split; [done|].
          etrans; [exact Hsk|]. apply (proj1 (Z2Qc_inj_le _ _)). lia.
        + assert (0 <= s + q)%Qc as Hsum0 by (by apply Qcplus_nonneg_nonneg).
          assert (s + q <= Qc_of_Z (Z.min (Z.of_nat k) (2 ^ 53) + 1))%Qc as Hsum1.
          { rewrite Z2Qc_inj_add, Z2Qc_inj_1. by apply Qcplus_le_compat. }
          destruct (Z.lt_ge_cases (Z.of_nat (S k)) (2 ^ 53)) as [Hk|Hk].
          * rewrite Z.min_l in Hsum1 |- * by lia.
            replace (Z.of_nat k + 1) with (Z.of_nat (S k)) in Hsum1 by lia.
            rewrite <- Q2Qc_inject_Z in Hsum1 |- *.
            by apply round64_bounds.
          * rewrite (Z.min_r (Z.of_nat (S k))) by lia.
            rewrite <- Q2Qc_inject_Z. apply round64_saturates.
            split; [done|]. etrans; [exact Hsum1|].
            rewrite Q2Qc_inject_Z. apply (proj1 (Z2Qc_inj_le _ _)). lia. }
    destruct (IH y (S k)) as (total & -> & Htotal); [done|].
    exists total. split; [done|]. by rewrite Nat.add_succ_r.
Qed.

End float64_facts.

(** ** Properties of the average confidence *)

Section average_facts.
Import JS Pipeline.

Lemma getProp_Num_not_nullish item name q :
  getProp item name = Num q -> nullish item = false.
Proof. by destruct item. Qed.

Lemma addConfidence_number x item y :
  getProp item "confidence" = Num y ->
  addConfidence (TotalNum x) item
  = Some (TotalNum (Float64.add x (Float64.Finite y))).
Proof.
  intros Hc. unfold addConfidence, member.
  rewrite (getProp_Num_not_nullish _ _ _ Hc). simpl. rewrite Hc. simpl.
  case_bool_decide as Hy; simpl; [|done]. by rewrite Hy.
Qed.


Lemma reduceConfidence_numbers items qs x :
  map (λ item, getProp item "confidence") items = map Num qs ->
  reduceConfidence items (TotalNum x)
  = Some (TotalNum (foldl (λ sum q, Float64.add sum (Float64.Finite q)) x qs)).
Proof.
  revert qs x. induction items as [|item items IH]; intros [|q qs] x Hmap;
    simpl in *; try done.
  injection Hmap as Hq Hmap. rewrite (addConfidence_number _ _ _ Hq). simpl.
  by rewrite (IH _ _ Hmap).
Qed.


Lemma reduceConfidence_total items sum :
  Forall (λ item, nullish item = false) items ->
  is_Some (reduceConfidence items sum).
Proof.
  intros Hall. revert sum. induction Hall as [|item items Hn _ IH]; intros sum; simpl.
  - by eexists.
  - unfold addConfidence, member. rewrite Hn. simpl. apply IH.
Qed.

Lemma calculateAverageConfidence_total items :
  Forall (λ item, nullish item = false) items ->
  is_Some (calculateAverageConfidence items).
Proof.
  intros Hall. destruct items as [|item0 rest]; [by eexists|].
  pose proof (Forall_inv Hall) as Hn0. unfold calculateAverageConfidence.
  unfold member at 1. rewrite Hn0. simpl.
  destruct (getProp item0 "confidence"); try by eexists.
  destruct (reduceConfidence_total (item0 :: rest)
              (TotalNum (Float64.Finite 0)) Hall) as [total Htotal].
  simpl in Htotal. rewrite Htotal. by eexists.
Qed.

(** On items that all carry a number, the result is the mean that the
    doubles compute. *)
Lemma calculateAverageConfidence_numbers items qs :
  qs <> [] ->
  map (λ item, getProp item "confidence") items = map Num qs ->
  calculateAverageConfidence items = Some (Mean (meanFloat64 qs)).
Proof.
  intros Hne Hmap. destruct items as [|item0 rest]; [by destruct qs|].
  destruct qs as [|q qs]; [done|]. pose proof Hmap as Hmap'.
  simpl in Hmap'. injection Hmap' as Hq _.
  pose proof (reduceConfidence_numbers _ _ (Float64.Finite 0) Hmap) as Hr.
  unfold calculateAverageConfidence, member.
  rewrite (getProp_Num_not_nullish _ _ _ Hq).
  cbn [mbind option_bind]. rewrite Hq. cbn [reduceConfidence] in Hr |- *.
  rewrite Hr. cbn [mbind option_bind]. unfold meanFloat64.
  assert (length (item0 :: rest) = length (q :: qs)) as ->; [|done].
  apply (f_equal length) in Hmap. by rewrite !length_map in Hmap.
Qed.

End average_facts.

(** ** Properties of the orchestration *)

Section orchestration_facts.
Import JS Pipeline.
Variable JSON_stringify : Value -> string.
Variable Thrown : Type.
Variable wrapError : Thrown -> ExtractionError.t.
Variable execute : nat -> PageChunk.t -> Settled Thrown (list Value).
Variables startTime endTime : Z.
Variable progress : nat -> PageChunk.t -> option Thrown.
Variable maxArguments : nat.
Variable rangeError : Thrown.

Local Abbreviation pageResult := (Pipeline.pageResult Thrown wrapError).
Local Abbreviation tasksOf := (Pipeline.tasksOf Thrown wrapError execute).
Local Abbreviation parallelTasksOf :=
  (Pipeline.parallelTasksOf Thrown wrapError execute progress).
Local Abbreviation pagesLoop :=
  (Pipeline.pagesLoop Thrown wrapError execute progress maxArguments rangeError).
Local Abbreviation gatherItems :=
  (Pipeline.gatherItems Thrown maxArguments rangeError).
Local Abbreviation entries := (recorded wrapError maxArguments rangeError).
Local Abbreviation itemsOf := PageExtractionResult.items.

Lemma pushSpread_fits allItems items :
  (length items <= maxArguments)%nat ->
  pushSpread Thrown maxArguments rangeError allItems items
  = inr (allItems ++ items)%list.
Proof.
  intros Hfit. unfold pushSpread.
  by destruct (Nat.ltb_spec maxArguments (length items)); [lia|].
Qed.

Lemma pushSpread_overflow allItems items :
  (maxArguments < length items)%nat ->
  pushSpread Thrown maxArguments rangeError allItems items = inl rangeError.
Proof.
  intros Hover. unfold pushSpread.
  by destruct (Nat.ltb_spec maxArguments (length items)); [|lia].
Qed.

Lemma imap_shift {A B} (f : nat -> A -> B) (i : nat) (l : list A) :
  imap ((λ j, f (i + j)%nat) ∘ S) l = imap (λ j, f (S i + j)%nat) l.
Proof. apply imap_ext. intros j x _. simpl. by rewrite Nat.add_succ_r. Qed.

(** The loop of [extractFromPages] in closed form, when the progress
    callback throws at none of the chunks. *)
Lemma pagesLoop_quiet i chunks pageResults allItems :
  (forall j chunk, chunks !! j = Some chunk -> progress (i + j)%nat chunk = None) ->
  pagesLoop i chunks pageResults allItems
  = inr ((pageResults
          ++ concat (imap (λ j chunk, entries chunk (execute (i + j)%nat chunk)) chunks))%list,
         (allItems
          ++ concat (imap (λ j chunk, gathered maxArguments (execute (i + j)%nat chunk))
                       chunks))%list).
Proof.
  revert i pageResults allItems.
  induction chunks as [|chunk chunks IH]; intros i pageResults allItems Hquiet.
  - simpl. by rewrite !app_nil_r.
  - cbn [Pipeline.pagesLoop imap concat].
    rewrite !(imap_shift (λ k c, entries c (execute k c))).
    rewrite !(imap_shift (λ k c, gathered maxArguments (execute k c))).
    pose proof (Hquiet 0%nat chunk eq_refl) as Hfirst.
    rewrite Nat.add_0_r in Hfirst |- *. rewrite Hfirst.
    assert (forall j c, chunks !! j = Some c -> progress (S i + j)%nat c = None)
      as Hrest.
    { intros j c Hj. specialize (Hquiet (S j) c Hj).
      by rewrite Nat.add_succ_r in Hquiet. }
    unfold recorded, gathered, pushSpread.
    destruct (execute i chunk) as [items|error].
    + destruct (maxArguments <? length items)%nat; rewrite IH by done;
        by rewrite <- !app_assoc.
    + rewrite IH by done. by rewrite <- !app_assoc.
Qed.

(** The loop ends with what the progress callback throws at the first
    chunk at which it throws. *)
Lemma pagesLoop_thrown i chunks pageResults allItems :
  match pagesLoop i chunks pageResults allItems with
  | inl thrown =>
      exists j chunk, chunks !! j = Some chunk /\
                      progress (i + j)%nat chunk = Some thrown
  | inr _ =>
      forall j chunk, chunks !! j = Some chunk -> progress (i + j)%nat chunk = None
  end.
Proof.
  revert i pageResults allItems.
  induction chunks as [|chunk chunks IH]; intros i pageResults allItems.
  - simpl. by intros j chunk.
  - cbn [Pipeline.pagesLoop].
    destruct (progress i chunk) as [thrown|] eqn:Hfirst.
    { exists 0%nat, chunk. by rewrite Nat.add_0_r. }
    assert (forall prs all,
              match pagesLoop (S i) chunks prs all with
              | inl thrown =>
                  exists j c, (chunk :: chunks) !! j = Some c /\
                              progress (i + j)%nat c = Some thrown
              | inr _ =>
                  forall j c, (chunk :: chunks) !! j = Some c ->
                              progress (i + j)%nat c = None
              end) as Hstep.
    { intros prs all. specialize (IH (S i) prs all).
      destruct (pagesLoop (S i) chunks prs all) as [thrown|?].
      - destruct IH as (j & c & Hj & Hthrown). exists (S j), c.
        by rewrite Nat.add_succ_r.
      - intros [|j] c Hj.
        + injection Hj as <-. by rewrite Nat.add_0_r.
        + rewrite Nat.add_succ_r. by apply IH. }
    destruct (execute i chunk) as [items|error]; [|apply Hstep].
    destruct (pushSpread _ _ _ _ _); apply Hstep.
Qed.

Lemma concat_imap_singleton {A B} (f : nat -> A -> B) (l : list A) :
  concat (imap (λ j x, [f j x]) l) = imap f l.
Proof.
  revert f. induction l as [|x l IH]; intros f; [done|].
  cbn [imap concat]. simpl. f_equal. apply IH.
Qed.

Lemma concat_imap_items {A} (f : nat -> A -> PageExtractionResult.t) (l : list A) :
  concat (imap (λ j x, itemsOf (f j x)) l) = concat (map itemsOf (imap f l)).
Proof.
  revert f. induction l as [|x l IH]; intros f; [done|].
  cbn [imap concat map]. f_equal. apply IH.
Qed.

(** When the items of every page fit, an iteration records the one page
    result of its call and gathers its items. *)
Lemma recorded_fits chunks :
  fits execute maxArguments chunks ->
  imap (λ j chunk, entries chunk (execute j chunk)) chunks
  = imap (λ j chunk, [pageResult chunk (execute j chunk)]) chunks /\
  imap (λ j chunk, gathered maxArguments (execute j chunk)) chunks
  = imap (λ j chunk, itemsOf (pageResult chunk (execute j chunk))) chunks.
Proof.
  intros Hfit. split; apply imap_ext; intros j chunk Hj; simpl;
    unfold recorded, gathered;
    destruct (execute j chunk) as [items|error] eqn:Hex; try done;
    specialize (Hfit j chunk items Hj Hex);
    by destruct (Nat.ltb_spec maxArguments (length items)); [lia|].
Qed.

Lemma pagesLoop_fits chunks :
  quiet progress chunks -> fits execute maxArguments chunks ->
  pagesLoop 0 chunks [] []
  = inr (tasksOf chunks, concat (map itemsOf (tasksOf chunks))).
Proof.
  intros Hquiet Hfit. rewrite pagesLoop_quiet by done. simpl.
  destruct (recorded_fits chunks Hfit) as [-> ->].
  by rewrite concat_imap_singleton, concat_imap_items.
Qed.

Lemma foldl_count_items (pageResults : list PageExtractionResult.t) n :
  foldl (λ sum r, (sum + length (itemsOf r))%nat) n pageResults
  = (n + length (concat (map itemsOf pageResults)))%nat.
Proof.
  revert n. induction pageResults as [|r rs IH]; intros n; simpl; [lia|].
  rewrite IH, length_app. lia.
Qed.

(** The gathering loop of [extractParallel]: it appends the items of the
    page results when those of each fit, and ends with the [RangeError]
    otherwise. *)
Lemma gatherItems_fits (pageResults : list PageExtractionResult.t) allItems :
  Forall (λ res, (length (itemsOf res) <= maxArguments)%nat) pageResults ->
  gatherItems pageResults allItems
  = inr (allItems ++ concat (map itemsOf pageResults))%list.
Proof.
  intros Hall. revert allItems.
  induction Hall as [|res rest Hres _ IH]; intros allItems; simpl.
  - by rewrite app_nil_r.
  - rewrite pushSpread_fits by done. by rewrite IH, <- app_assoc.
Qed.

Lemma gatherItems_inv (pageResults : list PageExtractionResult.t) allItems :
  match gatherItems pageResults allItems with
  | inr gatheredItems =>
      Forall (λ res, (length (itemsOf res) <= maxArguments)%nat) pageResults /\
      gatheredItems = (allItems ++ concat (map itemsOf pageResults))%list
  | inl error =>
      error = rangeError /\
      Exists (λ res, (maxArguments < length (itemsOf res))%nat) pageResults
  end.
Proof.
  revert allItems. induction pageResults as [|res rest IH]; intros allItems; simpl.
  - split; [done|]. by rewrite app_nil_r.
  - unfold pushSpread.
    destruct (Nat.ltb_spec maxArguments (length (itemsOf res))) as [Hover|Hfit].
    + split; [done|]. by left.
    + specialize (IH (allItems ++ itemsOf res)%list).
      destruct (gatherItems rest _) as [error|gatheredItems].
      * destruct IH as [-> Hex]. split; [done|]. by right.
      * destruct IH as [Hall ->]. split; [by constructor|].
        by rewrite <- app_assoc.
Qed.

(** Without a throwing callback the tasks of [extractParallel] are those
    of [extractStreaming]. *)
Lemma parallelTasksOf_quiet chunks :
  quiet progress chunks -> parallelTasksOf chunks = tasksOf chunks.
Proof.
  intros Hquiet. apply imap_ext. intros i chunk Hi. simpl.
  by rewrite (Hquiet i chunk Hi).
Qed.

Lemma tasksOf_fit chunks :
  fits execute maxArguments chunks ->
  Forall (λ res, (length (itemsOf res) <= maxArguments)%nat) (tasksOf chunks).
Proof.
  intros Hfit. apply Forall_forall. intros res Hin.
  apply elem_of_lookup_imap in Hin as (i & chunk & -> & Hi).
  destruct (execute i chunk) as [items|error] eqn:Hex; simpl; [|lia].
  by apply (Hfit i chunk).
Qed.


Lemma extractFromPages_closed chunks :
  quiet progress chunks -> fits execute maxArguments chunks ->
  extractFromPages JSON_stringify Thrown wrapError execute startTime endTime
    progress maxArguments rangeError chunks
  = aggregate JSON_stringify Thrown startTime endTime chunks (tasksOf chunks)
      (concat (map itemsOf (tasksOf chunks)))
      (length (concat (map itemsOf (tasksOf chunks)))).
Proof.
  intros Hquiet Hfit. unfold extractFromPages. rewrite pagesLoop_fits by done.
  by rewrite foldl_count_items.
Qed.

(** A resolved sequential run: the callback threw at no chunk, and the
    result is the aggregation of what the iterations recorded and
    gathered. *)
Lemma extractFromPages_resolved chunks r :
  extractFromPages JSON_stringify Thrown wrapError execute startTime endTime
    progress maxArguments rangeError chunks = Resolves r ->
  quiet progress chunks /\
  let results := concat (imap (λ j chunk, entries chunk (execute j chunk)) chunks) in
  aggregate JSON_stringify Thrown startTime endTime chunks results
    (concat (imap (λ j chunk, gathered maxArguments (execute j chunk)) chunks))
    (length (concat (map itemsOf results))) = Resolves r.
Proof.
  unfold extractFromPages. intros Hrun.
  pose proof (pagesLoop_thrown 0 chunks [] []) as Hthrown.
  destruct (pagesLoop 0 chunks [] []) as [thrown|[pageResults allItems]] eqn:Hloop;
    [done|].
  assert (quiet progress chunks) as Hquiet by exact Hthrown.
  split; [done|]. rewrite pagesLoop_quiet in Hloop by done.
  simpl in Hloop. injection Hloop as <- <-.
  by rewrite foldl_count_items in Hrun.
Qed.

(** Each settlement fills the slot of its task and no other. *)
Lemma settle_lookup {A} (tasks : list A) (completion : list nat)
    (values : list (option A)) i :
  length values = length tasks ->
  foldl (λ values i, match tasks !! i with
                     | Some v => <[i := Some v]> values
                     | None => values
                     end) values completion !! i
  = if decide (i ∈ completion) then Some <$> tasks !! i else values !! i.
Proof.
  revert values. induction completion as [|j completion IH]; intros values Hlen.
  - destruct (decide (i ∈ [])) as [Hin|_]; [|done]. by apply not_elem_of_nil in Hin.
  - cbn [foldl]. destruct (tasks !! j) as [v|] eqn:Hj.
    + rewrite IH by (by rewrite length_insert).
      destruct (decide (i ∈ completion)) as [Hin|Hnin],
               (decide (i ∈ j :: completion)) as [Hin'|Hnin']; try done.
      * destruct Hnin'. by right.
      * apply elem_of_cons in Hin' as [->|?]; [|done]. rewrite Hj. simpl.
        apply list_lookup_insert_eq. rewrite Hlen. by eapply lookup_lt_Some.
      * apply list_lookup_insert_ne. intros ->. apply Hnin'. by left.
    + rewrite IH by done.
      destruct (decide (i ∈ completion)) as [Hin|Hnin],
               (decide (i ∈ j :: completion)) as [Hin'|Hnin']; try done.
      * destruct Hnin'. by right.
      * apply elem_of_cons in Hin' as [->|?]; [|done]. rewrite Hj. simpl.
        apply lookup_ge_None. rewrite Hlen. by apply lookup_ge_None.
Qed.

Lemma mapM_id_Some {A} (values : list (option A)) (l : list A) :
  mapM id values = Some l <-> values = map Some l.
Proof.
  rewrite mapM_Some. split.
  - induction 1 as [|x y xs ys Hxy _ IH]; simpl in *; [done|]. by rewrite Hxy, IH.
  - intros ->. induction l; constructor; done.
Qed.

(** [Promise.all] resolves with the values in the order of the tasks once
    every task has settled, and stays pending otherwise. *)
Lemma promiseAll_Some {A} (tasks : list A) completion :
  (forall i, (i < length tasks)%nat -> i ∈ completion) ->
  promiseAll tasks completion = Some tasks.
Proof.
  intros Hall. unfold promiseAll. apply mapM_id_Some.
  apply list_eq. intros i.
  rewrite settle_lookup by apply length_replicate.
  rewrite list_lookup_fmap.
  destruct (decide (i ∈ completion)) as [Hin|Hnin]; [done|].
  destruct (tasks !! i) as [v|] eqn:Hi.
  - apply lookup_lt_Some in Hi. by destruct Hnin; apply Hall.
  - simpl. apply lookup_ge_None. rewrite length_replicate. by apply lookup_ge_None.
Qed.

Lemma promiseAll_inv {A} (tasks : list A) completion results :
  promiseAll tasks completion = Some results ->
  results = tasks /\ forall i, (i < length tasks)%nat -> i ∈ completion.
Proof.
  unfold promiseAll. intros Hvalues%mapM_id_Some.
  assert (forall i, (i < length tasks)%nat -> i ∈ completion) as Hall.
  { intros i Hi. apply (f_equal (.!! i)) in Hvalues.
    rewrite settle_lookup in Hvalues by apply length_replicate.
    destruct (decide (i ∈ completion)) as [|Hnin]; [done|].
    rewrite lookup_replicate_2 in Hvalues by done.
    rewrite list_lookup_fmap in Hvalues. by destruct (results !! i). }
  split; [|done]. pose proof (promiseAll_Some tasks completion Hall) as Hsome.
  unfold promiseAll in Hsome. apply mapM_id_Some in Hsome.
  rewrite Hsome in Hvalues. by apply (inj (fmap Some)) in Hvalues.
Qed.

Lemma length_parallelTasksOf chunks : length (parallelTasksOf chunks) = length chunks.
Proof. unfold Pipeline.parallelTasksOf. by rewrite length_imap. Qed.

Lemma extractParallel_closed completion chunks :
  (forall i, (i < length chunks)%nat -> i ∈ completion) ->
  quiet progress chunks -> fits execute maxArguments chunks ->
  extractParallel JSON_stringify Thrown wrapError execute startTime endTime
    progress maxArguments rangeError completion chunks
  = aggregate JSON_stringify Thrown startTime endTime chunks (tasksOf chunks)
      (concat (map itemsOf (tasksOf chunks)))
      (length (concat (map itemsOf (tasksOf chunks)))).
Proof.
  intros Hall Hquiet Hfit. unfold extractParallel.
  rewrite promiseAll_Some by (by rewrite length_parallelTasksOf).
  rewrite parallelTasksOf_quiet by done.
  by rewrite gatherItems_fits by (by apply tasksOf_fit).
Qed.

(** A resolved parallel run: every task settled, the items of every page
    result fitted, and the result is the aggregation of the page results
    of the tasks. *)
Lemma extractParallel_resolved completion chunks r :
  extractParallel JSON_stringify Thrown wrapError execute startTime endTime
    progress maxArguments rangeError completion chunks = Resolves r ->
  let results := parallelTasksOf chunks in
  (forall i, (i < length chunks)%nat -> i ∈ completion) /\
  aggregate JSON_stringify Thrown startTime endTime chunks results
    (concat (map itemsOf results)) (length (concat (map itemsOf results)))
  = Resolves r.
Proof.
  intros Hrun results. unfold extractParallel in Hrun. subst results.
  destruct (promiseAll _ completion) as [pageResults|] eqn:Hall; [|done].
  apply promiseAll_inv in Hall as [-> Hall].
  rewrite length_parallelTasksOf in Hall. split; [done|].
  pose proof (gatherItems_inv (parallelTasksOf chunks) []) as Hgather.
  destruct (gatherItems (parallelTasksOf chunks) []) as [error|allItems]; [done|].
  by destruct Hgather as [_ ->].
Qed.

(** An item whose key can be computed is neither [null] nor [undefined]. *)
Lemma keyOf_not_nullish item key :
  keyOf JSON_stringify item = Some key -> nullish item = false.
Proof. unfold keyOf, member. by destruct (nullish item). Qed.

Lemma deduplicateItems_not_nullish items out :
  deduplicateItems JSON_stringify items = Some out ->
  Forall (λ item, nullish item = false) out.
Proof.
  intros Hout.
  assert (Forall (λ item, nullish item = false) items) as Hall.
  { apply Forall_forall. intros item Hin.
    destruct (keyOf JSON_stringify item) as [key|] eqn:Hkey.
    - by eapply keyOf_not_nullish.
    - assert (deduplicateItems JSON_stringify items = None) as Hnone
        by (apply deduplicateItems_None; eauto).
      congruence. }
  rewrite deduplicateItems_closed in Hout.
  destruct (mapM _ items); simpl in Hout; [|done]. injection Hout as <-.
  by apply Forall_select.
Qed.

(** The aggregation resolves exactly when the keys of the gathered items
    can be computed. *)
Lemma aggregate_resolves chunks pageResults allItems n :
  match aggregate JSON_stringify Thrown startTime endTime chunks pageResults
          allItems n with
  | Resolves r =>
      deduplicateItems JSON_stringify allItems = Some (ExtractionResult.items r) /\
      ExtractionResult.pagesProcessed r = length chunks /\
      ExtractionResult.pagesFailed r
        = length (filter (λ r, PageExtractionResult.success r = false) pageResults) /\
      ExtractionResult.pageResults r = pageResults /\
      Metrics.totalItems (ExtractionResult.metrics r)
        = length (ExtractionResult.items r) /\
      Metrics.itemsBeforeDedup (ExtractionResult.metrics r) = n /\
      Metrics.processingTimeMs (ExtractionResult.metrics r) = endTime - startTime /\
      calculateAverageConfidence (ExtractionResult.items r)
        = Some (Metrics.averageConfidence (ExtractionResult.metrics r))
  | RejectsTypeError => deduplicateItems JSON_stringify allItems = None
  | Rejects _ => False
  | StaysPending => False
  end.
Proof.
  unfold aggregate.
  destruct (deduplicateItems JSON_stringify allItems) as [out|] eqn:Hout; [|done].
  pose proof (deduplicateItems_not_nullish _ _ Hout) as Hnn.
  destruct (calculateAverageConfidence_total out Hnn) as [avg Havg].
  rewrite Havg. simpl. by repeat split.
Qed.

End orchestration_facts.

Section average_checks.
Import Float64.

Lemma Finite_this (a b : Qc) : this a = this b -> Finite a = Finite b.
Proof. intros Hab. f_equal. apply Qc_is_canon. by rewrite Hab. Qed.


(** The rounding at the places where the doubles change their spacing:
    the double nearest to one tenth; a tie, which goes to the even
    significand, below and above [2 ^ 53]; the largest double and the
    overflow from the middle between it and [2 ^ 1024] on; the smallest
    subnormal double and the underflow to a zero of the sign of the
    number. *)
Example round64_nearest :
  round64 (Q2Qc (1 # 10)) = Finite Examples.tenthQc /\
  round64 (Q2Qc (inject_Z (2 ^ 53 + 1))) = Finite (Q2Qc (inject_Z (2 ^ 53))) /\
  round64 (Q2Qc (inject_Z (2 ^ 53 + 3))) = Finite (Q2Qc (inject_Z (2 ^ 53 + 4))) /\
  round64 (Q2Qc (inject_Z (2 ^ 1024 - 2 ^ 971)))
    = Finite (Q2Qc (inject_Z (2 ^ 1024 - 2 ^ 971))) /\
  round64 (Q2Qc (inject_Z (2 ^ 1024 - 2 ^ 970 - 1)))
    = Finite (Q2Qc (inject_Z (2 ^ 1024 - 2 ^ 971))) /\
  round64 (Q2Qc (inject_Z (2 ^ 1024 - 2 ^ 970))) = PosInfinity /\
  round64 (Q2Qc (inject_Z (- 2 ^ 1024))) = NegInfinity /\
  round64 (Q2Qc (1 # Z.to_pos (2 ^ 1074))) = Finite (Q2Qc (1 # Z.to_pos (2 ^ 1074))) /\
  round64 (Q2Qc (3 # Z.to_pos (2 ^ 1075))) = Finite (Q2Qc (2 # Z.to_pos (2 ^ 1074))) /\
  round64 (Q2Qc (1 # Z.to_pos (2 ^ 1075))) = Finite 0 /\
  round64 (Q2Qc (-1 # Z.to_pos (2 ^ 1075))) = NegZero.
Proof. repeat split; vm_compute; try done; by apply Finite_this. Qed.

End average_checks.




(** The two results of the code. *)
Example calculateAverageConfidence_zero_padded :
  Pipeline.calculateAverageConfidence [Examples.whole; Examples.unrated]
  = Some (Mean (Float64.Finite (Q2Qc (1 # 2)))).
Proof. vm_compute. do 2 f_equal. by apply Finite_this. Qed.

Example calculateAverageConfidence_rounds :
  Pipeline.calculateAverageConfidence [Examples.tenth; Examples.fifth]
  = Some (Mean (Float64.Finite (Q2Qc (1351079888211149 # 9007199254740992)))).
Proof. vm_compute. do 2 f_equal. by apply Finite_this. Qed.

Section orchestration_results.
Import JS Pipeline.
Variable JSON_stringify : Value -> string.
Variable Thrown : Type.
Variable wrapError : Thrown -> ExtractionError.t.

Local Abbreviation itemsOf := PageExtractionResult.items.




Lemma elem_of_concat {A} (x : A) (ls : list (list A)) :
  x ∈ concat ls <-> exists l, l ∈ ls /\ x ∈ l.
Proof.
  induction ls as [|l ls IH]; simpl.
  - split; [by intros ?%elem_of_nil|]. by intros (l & ?%elem_of_nil & _).
  - rewrite elem_of_app, IH. split.
    + intros [Hx|(l' & Hl' & Hx)]; [exists l; split; [by left|done]|].
      exists l'. split; [by right|done].
    + intros (l' & [->|Hl']%elem_of_cons & Hx); [by left|]. right. eauto.
Qed.

(** A concatenation of non-empty lists has at least as many elements as
    there are lists, and more when one of them has two. *)
Lemma length_concat_imap {B} (f : nat -> B -> list PageExtractionResult.t)
    (l : list B) :
  (forall j x, l !! j = Some x -> (1 <= length (f j x))%nat) ->
  (length l <= length (concat (imap f l)))%nat /\
  forall i x, l !! i = Some x -> (2 <= length (f i x))%nat ->
              (length l < length (concat (imap f l)))%nat.
Proof.
  revert f. induction l as [|y l IH]; intros f Hone.
  - split; [done|]. by intros i x.
  - cbn [imap concat length]. rewrite length_app.
    destruct (IH (f ∘ S)) as [Hle Hlt].
    { intros j x Hj. by apply (Hone (S j)). }
    pose proof (Hone 0%nat y eq_refl) as Hfirst.
    split; [lia|]. intros [|i] x Hi Htwo.
    + injection Hi as <-. lia.
    + specialize (Hlt i x Hi Htwo). lia.
Qed.

End orchestration_results.

(** C4. [extractFromPages] pushes the successful page result and then
    spreads the items of the page into [allItems.push], inside the same
    [try]. When a call is fulfilled with more items than the engine takes
    as arguments, the [RangeError] of the spread is caught after the
    successful page result was pushed: the chunk gets a second, failed
    page result, so that a resolved run has more page results than
    chunks and counts a failed page although no call failed. *)
Theorem extractFromPages_overflow_two_entries
    (JSON_stringify : JS.Value -> string) (Thrown : Type)
    (wrapError : Thrown -> ExtractionError.t)
    (execute : nat -> PageChunk.t -> Settled Thrown (list JS.Value))
    (startTime endTime : Z) (progress : nat -> PageChunk.t -> option Thrown)
    (maxArguments : nat) (rangeError : Thrown)
    (chunks : list PageChunk.t) (i : nat) (chunk : PageChunk.t)
    (items : list JS.Value) (r : ExtractionResult.t) :
  chunks !! i = Some chunk ->
  execute i chunk = Fulfilled items ->
  (maxArguments < length items)%nat ->
  Pipeline.extractFromPages JSON_stringify Thrown wrapError execute
    startTime endTime progress maxArguments rangeError chunks = Resolves r ->
  (length chunks < length (ExtractionResult.pageResults r))%nat /\
  Pipeline.pageResult Thrown wrapError chunk (Fulfilled items)
    ∈ ExtractionResult.pageResults r /\
  Pipeline.pageResult Thrown wrapError chunk (Rejected rangeError)
    ∈ ExtractionResult.pageResults r /\
  (1 <= ExtractionResult.pagesFailed r)%nat /\
  ExtractionResult.pagesProcessed r = length chunks.
Proof.
  intros Hi Hex Hover [_ Hagg]%extractFromPages_resolved. simpl in Hagg.
  set (entries := λ (j : nat) (c : PageChunk.t),
         recorded wrapError maxArguments rangeError c (execute j c)) in *.
  pose proof (aggregate_resolves JSON_stringify Thrown startTime endTime chunks
                (concat (imap entries chunks))
                (concat (imap (λ j c, gathered maxArguments (execute j c)) chunks))
                (length (concat (map PageExtractionResult.items
                                   (concat (imap entries chunks)))))) as Hres.
  rewrite Hagg in Hres.
  destruct Hres as (_ & Hpages & Hfailed & Hresults & _).
  assert (entries i chunk
          = [Pipeline.pageResult Thrown wrapError chunk (Fulfilled items);
             Pipeline.pageResult Thrown wrapError chunk (Rejected rangeError)])
    as Htwo.
  { unfold entries, recorded. rewrite Hex.
    by destruct (Nat.ltb_spec maxArguments (length items)); [|lia]. }
  assert (forall res, res ∈ entries i chunk ->
                      res ∈ ExtractionResult.pageResults r) as Hin.
  { intros res Hres. rewrite Hresults. apply elem_of_concat.
    exists (entries i chunk). split; [|done].
    apply elem_of_lookup_imap. eauto. }
  rewrite Htwo in Hin.
  assert (Pipeline.pageResult Thrown wrapError chunk (Rejected rangeError)
            ∈ ExtractionResult.pageResults r) as Hfail
    by (apply Hin; right; left).
  split; [|split; [by apply Hin; left|split; [done|split; [|done]]]].
  - rewrite Hresults.
    destruct (length_concat_imap entries chunks) as [_ Hlt].
    { intros j c _. unfold entries, recorded.
      destruct (execute j c) as [its|e]; [|simpl; lia].
      destruct (maxArguments <? length its)%nat; simpl; lia. }
    apply (Hlt i chunk Hi). rewrite Htwo. simpl. lia.
  - rewrite Hfailed, <- Hresults.
    assert (Pipeline.pageResult Thrown wrapError chunk (Rejected rangeError)
              ∈ filter (λ res, PageExtractionResult.success res = false)
                  (ExtractionResult.pageResults r)) as Hf
      by (by apply list_elem_of_filter).
    destruct (filter _ (ExtractionResult.pageResults r));
      [by apply elem_of_nil in Hf|simpl; lia].
Qed.

(** The run on one page of 150 items, in an engine that takes 100
    arguments: two page results for one chunk, [pagesFailed = 1], and no
    item gathered. *)
Example extractFromPages_overflow :
  Pipeline.extractFromPages Examples.stringify string Examples.wrap
    Examples.returnsMany 0 5 Examples.noCallback Examples.argumentLimit
    Examples.rangeError Examples.onePage
  = Resolves
      (ExtractionResult.mk [] 1 1
         [PageExtractionResult.mk Examples.manyItems 1 true None None;
          PageExtractionResult.mk [] 1 false
            (Some "Extraction failed: Maximum call stack size exceeded")
            (Some "EXTRACTION_ERROR")]
         (Metrics.mk 0 150 5 NoAverage)).
Proof. by vm_compute. Qed.

Lemma extractFromPages_overflow_two_entries_witness :
  exists r,
    Pipeline.extractFromPages Examples.stringify string Examples.wrap
      Examples.returnsMany 0 5 Examples.noCallback Examples.argumentLimit
      Examples.rangeError Examples.onePage = Resolves r /\
    (length Examples.onePage < length (ExtractionResult.pageResults r))%nat /\
    (1 <= ExtractionResult.pagesFailed r)%nat.
Proof.
  destruct (Pipeline.extractFromPages Examples.stringify string Examples.wrap
              Examples.returnsMany 0 5 Examples.noCallback Examples.argumentLimit
              Examples.rangeError Examples.onePage) as [r| | |] eqn:Hrun;
    [|vm_compute in Hrun; discriminate..].
  exists r. split; [done|].
  destruct (extractFromPages_overflow_two_entries Examples.stringify string
              Examples.wrap Examples.returnsMany 0 5 Examples.noCallback
              Examples.argumentLimit Examples.rangeError Examples.onePage
              0%nat (PageChunk.mk "a long page" 1) Examples.manyItems r)
    as (Hlen & _ & _ & Hfailed & _).
  - reflexivity.
  - reflexivity.
  - vm_compute. lia.
  - exact Hrun.
  - by split.
Defined.

Section aggregation_facts.
Import JS Pipeline.

Lemma length_concat_sum (results : list PageExtractionResult.t) :
  length (concat (map PageExtractionResult.items results))
  = sum_list_with (λ res, length (PageExtractionResult.items res)) results.
Proof.
  induction results as [|res results IH]; simpl; [done|].
  by rewrite length_app, IH.
Qed.





End aggregation_facts.




(** C9. The two modes end differently on the same chunk and the same
    outcome of its call, in two ways. When the call is fulfilled with
    more items than the engine takes as arguments, [extractFromPages]
    catches the [RangeError] of the spread and resolves, with no item
    and a failed page result beside the successful one, while
    [extractParallel] spreads outside any [try] and rejects with the
    [RangeError]. When the progress callback throws, [extractFromPages]
    calls it outside the [try] and rejects with what it threw, while
    [extractParallel] calls it inside and resolves with a failed page
    result. *)
Theorem sequential_parallel_diverge
    (JSON_stringify : JS.Value -> string) (Thrown : Type)
    (wrapError : Thrown -> ExtractionError.t)
    (execute : nat -> PageChunk.t -> Settled Thrown (list JS.Value))
    (startTime endTime : Z) (progress : nat -> PageChunk.t -> option Thrown)
    (maxArguments : nat) (rangeError : Thrown) (chunk : PageChunk.t) :
  let sequential := Pipeline.extractFromPages JSON_stringify Thrown wrapError
                      execute startTime endTime progress maxArguments rangeError
                      [chunk] in
  let parallel := Pipeline.extractParallel JSON_stringify Thrown wrapError
                    execute startTime endTime progress maxArguments rangeError
                    [0%nat] [chunk] in
  (forall items,
     progress 0%nat chunk = None ->
     execute 0%nat chunk = Fulfilled items ->
     (maxArguments < length items)%nat ->
     parallel = Rejects rangeError /\
     exists r, sequential = Resolves r /\
       ExtractionResult.items r = [] /\
       ExtractionResult.pagesFailed r = 1%nat /\
       ExtractionResult.pageResults r
       = [Pipeline.pageResult Thrown wrapError chunk (Fulfilled items);
          Pipeline.pageResult Thrown wrapError chunk (Rejected rangeError)]) /\
  (forall thrown,
     progress 0%nat chunk = Some thrown ->
     sequential = Rejects thrown /\
     exists r, parallel = Resolves r /\
       ExtractionResult.items r = [] /\
       ExtractionResult.pagesFailed r = 1%nat /\
       ExtractionResult.pageResults r
       = [Pipeline.pageResult Thrown wrapError chunk (Rejected thrown)]).
Proof.
  intros sequential parallel. split.
  - intros items Hquiet Hex Hover.
    assert ((maxArguments <? length items)%nat = true) as Hlt
      by (by apply Nat.ltb_lt).
    split.
    + unfold parallel, Pipeline.extractParallel.
      rewrite promiseAll_Some.
      2:{ simpl. intros i Hi. assert (i = 0%nat) as -> by lia. by left. }
      unfold Pipeline.parallelTasksOf. simpl.
      rewrite Hquiet, Hex. unfold Pipeline.pushSpread. simpl. by rewrite Hlt.
    + unfold sequential, Pipeline.extractFromPages. simpl.
      rewrite Hquiet, Hex. unfold Pipeline.pushSpread. rewrite Hlt.
      eexists. split; [reflexivity|]. by repeat split.
  - intros thrown Hthrown. split.
    + unfold sequential, Pipeline.extractFromPages. simpl. by rewrite Hthrown.
    + unfold parallel, Pipeline.extractParallel.
      rewrite promiseAll_Some.
      2:{ simpl. intros i Hi. assert (i = 0%nat) as -> by lia. by left. }
      unfold Pipeline.parallelTasksOf. simpl.
      rewrite Hthrown. unfold Pipeline.pushSpread. simpl.
      eexists. split; [reflexivity|]. by repeat split.
Qed.

Lemma sequential_parallel_diverge_witness :
  Pipeline.extractParallel Examples.stringify string Examples.wrap
    Examples.returnsMany 0 5 Examples.noCallback Examples.argumentLimit
    Examples.rangeError [0%nat] Examples.onePage
  = Rejects Examples.rangeError /\
  exists r,
    Pipeline.extractFromPages Examples.stringify string Examples.wrap
      Examples.returnsMany 0 5 Examples.noCallback Examples.argumentLimit
      Examples.rangeError Examples.onePage = Resolves r /\
    ExtractionResult.items r = [].
Proof.
  destruct (sequential_parallel_diverge Examples.stringify string Examples.wrap
              Examples.returnsMany 0 5 Examples.noCallback Examples.argumentLimit
              Examples.rangeError (PageChunk.mk "a long page" 1))
    as [Hoverflow _].
  destruct (Hoverflow Examples.manyItems) as (Hpar & r & Hseq & Hitems & _).
  - reflexivity.
  - reflexivity.
  - vm_compute. lia.
  - split; [exact Hpar|]. by exists r.
Defined.

(** The progress callback throws at the second of three pages:
    [extractFromPages] rejects, [extractParallel] resolves with the
    second page failed. *)
Example sequential_parallel_callback :
  Pipeline.extractFromPages Examples.stringify string Examples.wrap
    Examples.describes 0 5 Examples.throwsAtSecond Examples.argumentLimit
    Examples.rangeError Examples.threePages
  = Rejects "progress failed" /\
  exists r,
    Pipeline.extractParallel Examples.stringify string Examples.wrap
      Examples.describes 0 5 Examples.throwsAtSecond Examples.argumentLimit
      Examples.rangeError [0%nat; 1%nat; 2%nat] Examples.threePages
    = Resolves r /\
    map PageExtractionResult.success (ExtractionResult.pageResults r)
    = [true; false; true].
Proof. split; [by vm_compute|]. eexists. split; [by vm_compute|done]. Qed.

(** ** Properties of the streaming loop *)

Section streaming_facts.
Import JS Pipeline.
Variable race : list nat -> nat.
Hypothesis race_in_pool : forall pool, pool <> [] -> race pool ∈ pool.

Lemma delete_Permutation (p : nat) (pool : list nat) :
  NoDup pool -> p ∈ pool -> pool ≡ₚ p :: filter (λ q, q <> p) pool.
Proof.
  induction 1 as [|q pool Hq Hnd IH]; intros Hin; [by apply elem_of_nil in Hin|].
  rewrite filter_cons. destruct (decide (q = p)) as [->|Hne].
  - rewrite decide_False by (intros Hpp; by apply Hpp).
    constructor. clear IH Hin Hnd.
    induction pool as [|x pool IH]; [done|].
    rewrite filter_cons, decide_True.
    + constructor. apply IH. intros Hp. apply Hq. by right.
    + intros ->. apply Hq. by left.
  - rewrite decide_True by done.
    apply elem_of_cons in Hin as [->|Hin]; [done|].
    rewrite (IH Hin) at 1. apply perm_swap.
Qed.

(** With fuel for every promise of the pool the loop yields the value of
    each of them once. *)
Lemma streamLoop_drains (tasks : list PageExtractionResult.t) fuel pool :
  NoDup pool -> (forall p, p ∈ pool -> (p < length tasks)%nat) ->
  (length pool <= fuel)%nat ->
  exists yielded,
    streamLoop race fuel tasks pool = Some yielded /\
    yielded ≡ₚ omap (λ p, tasks !! p) pool.
Proof.
  revert pool. induction fuel as [|fuel IH]; intros pool Hnd Hbound Hfuel.
  - destruct pool; [by exists []|simpl in Hfuel; lia].
  - destruct pool as [|q pool]; [by exists []|].
    cbn [streamLoop]. remember (q :: pool) as full eqn:Hfull.
    assert (race full ∈ full) as Hwin by (apply race_in_pool; by subst).
    destruct (tasks !! race full) as [res|] eqn:Hres.
    2:{ apply lookup_ge_None in Hres. specialize (Hbound _ Hwin). lia. }
    rewrite decide_True by done.
    pose proof (delete_Permutation _ _ Hnd Hwin) as Hperm.
    destruct (IH (filter (λ q, q <> race full) full)) as (rest & -> & Hrest).
    + by apply NoDup_filter.
    + intros p [_ Hp]%list_elem_of_filter. by apply Hbound.
    + apply Permutation_length in Hperm. simpl in Hperm. lia.
    + exists (res :: rest). split; [done|].
      rewrite Hperm at 1. simpl. rewrite Hres. by constructor.
Qed.

Lemma omap_lookup_seq_app {A} (k l : list A) :
  omap (λ p, (k ++ l)%list !! p) (seq (length k) (length l)) = l.
Proof.
  revert k. induction l as [|x l IH]; intros k; [done|].
  simpl. rewrite list_lookup_middle by done. f_equal.
  specialize (IH (k ++ [x])%list).
  rewrite <- app_assoc, length_app in IH. simpl in IH.
  by rewrite Nat.add_1_r in IH.
Qed.

Lemma omap_lookup_seq {A} (l : list A) :
  omap (λ p, l !! p) (seq 0 (length l)) = l.
Proof. apply (omap_lookup_seq_app [] l). Qed.

End streaming_facts.

(** C7. Whatever promise wins each race among those still in the pool,
    [extractStreaming] over [N] chunks ends after [N] iterations and
    yields [N] page results, the results of the [N] tasks each once: the
    page numbers yielded are those of the chunks, none left out, and none
    twice when the chunks have distinct page numbers. The first result
    yielded is that of the winner of the race over the whole pool. *)
Theorem extractStreaming_each_page_once
    (Thrown : Type) (wrapError : Thrown -> ExtractionError.t)
    (execute : nat -> PageChunk.t -> Settled Thrown (list JS.Value))
    (race : list nat -> nat) (fuel : nat) (chunks : list PageChunk.t) :
  (forall pool, pool <> [] -> race pool ∈ pool) ->
  (length chunks <= fuel)%nat ->
  exists yielded,
    Pipeline.extractStreaming Thrown wrapError execute race fuel chunks
      = Some yielded /\
    length yielded = length chunks /\
    yielded ≡ₚ Pipeline.tasksOf Thrown wrapError execute chunks /\
    map PageExtractionResult.pageNumber yielded
      ≡ₚ map PageChunk.pageNumber chunks /\
    (NoDup (map PageChunk.pageNumber chunks) ->
     NoDup (map PageExtractionResult.pageNumber yielded)) /\
    (chunks <> [] ->
     head yielded
     = Pipeline.tasksOf Thrown wrapError execute chunks
         !! race (seq 0 (length chunks))).
Proof.
  intros Hrace Hfuel. unfold Pipeline.extractStreaming.
  set (tasks := Pipeline.tasksOf Thrown wrapError execute chunks).
  assert (length tasks = length chunks) as Hlen
    by (unfold tasks, Pipeline.tasksOf; by rewrite length_imap).
  assert (map PageExtractionResult.pageNumber tasks
          = map PageChunk.pageNumber chunks) as Hnumbers.
  { unfold tasks, Pipeline.tasksOf.
    change (map PageExtractionResult.pageNumber)
      with (fmap (M := list) PageExtractionResult.pageNumber).
    rewrite fmap_imap, <- imap_const. apply imap_ext. intros i chunk _. simpl.
    by destruct (execute i chunk). }
  destruct (streamLoop_drains race Hrace tasks fuel (seq 0 (length chunks)))
    as (yielded & Hrun & Hperm).
  { apply NoDup_seq. }
  { intros p Hp%elem_of_seq. lia. }
  { by rewrite length_seq. }
  rewrite <- Hlen, omap_lookup_seq in Hperm.
  exists yielded. split; [done|].
  split; [by rewrite Hperm|]. split; [done|].
  split; [by rewrite Hperm, Hnumbers|].
  split; [intros Hnd; by rewrite Hperm, Hnumbers|].
  intros Hne. destruct chunks as [|chunk chunks']; [done|].
  destruct fuel as [|fuel']; [simpl in Hfuel; lia|].
  remember (chunk :: chunks') as all eqn:Hall.
  assert (seq 0 (length all) <> []) as Hpool by (subst all; done).
  destruct (seq 0 (length all)) as [|p0 pool'] eqn:Hseq; [done|].
  cbn [Pipeline.streamLoop] in Hrun. fold tasks.
  destruct (tasks !! race (p0 :: pool')) as [res|]; [|done].
  destruct (decide (race (p0 :: pool') ∈ p0 :: pool')); [|done].
  destruct (Pipeline.streamLoop _ _ _ _) as [rest|]; [|done].
  simpl in Hrun. by injection Hrun as <-.
Qed.

Lemma extractStreaming_each_page_once_witness :
  (forall pool, pool <> [] -> Examples.youngest pool ∈ pool) /\
  Pipeline.extractStreaming string Examples.wrap Examples.secondFails
    Examples.youngest 3 Examples.threePages
  = Some
      [PageExtractionResult.mk [JS.Obj [("description", JS.Str "Unknown")]] 3
         true None None;
       PageExtractionResult.mk [] 2 false
         (Some "Extraction failed: response did not match schema")
         (Some "EXTRACTION_ERROR");
       PageExtractionResult.mk [JS.Obj [("description", JS.Str "Item A")]] 1
         true None None].
Proof.
  assert (forall pool, pool <> [] -> Examples.youngest pool ∈ pool) as Hrace.
  { intros pool Hne. unfold Examples.youngest.
    destruct (last pool) as [p|] eqn:Hlast.
    - by apply last_Some_elem_of.
    - by apply last_None in Hlast. }
  split; [exact Hrace|].
  destruct (extractStreaming_each_page_once string Examples.wrap
              Examples.secondFails Examples.youngest 3 Examples.threePages Hrace)
    as (yielded & Hrun & _); [simpl; lia|].
  rewrite Hrun. vm_compute in Hrun. by injection Hrun as <-.
Defined.

(** ** Properties of the scheduler *)

Section scheduler_facts.
Import Scheduler.
Variable cfg : CallConfig.

Lemma step_bound st ev st' :
  (inFlight st <= maxConcurrent cfg)%nat -> step cfg st ev = Some st' ->
  (inFlight st' <= maxConcurrent cfg)%nat.
Proof.
  intros Hle. destruct ev as [now|now]; simpl.
  - unfold start, canStart. destruct (Nat.ltb_spec (inFlight st) (maxConcurrent cfg));
      simpl; [|done].
    destruct (spacingElapsed cfg st now); [|done]. intros [= <-]. simpl. lia.
  - unfold release. destruct (inFlight st) as [|n] eqn:Hn; [done|].
    intros [= <-]. simpl. lia.
Qed.

Lemma states_bound events st sts :
  (inFlight st <= maxConcurrent cfg)%nat -> states cfg st events = Some sts ->
  Forall (λ st, (inFlight st <= maxConcurrent cfg)%nat) sts.
Proof.
  revert st sts. induction events as [|ev events IH]; intros st sts Hle; simpl.
  - by intros [= <-].
  - destruct (step cfg st ev) as [st'|] eqn:Hstep; simpl; [|done].
    destruct (states cfg st' events) as [sts'|] eqn:Hsts; simpl; [|done].
    intros [= <-]. pose proof (step_bound _ _ _ Hle Hstep). constructor; eauto.
Qed.

Lemma exec_app st events1 events2 :
  exec cfg st (events1 ++ events2)
  = st' ← exec cfg st events1; exec cfg st' events2.
Proof.
  revert st. induction events1 as [|ev events1 IH]; intros st; simpl; [done|].
  destruct (step cfg st ev); simpl; [apply IH|done].
Qed.

Lemma states_exec st events :
  is_Some (exec cfg st events) -> is_Some (states cfg st events).
Proof.
  revert st. induction events as [|ev events IH]; intros st; simpl; [by eexists|].
  destruct (step cfg st ev) as [st'|]; simpl; [|by intros [? ?]].
  intros [sts ->]%IH. by eexists.
Qed.

(** The completions of a round are permitted, and leave one call in
    flight per call still running. *)
Lemma completeDue_exec now running st extra :
  inFlight st = (length running + extra)%nat ->
  exists events running' st',
    completeDue now running st = (events, running', st') /\
    exec cfg st events = Some st' /\
    inFlight st' = (length running' + extra)%nat.
Proof.
  revert st extra. induction running as [|finish running IH]; intros st extra Hin; simpl.
  - by exists [], [], st.
  - destruct (finish <=? now)%nat.
    + unfold release. rewrite Hin. simpl.
      destruct (IH (mkState (length running + extra) (lastStart st)) extra eq_refl)
        as (events & running' & st' & -> & Hexec & Hcount).
      exists (Completed now :: events), running', st'. split; [done|].
      split; [|done]. simpl. unfold release. rewrite Hin. simpl. done.
    + destruct (IH st (S extra)) as (events & running' & st' & -> & Hexec & Hcount).
      { rewrite Hin. simpl. lia. }
      exists events, (finish :: running'), st'. split; [done|].
      split; [done|]. rewrite Hcount. simpl. lia.
Qed.

Lemma startWaiting_exec now waiting running st :
  inFlight st = length running ->
  exists events waiting' running' st',
    startWaiting cfg now waiting running st = (events, waiting', running', st') /\
    exec cfg st events = Some st' /\
    inFlight st' = length running'.
Proof.
  revert running st. induction waiting as [|duration waiting IH];
    intros running st Hin; simpl.
  - by exists [], [], running, st.
  - destruct (start cfg st now) as [st1|] eqn:Hstart.
    + destruct (IH (running ++ [(now + duration)%nat])%list st1)
        as (events & waiting' & running' & st' & -> & Hexec & Hcount).
      { unfold start in Hstart. destruct (canStart cfg st now); [|done].
        injection Hstart as <-. simpl. rewrite length_app, Hin. simpl. lia. }
      exists (Started now :: events), waiting', running', st'.
      split; [done|]. split; [|done]. simpl. by rewrite Hstart.
    + by exists [], (duration :: waiting), running, st.
Qed.

(** Every history of the waiting callers is one the scheduler permits. *)
Lemma simulate_exec rounds now waiting running st :
  inFlight st = length running ->
  is_Some (exec cfg st (simulate cfg rounds now waiting running st)).
Proof.
  revert now waiting running st.
  induction rounds as [|rounds IH]; intros now waiting running st Hin; simpl;
    [by eexists|].
  destruct (completeDue_exec now running st 0)
    as (completions & running1 & st1 & -> & Hexec1 & Hcount1); [lia|].
  rewrite Nat.add_0_r in Hcount1.
  destruct (startWaiting_exec now waiting running1 st1 Hcount1)
    as (admissions & waiting2 & running2 & st2 & -> & Hexec2 & Hcount2).
  destruct (IH (S now) waiting2 running2 st2 Hcount2) as [st3 Hexec3].
  assert (is_Some (exec cfg st (completions ++ admissions))) as Hboth.
  { rewrite exec_app, Hexec1. simpl. rewrite Hexec2. by eexists. }
  assert (is_Some (exec cfg st
            (completions ++ admissions
               ++ simulate cfg rounds (S now) waiting2 running2 st2))) as Hall.
  { rewrite exec_app, Hexec1. simpl. rewrite exec_app, Hexec2. simpl.
    by eexists. }
  by destruct waiting2, running2.
Qed.

End scheduler_facts.

(** C8. In every history the scheduler permits, with any number of calls
    and retries, the in-flight count never exceeds [maxConcurrent]; every
    history of callers waiting for admission is such a history; and for
    five calls of fifty time units each, submitted at once with
    [maxConcurrent = 2] and [minStartSpacing = 0], all five are started
    and completed and the largest in-flight count observed is exactly 2. *)
Theorem scheduler_inFlight_bound :
  (forall cfg events sts,
     Scheduler.states cfg Scheduler.initial events = Some sts ->
     Forall (λ st, (Scheduler.inFlight st <= Scheduler.maxConcurrent cfg)%nat) sts) /\
  (forall cfg rounds durations,
     is_Some (Scheduler.states cfg Scheduler.initial
                (Scheduler.simulate cfg rounds 0 durations [] Scheduler.initial))) /\
  (let cfg := Scheduler.mkConfig 2 0 1 in
   let events :=
     Scheduler.simulate cfg 200 0 [50; 50; 50; 50; 50]%nat [] Scheduler.initial in
   exists sts,
     Scheduler.states cfg Scheduler.initial events = Some sts /\
     Scheduler.maxInFlight sts = 2%nat /\
     Scheduler.admissions events = 5%nat /\
     Scheduler.completions events = 5%nat).
Proof.
  split; [|split].
  - intros cfg events sts. apply states_bound. simpl. lia.
  - intros cfg rounds durations. apply states_exec. by apply simulate_exec.
  - eexists. split; [by vm_compute|]. by vm_compute.
Qed.

Lemma scheduler_inFlight_bound_witness :
  Forall (λ st, (Scheduler.inFlight st <= 2)%nat)
    [Scheduler.mkState 1 (Some 0%nat); Scheduler.mkState 2 (Some 3%nat);
     Scheduler.mkState 1 (Some 3%nat)].
Proof.
  destruct scheduler_inFlight_bound as (Hbound & _).
  apply (Hbound (Scheduler.mkConfig 2 0 0)
           [Scheduler.Started 0; Scheduler.Started 3; Scheduler.Completed 7]).
  reflexivity.
Defined.

(** ** Further properties of the deduplication *)

Section dedup_algebra.
Import JS Pipeline.
Variable JSON_stringify : Value -> string.

Local Abbreviation keyOf := (Pipeline.keyOf JSON_stringify).
Local Abbreviation deduplicateItems := (Pipeline.deduplicateItems JSON_stringify).

Lemma select_app {A} (m1 m2 : list bool) (l1 l2 : list A) :
  length m1 = length l1 ->
  select (m1 ++ m2) (l1 ++ l2) = (select m1 l1 ++ select m2 l2)%list.
Proof.
  revert l1. induction m1 as [|b m1 IH]; intros [|x l1] Hlen; simpl in *; try done.
  destruct b; simpl; rewrite IH by lia; done.
Qed.

Lemma length_select_le {A} (mask : list bool) (l : list A) :
  (length (select mask l) <= length l)%nat.
Proof. apply sublist_length, select_sublist. Qed.

(** The keys kept are those of the list that are not in [seen]. *)
Lemma elem_of_select_keptMask seen keys k :
  k ∈ select (keptMask seen keys) keys <-> k ∈ keys /\ k ∉ seen.
Proof.
  revert seen. induction keys as [|k0 keys IH]; intros seen; simpl.
  - split; [by intros ?%elem_of_nil|by intros [?%elem_of_nil _]].
  - case_decide as Hin; simpl; rewrite ?elem_of_cons, IH.
    + split; [intros [? ?]; auto|]. intros [[->|?] ?]; [done|auto].
    + rewrite elem_of_union, elem_of_singleton. split.
      * intros [->|[? ?]]; [auto|]. split; [auto|]. intros ?; auto.
      * intros [[->|?] ?]; [auto|].
        destruct (decide (k = k0)); [auto|]. right. split; [done|].
        intros [?|?]; done.
Qed.

Lemma NoDup_select_keptMask seen keys :
  NoDup (select (keptMask seen keys) keys).
Proof.
  revert seen. induction keys as [|k0 keys IH]; intros seen; simpl; [constructor|].
  case_decide as Hin; [apply IH|]. constructor; [|apply IH].
  rewrite elem_of_select_keptMask, elem_of_union, elem_of_singleton. intros [_ Hn].
  apply Hn. by left.
Qed.

Lemma keptMask_fresh seen keys :
  NoDup keys -> (forall k, k ∈ keys -> k ∉ seen) ->
  keptMask seen keys = replicate (length keys) true.
Proof.
  intros Hnd. revert seen. induction Hnd as [|k keys Hk Hnd IH]; intros seen Hfresh;
    simpl; [done|].
  rewrite decide_False by (apply Hfresh; by left). f_equal. apply IH.
  intros k' Hk'. rewrite elem_of_union, elem_of_singleton.
  intros [->|Hin]; [done|]. revert Hin. apply Hfresh. by right.
Qed.

Lemma keptMask_app seen keys1 keys2 :
  keptMask seen (keys1 ++ keys2)
  = (keptMask seen keys1 ++ keptMask (list_to_set keys1 ∪ seen) keys2)%list.
Proof.
  revert seen. induction keys1 as [|k keys1 IH]; intros seen; simpl.
  - by rewrite (left_id_L ∅ (∪)).
  - case_decide as Hin; simpl; rewrite IH; f_equal; f_equal; f_equal.
    + apply set_eq. intros x.
      rewrite !elem_of_union, elem_of_singleton. split; [tauto|].
      intros [[->|?]|?]; auto.
    + apply set_eq. intros x.
      rewrite !elem_of_union, elem_of_singleton. tauto.
Qed.

Lemma keptMask_ext seen seen' keys :
  (forall k, k ∈ keys -> k ∈ seen <-> k ∈ seen') ->
  keptMask seen keys = keptMask seen' keys.
Proof.
  revert seen seen'. induction keys as [|k keys IH]; intros seen seen' Hsame;
    simpl; [done|].
  assert (k ∈ seen <-> k ∈ seen') as Hk by (apply Hsame; by left).
  destruct (decide (k ∈ seen)) as [Hin|Hnin], (decide (k ∈ seen')) as [Hin'|Hnin'];
    try tauto; f_equal; apply IH; intros k' Hk'.
  - apply Hsame. by right.
  - rewrite !elem_of_union. assert (k' ∈ seen <-> k' ∈ seen') by (apply Hsame; by right).
    tauto.
Qed.

Lemma mapM_app_Some {A B} (f : A -> option B) l1 l2 :
  mapM f (l1 ++ l2)
  = k1 ← mapM f l1; k2 ← mapM f l2; Some (k1 ++ k2)%list.
Proof.
  induction l1 as [|x l1 IH]; simpl.
  - by destruct (mapM f l2).
  - destruct (f x); simpl; [|done]. rewrite IH.
    destruct (mapM f l1); simpl; [|done]. by destruct (mapM f l2).
Qed.

End dedup_algebra.

(** X1. What [deduplicateItems] returns has pairwise distinct keys, and
    its keys are exactly the keys of the input: no key is lost and none
    is invented. *)
Theorem deduplicateItems_keys (JSON_stringify : JS.Value -> string)
    (items out : list JS.Value) :
  Pipeline.deduplicateItems JSON_stringify items = Some out ->
  exists keys kept,
    mapM (Pipeline.keyOf JSON_stringify) items = Some keys /\
    mapM (Pipeline.keyOf JSON_stringify) out = Some kept /\
    NoDup kept /\
    forall k, k ∈ kept <-> k ∈ keys.
Proof.
  rewrite deduplicateItems_closed.
  destruct (mapM _ items) as [keys|] eqn:Hm; simpl; [|done]. intros [= <-].
  exists keys, (select (keptMask ∅ keys) keys).
  split; [done|]. split; [by apply mapM_select|].
  split; [apply NoDup_select_keptMask|].
  intros k. rewrite elem_of_select_keptMask. split; [tauto|].
  intros ?. split; [done|apply not_elem_of_empty].
Qed.

Lemma deduplicateItems_keys_witness :
  exists keys kept,
    mapM (Pipeline.keyOf Examples.stringify)
      [Examples.unknown50; Examples.unknown50; Examples.unknown75] = Some keys /\
    mapM (Pipeline.keyOf Examples.stringify)
      [Examples.unknown50; Examples.unknown75] = Some kept /\
    NoDup kept /\
    forall k, k ∈ kept <-> k ∈ keys.
Proof.
  apply (deduplicateItems_keys Examples.stringify
           [Examples.unknown50; Examples.unknown50; Examples.unknown75]).
  by vm_compute.
Defined.

(** X2. [deduplicateItems] never returns more items than it was given,
    and it returns a list whose keys are pairwise distinct unchanged. *)
Theorem deduplicateItems_shrinks (JSON_stringify : JS.Value -> string)
    (items : list JS.Value) :
  (forall out, Pipeline.deduplicateItems JSON_stringify items = Some out ->
     (length out <= length items)%nat) /\
  (forall keys, mapM (Pipeline.keyOf JSON_stringify) items = Some keys ->
     NoDup keys -> Pipeline.deduplicateItems JSON_stringify items = Some items).
Proof.
  split.
  - intros out. rewrite deduplicateItems_closed.
    destruct (mapM _ items); simpl; [|done]. intros [= <-]. apply length_select_le.
  - intros keys Hm Hnd. rewrite deduplicateItems_closed, Hm. simpl.
    rewrite keptMask_fresh by (done || intros; apply not_elem_of_empty).
    rewrite <- (length_mapM _ _ _ Hm). f_equal. apply select_all.
Qed.

Lemma deduplicateItems_shrinks_witness :
  Pipeline.deduplicateItems Examples.stringify
    [Examples.unknown50; Examples.unknown75; Examples.itemA]
  = Some [Examples.unknown50; Examples.unknown75; Examples.itemA].
Proof.
  destruct (deduplicateItems_shrinks Examples.stringify
              [Examples.unknown50; Examples.unknown75; Examples.itemA])
    as (_ & Hsame).
  eapply Hsame; [by vm_compute|].
  repeat (constructor; [rewrite ?elem_of_cons, ?elem_of_nil; intros H;
                        repeat destruct H as [H|H]; try discriminate; done|]).
  constructor.
Defined.

(** X3. Deduplicating a concatenation is deduplicating the first part and
    then the result followed by the second part; so what was kept of the
    first part stays, in place, at the head of the result. *)
Theorem deduplicateItems_app (JSON_stringify : JS.Value -> string)
    (items1 items2 : list JS.Value) :
  Pipeline.deduplicateItems JSON_stringify (items1 ++ items2)
  = Pipeline.deduplicateItems JSON_stringify items1
      ≫= (λ out1, Pipeline.deduplicateItems JSON_stringify (out1 ++ items2)) /\
  (forall out, Pipeline.deduplicateItems JSON_stringify (items1 ++ items2) = Some out ->
     exists out1, Pipeline.deduplicateItems JSON_stringify items1 = Some out1 /\
                  out1 `prefix_of` out).
Proof.
  rewrite !deduplicateItems_closed, mapM_app_Some.
  destruct (mapM _ items1) as [keys1|] eqn:Hm1; simpl; [|done].
  rewrite deduplicateItems_closed, mapM_app_Some.
  rewrite (mapM_select _ (keptMask ∅ keys1) _ _ Hm1). simpl.
  destruct (mapM _ items2) as [keys2|] eqn:Hm2; simpl; [|done].
  assert (select (keptMask ∅ (keys1 ++ keys2)) (items1 ++ items2)
          = (select (keptMask ∅ keys1) items1
             ++ select (keptMask (list_to_set keys1 ∪ ∅) keys2) items2)%list) as Hleft.
  { rewrite keptMask_app, select_app; [done|].
    rewrite length_keptMask. symmetry. by eapply length_mapM. }
  split.
  - rewrite Hleft. f_equal.
    rewrite keptMask_app, keptMask_select, select_app.
    + rewrite (length_select_same _ keys1 items1)
        by (symmetry; by eapply length_mapM).
      rewrite select_all. f_equal. f_equal. apply keptMask_ext. intros k _.
      rewrite !elem_of_union, !elem_of_list_to_set, elem_of_select_keptMask.
      split; [|tauto]. intros [?|?]; [|tauto]. left. split; [done|].
      apply not_elem_of_empty.
    + rewrite length_replicate. apply length_select_same.
      symmetry. by eapply length_mapM.
  - intros out [= <-]. eexists. split; [done|]. rewrite Hleft. by eexists.
Qed.

Lemma deduplicateItems_app_witness :
  exists out1,
    Pipeline.deduplicateItems Examples.stringify
      [Examples.itemA; Examples.itemA_lower] = Some out1 /\
    out1 `prefix_of` [Examples.itemA; Examples.unknown50].
Proof.
  destruct (deduplicateItems_app Examples.stringify
              [Examples.itemA; Examples.itemA_lower]
              [Examples.unknown50; Examples.itemA]) as (_ & Hprefix).
  apply Hprefix. by vm_compute.
Defined.

(** X4. Two items keyed by their description are merged exactly when the
    two descriptions agree once lower-cased and trimmed; the first of the
    two is the one kept. *)
Theorem deduplicateItems_description_normalised
    (JSON_stringify : JS.Value -> string) (a b : JS.Value) (d1 d2 : string) :
  Pipeline.tierOf a = Some Pipeline.DescriptionTier ->
  Pipeline.tierOf b = Some Pipeline.DescriptionTier ->
  JS.getProp a "description" = JS.Str d1 ->
  JS.getProp b "description" = JS.Str d2 ->
  Pipeline.deduplicateItems JSON_stringify [a; b]
  = Some (if decide (JS.trim (JS.toLowerCase d1) = JS.trim (JS.toLowerCase d2))
          then [a] else [a; b]).
Proof.
  assert (forall item d, Pipeline.tierOf item = Some Pipeline.DescriptionTier ->
            JS.getProp item "description" = JS.Str d ->
            Pipeline.keyOf JSON_stringify item
            = Some ("desc:" +:+ JS.trim (JS.toLowerCase d))) as Hkey.
  { intros item d. unfold Pipeline.tierOf, Pipeline.keyOf, JS.member.
    destruct (JS.nullish item); simpl; [done|].
    destruct (JS.truthy _); [done|]. by intros _ ->. }
  intros Ha Hb Hd1 Hd2.
  unfold Pipeline.deduplicateItems. simpl.
  rewrite (Hkey _ _ Ha Hd1), (Hkey _ _ Hb Hd2). simpl.
  rewrite decide_False by apply not_elem_of_empty. simpl.
  destruct (decide (JS.trim (JS.toLowerCase d1) = JS.trim (JS.toLowerCase d2)))
    as [Heq|Hne].
  - rewrite Heq. rewrite decide_True; [done|].
    apply elem_of_union. left. by apply elem_of_singleton.
  - rewrite decide_False; [done|].
    rewrite elem_of_union, elem_of_singleton, elem_of_empty.
    intros [Heq|[]]. apply Hne. simpl in Heq. by injection Heq.
Qed.

Lemma deduplicateItems_description_normalised_witness :
  Pipeline.deduplicateItems Examples.stringify
    [Examples.itemA; Examples.itemA_lower] = Some [Examples.itemA].
Proof.
  exact (deduplicateItems_description_normalised Examples.stringify
           Examples.itemA Examples.itemA_lower "Item A" "item a"
           eq_refl eq_refl eq_refl eq_refl).
Defined.

(** ** Further properties of the orchestration *)

Section orchestration_more.
Import JS Pipeline.
Variable JSON_stringify : Value -> string.
Variable Thrown : Type.
Variable wrapError : Thrown -> ExtractionError.t.
Variable execute : nat -> PageChunk.t -> Settled Thrown (list Value).
Variables startTime endTime : Z.
Variable progress : nat -> PageChunk.t -> option Thrown.
Variable maxArguments : nat.
Variable rangeError : Thrown.

Local Abbreviation entries := (recorded wrapError maxArguments rangeError).
Local Abbreviation itemsOf := PageExtractionResult.items.

Lemma length_failed_succeeded (results : list PageExtractionResult.t) :
  (length (filter (λ res, PageExtractionResult.success res = false) results)
   + length (filter (λ res, PageExtractionResult.success res = true) results)
   = length results)%nat.
Proof.
  induction results as [|res results IH]; [done|]. rewrite !filter_cons.
  destruct (PageExtractionResult.success res);
    [rewrite decide_False, decide_True by done|
     rewrite decide_True, decide_False by done]; simpl; lia.
Qed.

Lemma deduplicateItems_sublist items out :
  deduplicateItems JSON_stringify items = Some out -> out `sublist_of` items.
Proof.
  rewrite deduplicateItems_closed. destruct (mapM _ items); simpl; [|done].
  intros [= <-]. apply select_sublist.
Qed.

Lemma sublist_concat {A} (ks ls : list (list A)) :
  Forall2 sublist ks ls -> concat ks `sublist_of` concat ls.
Proof.
  induction 1 as [|k l ks ls Hkl _ IH]; simpl; [done|]. by apply sublist_app.
Qed.

(** What the iterations gather is part of the items of what they
    record, page by page; and an iteration records one page result or
    two. *)
Lemma gathered_sublist chunks :
  concat (imap (λ j chunk, gathered maxArguments (execute j chunk)) chunks)
  `sublist_of`
  concat (map itemsOf (concat (imap (λ j chunk, entries chunk (execute j chunk)) chunks))).
Proof.
  generalize execute. clear execute.
  induction chunks as [|chunk chunks IH]; intros execute; [done|].
  cbn [imap concat]. rewrite map_app, concat_app.
  apply sublist_app; [|apply (IH (λ j, execute (S j)))].
  unfold recorded, gathered. destruct (execute 0%nat chunk) as [items|error]; [|done].
  destruct (maxArguments <? length items)%nat; simpl; [|by rewrite app_nil_r].
  apply sublist_nil_l.
Qed.

Lemma length_entries chunks :
  (length chunks
   <= length (concat (imap (λ j chunk, entries chunk (execute j chunk)) chunks))
   <= 2 * length chunks)%nat.
Proof.
  generalize execute. clear execute.
  induction chunks as [|chunk chunks IH]; intros execute; [simpl; lia|].
  cbn [imap concat length]. rewrite length_app.
  specialize (IH (λ j, execute (S j))).
  assert (1 <= length (entries chunk (execute 0%nat chunk)) <= 2)%nat.
  { unfold recorded. destruct (execute 0%nat chunk) as [items|error]; [|simpl; lia].
    destruct (maxArguments <? length items)%nat; simpl; lia. }
  simpl in IH. unfold compose. simpl. lia.
Qed.

Lemma aggregate_pageResults chunks pageResults allItems n r :
  aggregate JSON_stringify Thrown startTime endTime chunks pageResults allItems n
  = Resolves r ->
  ExtractionResult.pageResults r = pageResults.
Proof.
  intros Hagg.
  pose proof (aggregate_resolves JSON_stringify Thrown startTime endTime chunks
                pageResults allItems n) as Hres.
  rewrite Hagg in Hres. by destruct Hres as (_ & _ & _ & ? & _).
Qed.

(** Whether every index below [n] occurs in [completion] can be decided. *)
Lemma covers_dec (completion : list nat) n :
  (forall i, (i < n)%nat -> i ∈ completion) \/
  (exists i, (i < n)%nat /\ i ∉ completion).
Proof.
  destruct (decide (Forall (λ i, i ∈ completion) (seq 0 n))) as [Hall|Hnot].
  - left. intros i Hi. rewrite Forall_forall in Hall. apply Hall, elem_of_seq. lia.
  - right. apply not_Forall_Exists in Hnot; [|apply _].
    apply Exists_exists in Hnot as (i & Hi%elem_of_seq & Hnin).
    exists i. split; [lia|done].
Qed.

End orchestration_more.

(** X5. In a resolved run of [extractFromPages] or [extractParallel] the
    deduplication never adds items: [totalItems] is at most
    [itemsBeforeDedup] and the items are a subsequence of the page items
    in page order. There are at least as many page results as chunks and
    at most twice as many, failed and successful ones together; and
    exactly as many when the run is one of [extractParallel], or the
    items of every fulfilled call fit into the arguments of one call. *)
Theorem resolved_run_invariants
    (JSON_stringify : JS.Value -> string) (Thrown : Type)
    (wrapError : Thrown -> ExtractionError.t)
    (execute : nat -> PageChunk.t -> Settled Thrown (list JS.Value))
    (startTime endTime : Z) (progress : nat -> PageChunk.t -> option Thrown)
    (maxArguments : nat) (rangeError : Thrown)
    (completion : list nat) (chunks : list PageChunk.t)
    (r : ExtractionResult.t) :
  let sequential := Pipeline.extractFromPages JSON_stringify Thrown wrapError
                      execute startTime endTime progress maxArguments rangeError
                      chunks in
  let parallel := Pipeline.extractParallel JSON_stringify Thrown wrapError
                    execute startTime endTime progress maxArguments rangeError
                    completion chunks in
  let entriesOf (r : ExtractionResult.t) :=
    (ExtractionResult.pagesFailed r
     + length (filter (λ res, PageExtractionResult.success res = true)
                 (ExtractionResult.pageResults r)))%nat in
  sequential = Resolves r \/ parallel = Resolves r ->
  (Metrics.totalItems (ExtractionResult.metrics r)
   <= Metrics.itemsBeforeDedup (ExtractionResult.metrics r))%nat /\
  ExtractionResult.items r
    `sublist_of` concat (map PageExtractionResult.items (ExtractionResult.pageResults r)) /\
  entriesOf r = length (ExtractionResult.pageResults r) /\
  (ExtractionResult.pagesProcessed r <= entriesOf r
   <= 2 * ExtractionResult.pagesProcessed r)%nat /\
  (parallel = Resolves r \/ fits execute maxArguments chunks ->
   entriesOf r = ExtractionResult.pagesProcessed r).
Proof.
  intros sequential parallel entriesOf Hrun.
  assert (exists pageResults allItems,
            Pipeline.aggregate JSON_stringify Thrown startTime endTime chunks
              pageResults allItems
              (length (concat (map PageExtractionResult.items pageResults)))
            = Resolves r /\
            allItems `sublist_of` concat (map PageExtractionResult.items pageResults) /\
            (length chunks <= length pageResults <= 2 * length chunks)%nat /\
            (parallel = Resolves r \/ fits execute maxArguments chunks ->
             length pageResults = length chunks))
    as (pageResults & allItems & Hagg & Hsub & Hcount & Hexact).
  { destruct Hrun as [Hseq|Hpar].
    - pose proof Hseq as [Hquiet Hagg]%extractFromPages_resolved.
      simpl in Hagg. eexists _, _. split; [exact Hagg|].
      split; [apply gathered_sublist|]. split; [apply length_entries|].
      intros [Hpar|Hfit].
      + apply extractParallel_resolved in Hpar as [_ Hpar]. simpl in Hpar.
        apply aggregate_pageResults in Hagg, Hpar.
        rewrite <- Hagg, Hpar. apply length_parallelTasksOf.
      + destruct (recorded_fits Thrown wrapError execute maxArguments rangeError
                    chunks Hfit) as [-> _].
        by rewrite concat_imap_singleton, length_imap.
    - apply extractParallel_resolved in Hpar as [_ Hagg]. simpl in Hagg.
      eexists _, _. split; [exact Hagg|]. split; [done|].
      rewrite length_parallelTasksOf. split; [lia|done]. }
  pose proof (aggregate_resolves JSON_stringify Thrown startTime endTime chunks
                pageResults allItems
                (length (concat (map PageExtractionResult.items pageResults))))
    as Hres.
  rewrite Hagg in Hres.
  destruct Hres as (Hitems & Hpages & Hfailed & Hresults & Htotal & Hbefore & _).
  pose proof (deduplicateItems_sublist _ _ _ Hitems) as Hdedup.
  assert (entriesOf r = length pageResults) as Hentries.
  { unfold entriesOf. rewrite Hfailed, Hresults. apply length_failed_succeeded. }
  split; [|split; [|split; [|split]]].
  - rewrite Htotal, Hbefore.
    transitivity (length allItems); by apply sublist_length.
  - rewrite Hresults. by transitivity allItems.
  - by rewrite Hresults.
  - rewrite Hentries, Hpages. lia.
  - intros Hcase. rewrite Hentries, Hpages. by apply Hexact.
Qed.

Lemma resolved_run_invariants_witness :
  exists r,
    Pipeline.extractFromPages Examples.stringify string Examples.wrap
      Examples.secondFails 0 5 Examples.noCallback Examples.argumentLimit
      Examples.rangeError Examples.threePages = Resolves r /\
    (Metrics.totalItems (ExtractionResult.metrics r)
     <= Metrics.itemsBeforeDedup (ExtractionResult.metrics r))%nat /\
    (ExtractionResult.pagesProcessed r
     <= ExtractionResult.pagesFailed r
        + length (filter (λ res, PageExtractionResult.success res = true)
                    (ExtractionResult.pageResults r))
     <= 2 * ExtractionResult.pagesProcessed r)%nat.
Proof.
  destruct (Pipeline.extractFromPages Examples.stringify string Examples.wrap
              Examples.secondFails 0 5 Examples.noCallback Examples.argumentLimit
              Examples.rangeError Examples.threePages) as [r| | |] eqn:Hrun;
    [|vm_compute in Hrun; discriminate..].
  exists r. split; [done|].
  destruct (resolved_run_invariants Examples.stringify string Examples.wrap
              Examples.secondFails 0 5 Examples.noCallback Examples.argumentLimit
              Examples.rangeError [] Examples.threePages r (or_introl Hrun))
    as (Hle & _ & _ & Hcount & _).
  by split.
Defined.

(** X6. When the progress callback does not throw and the items of
    every fulfilled call fit into the arguments of one call,
    [extractParallel] resolves or rejects exactly as [extractFromPages]
    does on the same call outcomes and clock readings, with the same
    page results, items and metrics, whatever the order in which its
    tasks complete. In any run it stays pending exactly when some task
    never settles. *)
Theorem extractParallel_order_independent
    (JSON_stringify : JS.Value -> string) (Thrown : Type)
    (wrapError : Thrown -> ExtractionError.t)
    (execute : nat -> PageChunk.t -> Settled Thrown (list JS.Value))
    (startTime endTime : Z) (progress : nat -> PageChunk.t -> option Thrown)
    (maxArguments : nat) (rangeError : Thrown)
    (completion : list nat) (chunks : list PageChunk.t) :
  ((forall i, (i < length chunks)%nat -> i ∈ completion) ->
   quiet progress chunks -> fits execute maxArguments chunks ->
   Pipeline.extractParallel JSON_stringify Thrown wrapError execute
     startTime endTime progress maxArguments rangeError completion chunks
   = Pipeline.extractFromPages JSON_stringify Thrown wrapError execute
       startTime endTime progress maxArguments rangeError chunks) /\
  (Pipeline.extractParallel JSON_stringify Thrown wrapError execute
     startTime endTime progress maxArguments rangeError completion chunks
   = StaysPending <->
   exists i, (i < length chunks)%nat /\ i ∉ completion).
Proof.
  split.
  - intros Hall Hquiet Hfit.
    by rewrite extractParallel_closed, extractFromPages_closed.
  - split.
    + intros Hpending. destruct (covers_dec completion (length chunks)) as [Hall|?];
        [|done].
      unfold Pipeline.extractParallel in Hpending.
      rewrite promiseAll_Some in Hpending by (by rewrite length_parallelTasksOf).
      destruct (Pipeline.gatherItems _ _ _ _ _) as [error|allItems]; [done|].
      pose proof (aggregate_resolves JSON_stringify Thrown startTime endTime
                    chunks
                    (Pipeline.parallelTasksOf Thrown wrapError execute progress chunks)
                    allItems (length allItems)) as Hres.
      by rewrite Hpending in Hres.
    + intros (i & Hi & Hnin). unfold Pipeline.extractParallel.
      destruct (Pipeline.promiseAll _ completion) as [results|] eqn:Hall; [|done].
      apply promiseAll_inv in Hall as [_ Hall]. destruct Hnin. apply Hall.
      by rewrite length_parallelTasksOf.
Qed.

Lemma extractParallel_order_independent_witness :
  Pipeline.extractParallel Examples.stringify string Examples.wrap
    Examples.secondFails 0 5 Examples.noCallback Examples.argumentLimit
    Examples.rangeError [2%nat; 0%nat; 1%nat] Examples.threePages
  = Pipeline.extractFromPages Examples.stringify string Examples.wrap
      Examples.secondFails 0 5 Examples.noCallback Examples.argumentLimit
      Examples.rangeError Examples.threePages.
Proof.
  apply (extractParallel_order_independent Examples.stringify string Examples.wrap
           Examples.secondFails 0 5 Examples.noCallback Examples.argumentLimit
           Examples.rangeError [2%nat; 0%nat; 1%nat] Examples.threePages).
  - intros i Hi. simpl in Hi.
    destruct i as [|[|[|i]]]; [by right; left|by right; right; left|by left|lia].
  - by intros i chunk _.
  - intros i chunk items _. unfold Examples.secondFails.
    destruct (PageChunk.pageNumber chunk =? 2); [done|].
    intros [= <-]. vm_compute. lia.
Defined.

(** X7. [extractStreaming] yields, in some order, exactly one page
    result per chunk, that of the call of the chunk. A resolved
    [extractParallel] on the same call outcomes returns the same page
    result for every chunk at which the progress callback does not
    throw; when it throws at none, what the streaming yields is, in some
    order, exactly what [extractParallel] returns, and, as the streaming
    deduplicates nothing, the item counts of what it yields add up to
    [itemsBeforeDedup]. The streaming mode does not call the progress
    callback, which in [extractParallel] turns a page at which it throws
    into a failed one. *)
Theorem extractStreaming_yields_parallel_results
    (JSON_stringify : JS.Value -> string) (Thrown : Type)
    (wrapError : Thrown -> ExtractionError.t)
    (execute : nat -> PageChunk.t -> Settled Thrown (list JS.Value))
    (startTime endTime : Z) (progress : nat -> PageChunk.t -> option Thrown)
    (maxArguments : nat) (rangeError : Thrown) (completion : list nat)
    (race : list nat -> nat) (fuel : nat) (chunks : list PageChunk.t)
    (r : ExtractionResult.t) :
  (forall pool, pool <> [] -> race pool ∈ pool) ->
  (length chunks <= fuel)%nat ->
  Pipeline.extractParallel JSON_stringify Thrown wrapError execute
    startTime endTime progress maxArguments rangeError completion chunks
  = Resolves r ->
  exists yielded,
    Pipeline.extractStreaming Thrown wrapError execute race fuel chunks
      = Some yielded /\
    yielded ≡ₚ Pipeline.tasksOf Thrown wrapError execute chunks /\
    (forall i chunk,
       chunks !! i = Some chunk -> progress i chunk = None ->
       ExtractionResult.pageResults r !! i
       = Some (Pipeline.pageResult Thrown wrapError chunk (execute i chunk))) /\
    (quiet progress chunks ->
     yielded ≡ₚ ExtractionResult.pageResults r /\
     sum_list_with (λ res, length (PageExtractionResult.items res)) yielded
     = Metrics.itemsBeforeDedup (ExtractionResult.metrics r)).
Proof.
  intros Hrace Hfuel Hpar.
  apply extractParallel_resolved in Hpar as [_ Hagg]. simpl in Hagg.
  pose proof (aggregate_resolves JSON_stringify Thrown startTime endTime chunks
                (Pipeline.parallelTasksOf Thrown wrapError execute progress chunks)
                (concat (map PageExtractionResult.items
                           (Pipeline.parallelTasksOf Thrown wrapError execute
                              progress chunks)))
                (length (concat (map PageExtractionResult.items
                           (Pipeline.parallelTasksOf Thrown wrapError execute
                              progress chunks)))))
    as Hres.
  rewrite Hagg in Hres.
  destruct Hres as (_ & _ & _ & Hresults & _ & Hbefore & _).
  unfold Pipeline.extractStreaming.
  set (tasks := Pipeline.tasksOf Thrown wrapError execute chunks) in *.
  assert (length tasks = length chunks) as Hlen
    by (unfold tasks, Pipeline.tasksOf; by rewrite length_imap).
  destruct (streamLoop_drains race Hrace tasks fuel (seq 0 (length chunks)))
    as (yielded & Hrun & Hperm).
  { apply NoDup_seq. }
  { intros p Hp%elem_of_seq. lia. }
  { by rewrite length_seq. }
  rewrite <- Hlen, omap_lookup_seq in Hperm.
  exists yielded. split; [done|]. split; [done|]. split.
  - intros i chunk Hi Hquiet. rewrite Hresults.
    unfold Pipeline.parallelTasksOf. rewrite list_lookup_imap, Hi. simpl.
    by rewrite Hquiet.
  - intros Hquiet. rewrite Hresults, Hbefore.
    rewrite parallelTasksOf_quiet by done. fold tasks.
    split; [done|]. rewrite length_concat_sum.
    clear -Hperm. induction Hperm; simpl; lia.
Qed.

Lemma extractStreaming_yields_parallel_results_witness :
  exists r yielded,
    Pipeline.extractParallel Examples.stringify string Examples.wrap
      Examples.describes 0 0 Examples.noCallback Examples.argumentLimit
      Examples.rangeError [1%nat; 0%nat] Examples.twoPages = Resolves r /\
    Pipeline.extractStreaming string Examples.wrap Examples.describes
      Examples.youngest 2 Examples.twoPages = Some yielded /\
    yielded ≡ₚ ExtractionResult.pageResults r.
Proof.
  destruct (Pipeline.extractParallel Examples.stringify string Examples.wrap
              Examples.describes 0 0 Examples.noCallback Examples.argumentLimit
              Examples.rangeError [1%nat; 0%nat] Examples.twoPages)
    as [r| | |] eqn:Hrun; [|vm_compute in Hrun; discriminate..].
  destruct (extractStreaming_yields_parallel_results Examples.stringify string
              Examples.wrap Examples.describes 0 0 Examples.noCallback
              Examples.argumentLimit Examples.rangeError [1%nat; 0%nat]
              Examples.youngest 2 Examples.twoPages r)
    as (yielded & Hyield & _ & _ & Hquiet).
  - intros pool Hne. unfold Examples.youngest.
    destruct (last pool) as [p|] eqn:Hlast.
    + by apply last_Some_elem_of.
    + by apply last_None in Hlast.
  - simpl. lia.
  - exact Hrun.
  - destruct Hquiet as [Hperm _]; [by intros i chunk _|].
    by exists r, yielded.
Defined.

(** With a callback that throws at the second page the two differ:
    [extractParallel] reports the page as failed, [extractStreaming]
    yields its items. *)
Example extractStreaming_ignores_callback :
  Pipeline.extractStreaming string Examples.wrap Examples.describes
    Examples.youngest 3 Examples.threePages
  = Some (reverse (Pipeline.tasksOf string Examples.wrap Examples.describes
                     Examples.threePages)) /\
  Pipeline.parallelTasksOf string Examples.wrap Examples.describes
    Examples.throwsAtSecond Examples.threePages !! 1%nat
  = Some (PageExtractionResult.mk [] 2 false
            (Some "Extraction failed: progress failed") (Some "EXTRACTION_ERROR")).
Proof. by split; vm_compute. Qed.

(** X8. When the confidence of every item is a number between 0 and 1,
    as the schemas of the extractors require, the average confidence is a
    number between 0 and 1, under the rounding of the doubles: every
    partial sum is rounded within the interval up to the count so far,
    and the quotient within the unit interval. *)
Theorem calculateAverageConfidence_bounds (items : list JS.Value) (qs : list Qc) :
  qs <> [] ->
  map (λ item, JS.getProp item "confidence") items = map JS.Num qs ->
  Forall (λ q, (0 <= q)%Qc /\ (q <= 1)%Qc) qs ->
  exists m, Pipeline.calculateAverageConfidence items
            = Some (Mean (Float64.Finite m)) /\
            (0 <= m)%Qc /\ (m <= 1)%Qc.
Proof.
  intros Hne Hmap Hall.
  rewrite (calculateAverageConfidence_numbers items qs Hne Hmap).
  unfold meanFloat64.
  destruct (foldl_add_bounds qs 0%Qc 0 Hall) as (total & -> & Htotal0 & Htotal1);
    [by split|].
  simpl in Htotal1.
  destruct qs as [|q qs']; [done|]. set (count := length (q :: qs')) in *.
  unfold Float64.divide. cbn [length] in count. subst count.
  set (n := Float64.Qc_of_nat (S (length qs'))) in *.
  assert (total <= n)%Qc as Htotaln.
  { etrans; [exact Htotal1|]. unfold n. rewrite Qc_of_nat_Z.
    apply (proj1 (Z2Qc_inj_le _ _)). lia. }
  assert (0 < n)%Qc as Hn.
  { unfold n. rewrite Qc_of_nat_Z, <- Z2Qc_inj_0.
    apply (proj1 (Z2Qc_inj_lt 0 (Z.of_nat (S (length qs'))))). lia. }
  pose proof (Qcinv_pos _ Hn) as Hinv.
  destruct (round64_bounds (total / n)%Qc 1) as (m & -> & Hm0 & Hm1); [done| |].
  - unfold Qcdiv. split.
    + apply Qcmult_nonneg_nonneg; [done|by apply Qclt_le_weak].
    + change (Q2Qc (inject_Z 1)) with 1%Qc.
      rewrite <- (Qcmult_inv_r n) by (by apply Qclt_not_eq in Hn).
      apply Qcmult_le_mono_nonneg_r; [by apply Qclt_le_weak|done].
  - by exists m.
Qed.

Lemma calculateAverageConfidence_bounds_witness :
  exists m,
    Pipeline.calculateAverageConfidence [Examples.half; Examples.quarter]
      = Some (Mean (Float64.Finite m)) /\ (0 <= m)%Qc /\ (m <= 1)%Qc.
Proof.
  apply (calculateAverageConfidence_bounds [Examples.half; Examples.quarter]
           [Q2Qc (1 # 2); Q2Qc (1 # 4)]).
  - discriminate.
  - reflexivity.
  - repeat constructor; by vm_compute.
Defined.


(** The scenario of the design document, evaluated on the code: of three
    chunks the second fails; the two others succeed and their items are
    present. *)
Example extractFromPages_second_fails :
  Pipeline.extractFromPages Examples.stringify string Examples.wrap
    Examples.secondFails 0 5 Examples.noCallback Examples.argumentLimit
    Examples.rangeError Examples.threePages
  = Resolves
      (ExtractionResult.mk
         [JS.Obj [("description", JS.Str "Item A")];
          JS.Obj [("description", JS.Str "Unknown")]]
         3 1
         [PageExtractionResult.mk [JS.Obj [("description", JS.Str "Item A")]] 1
            true None None;
          PageExtractionResult.mk [] 2 false
            (Some "Extraction failed: response did not match schema")
            (Some "EXTRACTION_ERROR");
          PageExtractionResult.mk [JS.Obj [("description", JS.Str "Unknown")]] 3
            true None None]
         (Metrics.mk 2 2 5 NoAverage)).
Proof. by vm_compute. Qed.


(** ** Further properties of the grounding utilities *)

Section grounding_more.
Import JS Grounding RawEvidence.

Lemma filter_none {A} (P : A -> Prop) `{!forall x, Decision (P x)} (l : list A) :
  Forall (λ x, ~ P x) l -> filter P l = [].
Proof.
  induction 1 as [|x l Hx _ IH]; [done|]. by rewrite filter_cons_False.
Qed.

Lemma length_omap_le {A B} (f : A -> option B) (l : list A) :
  (length (omap f l) <= length l)%nat.
Proof. induction l as [|x l IH]; csimpl; [done|]. destruct (f x); csimpl; lia. Qed.

Lemma computeMultipleOffsets_omap sourceText evidenceTexts :
  computeMultipleOffsets sourceText evidenceTexts
  = omap (λ t, computeEvidenceOffsets sourceText t 0) evidenceTexts.
Proof.
  induction evidenceTexts as [|t rest IH]; simpl; [done|].
  by destruct (computeEvidenceOffsets sourceText t 0); rewrite IH.
Qed.

(** What a resolved span is, from the two facts on [indexOf]. *)
Lemma computeEvidenceOffsets_Some sourceText evidenceText startFrom span :
  computeEvidenceOffsets sourceText evidenceText startFrom = Some span ->
  text span = evidenceText /\ evidenceText <> "" /\
  startFrom <= startOffset span /\
  endOffset span = startOffset span + len evidenceText /\
  occursAt sourceText evidenceText (startOffset span) /\
  (forall j, startFrom <= j < startOffset span -> ~ occursAt sourceText evidenceText j) /\
  JS.substring sourceText (startOffset span) (endOffset span) = evidenceText.
Proof.
  unfold computeEvidenceOffsets.
  destruct (falsyStr evidenceText) eqn:He; [done|].
  destruct (falsyStr sourceText) eqn:Hs; [done|]. simpl.
  assert (evidenceText <> "") as Hne by (intros ->; done).
  destruct (Z.eqb_spec (indexOf sourceText evidenceText startFrom) (-1)) as [|Hf];
    [done|].
  intros [= <-]. simpl.
  destruct (indexOf_found _ _ _ _ Hne eq_refl Hf) as (? & ? & ? & ?). done.
Qed.

Lemma resolveRaw_compute sourceText rawSpan :
  resolveRaw sourceText rawSpan
  = rawSpan ≫= (λ text, computeEvidenceOffsets sourceText text 0).
Proof.
  destruct rawSpan as [text|]; simpl; [|done].
  unfold computeEvidenceOffsets. by destruct (falsyStr text).
Qed.

Lemma processRawEvidence_snoc sourceText rawEvidence key rawSpan :
  processRawEvidence sourceText (rawEvidence ++ [(key, rawSpan)])
  = setOwn key (resolveRaw sourceText rawSpan)
      (processRawEvidence sourceText rawEvidence).
Proof. unfold processRawEvidence. by rewrite foldl_app. Qed.

Lemma processRawEvidence_lookup sourceText rawEvidence key :
  processRawEvidence sourceText rawEvidence !! key
  = if decide (key = "__proto__") then None
    else resolveRaw sourceText
           <$> (snd <$> last (filter (λ entry, fst entry = key) rawEvidence)).
Proof.
  induction rawEvidence as [|[k raw] rawEvidence IH] using rev_ind.
  - unfold processRawEvidence. simpl. rewrite lookup_empty. by case_decide.
  - rewrite processRawEvidence_snoc, filter_app, filter_cons, filter_nil.
    unfold setOwn. simpl.
    destruct (decide (k = "__proto__")) as [->|Hk].
    + rewrite IH. destruct (decide (key = "__proto__")) as [|Hne]; [done|].
      rewrite decide_False by done. by rewrite app_nil_r.
    + destruct (decide (k = key)) as [->|Hne].
      * rewrite lookup_insert_eq, decide_False by done. by rewrite last_snoc.
      * rewrite lookup_insert_ne by done. by rewrite IH, app_nil_r.
Qed.

End grounding_more.

(** X9. Every span that [computeMultipleOffsets] returns is a span of one
    of the given texts that names where the text first occurs in the
    source: the substring between its offsets is its text. *)
Theorem computeMultipleOffsets_valid (sourceText : string)
    (evidenceTexts : list string) :
  Forall (λ span,
            Grounding.text span ∈ evidenceTexts /\
            JS.substring sourceText (Grounding.startOffset span)
              (Grounding.endOffset span) = Grounding.text span /\
            0 <= Grounding.startOffset span /\
            Grounding.endOffset span <= JS.len sourceText /\
            forall j, 0 <= j < Grounding.startOffset span ->
                      ~ JS.occursAt sourceText (Grounding.text span) j)
    (Grounding.computeMultipleOffsets sourceText evidenceTexts).
Proof.
  rewrite computeMultipleOffsets_omap. apply Forall_forall. intros span Hin.
  apply list_elem_of_omap in Hin as (t & Ht & Hspan).
  apply computeEvidenceOffsets_Some in Hspan
    as (Htext & Hne & Hle & Hend & [_ Hocc] & Hmin & Hsub).
  rewrite Htext. split; [done|]. split; [done|]. split; [done|]. split; [|done].
  pose proof (occurrence_fits _ _ _ Hne Hocc) as Hfit.
  rewrite Hend. unfold JS.len. lia.
Qed.

(** X10. [computeMultipleOffsets] resolves every text on its own, from
    offset 0: a span is returned exactly for the texts that
    [computeEvidenceOffsets] resolves, the result of a concatenation of
    text lists is the concatenation of the results, and a text listed
    twice gets the same span twice. *)
Theorem computeMultipleOffsets_independent (sourceText : string) :
  (forall evidenceTexts span,
     span ∈ Grounding.computeMultipleOffsets sourceText evidenceTexts <->
     exists t, t ∈ evidenceTexts /\
               Grounding.computeEvidenceOffsets sourceText t 0 = Some span) /\
  (forall texts1 texts2,
     Grounding.computeMultipleOffsets sourceText (texts1 ++ texts2)
     = (Grounding.computeMultipleOffsets sourceText texts1
        ++ Grounding.computeMultipleOffsets sourceText texts2)%list) /\
  (forall t span,
     Grounding.computeEvidenceOffsets sourceText t 0 = Some span ->
     Grounding.computeMultipleOffsets sourceText [t; t] = [span; span]) /\
  (forall evidenceTexts,
     (length (Grounding.computeMultipleOffsets sourceText evidenceTexts)
      <= length evidenceTexts)%nat).
Proof.
  split; [|split; [|split]].
  - intros evidenceTexts span. rewrite computeMultipleOffsets_omap.
    apply list_elem_of_omap.
  - intros texts1 texts2. rewrite !computeMultipleOffsets_omap. apply omap_app.
  - intros t span Hspan. simpl. by rewrite Hspan.
  - intros evidenceTexts. rewrite computeMultipleOffsets_omap.
    apply length_omap_le.
Qed.

Lemma computeMultipleOffsets_independent_witness :
  Grounding.computeMultipleOffsets "Item: Widget, Item: Gadget" ["Item:"; "Item:"]
  = [Grounding.mkSpan "Item:" 0 5; Grounding.mkSpan "Item:" 0 5].
Proof.
  destruct (computeMultipleOffsets_independent "Item: Widget, Item: Gadget")
    as (_ & _ & Htwice & _).
  by apply Htwice.
Defined.

(** X11. The record that [processRawEvidence] returns has an own
    property for every key of the raw evidence other than ["__proto__"]
    and for no other key; a key whose span is missing, empty or not found
    in the source is kept with the value [null], and any other key holds
    the span that [computeEvidenceOffsets] resolves from offset 0, whose
    offsets delimit its text in the source. *)
Theorem processRawEvidence_keys (sourceText : string)
    (rawEvidence : list (string * option string)) :
  NoDup (map fst rawEvidence) ->
  (forall key rawSpan, (key, rawSpan) ∈ rawEvidence -> key <> "__proto__" ->
     RawEvidence.processRawEvidence sourceText rawEvidence !! key
     = Some (rawSpan ≫= (λ text, Grounding.computeEvidenceOffsets sourceText text 0))) /\
  (forall key, key ∉ map fst rawEvidence ->
     RawEvidence.processRawEvidence sourceText rawEvidence !! key = None) /\
  (forall key span,
     RawEvidence.processRawEvidence sourceText rawEvidence !! key = Some (Some span) ->
     JS.substring sourceText (Grounding.startOffset span) (Grounding.endOffset span)
     = Grounding.text span).
Proof.
  intros Hnd.
  assert (forall key rawSpan, (key, rawSpan) ∈ rawEvidence ->
            last (filter (λ entry, fst entry = key) rawEvidence)
            = Some (key, rawSpan)) as Hlast.
  { clear -Hnd. induction rawEvidence as [|[k raw] rest IH]; intros key rawSpan Hin;
      [by apply elem_of_nil in Hin|].
    simpl in Hnd. apply NoDup_cons in Hnd as [Hk Hnd]. rewrite filter_cons. simpl.
    apply elem_of_cons in Hin as [[= <- <-]|Hin].
    - rewrite decide_True by done.
      assert (filter (λ entry, fst entry = key) rest = []) as ->; [|done].
      apply filter_none, Forall_forall. intros [k' raw'] Hin' ?. simpl in *.
      subst. apply Hk. apply list_elem_of_fmap. by exists (key, raw').
    - rewrite decide_False.
      + by apply IH.
      + intros ->. apply Hk. apply list_elem_of_fmap. by exists (key, rawSpan). }
  split; [|split].
  - intros key rawSpan Hin Hne.
    rewrite processRawEvidence_lookup, decide_False, (Hlast _ _ Hin) by done.
    simpl. by rewrite resolveRaw_compute.
  - intros key Hnin. rewrite processRawEvidence_lookup. case_decide; [done|].
    assert (filter (λ entry, fst entry = key) rawEvidence = []) as ->; [|done].
    apply filter_none, Forall_forall. intros [k raw] Hin ?. simpl in *.
    subst. apply Hnin. apply list_elem_of_fmap. by exists (key, raw).
  - intros key span. rewrite processRawEvidence_lookup. case_decide; [done|].
    destruct (last _) as [[k raw]|]; simpl; [|done].
    rewrite resolveRaw_compute. destruct raw as [text|]; simpl; [|done].
    intros [= Hspan]. apply computeEvidenceOffsets_Some in Hspan
      as (Htext & _ & _ & _ & _ & _ & Hsub).
    by rewrite Htext.
Qed.

Lemma processRawEvidence_keys_witness :
  RawEvidence.processRawEvidence "Total: $1,234.56"
    [("totalSpan", Some "$1,234.56"); ("descriptionSpan", Some "Widget");
     ("unitSpan", None)] !! "descriptionSpan" = Some None /\
  RawEvidence.processRawEvidence "Total: $1,234.56"
    [("totalSpan", Some "$1,234.56"); ("descriptionSpan", Some "Widget");
     ("unitSpan", None)] !! "totalSpan"
  = Some (Some (Grounding.mkSpan "$1,234.56" 7 16)).
Proof.
  assert (NoDup (map fst [("totalSpan", Some "$1,234.56");
                          ("descriptionSpan", Some "Widget");
                          ("unitSpan", @None string)])) as Hnd.
  { simpl. repeat (constructor; [rewrite ?elem_of_cons, ?elem_of_nil; intros H;
                        repeat destruct H as [H|H]; try discriminate; done|]).
    constructor. }
  destruct (processRawEvidence_keys "Total: $1,234.56" _ Hnd) as (Hkey & _ & _).
  split.
  - apply (Hkey "descriptionSpan" (Some "Widget")); [|discriminate].
    rewrite !elem_of_cons. auto.
  - apply (Hkey "totalSpan" (Some "$1,234.56")); [|discriminate].
    rewrite !elem_of_cons. auto.
Defined.

(** ** Properties of the rendered segments *)

Section viewer_facts.
Import JS JSText Viewer.

Lemma str_app_cons (x : ascii) (a b : string) :
  String x a +:+ b = String x (a +:+ b).
Proof. reflexivity. Qed.

Lemma str_app_assoc (a b c : string) : (a +:+ b) +:+ c = a +:+ (b +:+ c).
Proof.
  induction a as [|x a IH]; [done|]. by rewrite !str_app_cons, IH.
Qed.

Lemma str_app_nil_r (a : string) : a +:+ "" = a.
Proof. induction a as [|x a IH]; [done|]. by rewrite str_app_cons, IH. Qed.

Lemma str_length_app (a b : string) :
  String.length (a +:+ b) = (String.length a + String.length b)%nat.
Proof.
  induction a as [|x a IH]; [done|]. rewrite str_app_cons. simpl. by rewrite IH.
Qed.

Lemma rendered_app segs1 segs2 :
  rendered (segs1 ++ segs2) = rendered segs1 +:+ rendered segs2.
Proof.
  induction segs1 as [|seg segs1 IH]; [done|].
  change (rendered ((seg :: segs1) ++ segs2))
    with (text seg +:+ rendered (segs1 ++ segs2)).
  change (rendered (seg :: segs1)) with (text seg +:+ rendered segs1).
  rewrite IH. symmetry. apply str_app_assoc.
Qed.

Lemma substring_0_app a b s :
  String.substring 0 a s +:+ String.substring a b s = String.substring 0 (a + b) s.
Proof.
  revert s. induction a as [|a IH]; intros s; simpl.
  - by destruct s.
  - destruct s as [|c s]; simpl; [by destruct b|].
    by rewrite str_app_cons, IH.
Qed.

Lemma substring_0_all n s :
  (String.length s <= n)%nat -> String.substring 0 n s = s.
Proof.
  revert n. induction s as [|c s IH]; intros n Hn; [by destruct n|].
  destruct n as [|n]; simpl in *; [lia|]. rewrite IH; [done|lia].
Qed.

Lemma length_substring_n n m s :
  (String.length (String.substring n m s) <= m)%nat.
Proof.
  revert n m. induction s as [|c s IH]; intros n m.
  - destruct n, m; simpl; lia.
  - destruct n as [|n]; simpl.
    + destruct m as [|m]; simpl; [lia|]. specialize (IH 0%nat m). lia.
    + apply IH.
Qed.

Lemma relIndex_nonneg s i : 0 <= i -> relIndex s i = Z.to_nat (Z.min i (len s)).
Proof. intros Hi. unfold relIndex. by destruct (Z.ltb_spec i 0); [lia|]. Qed.

(** Within the bounds of the string, [slice] is the plain substring. *)
Lemma slice_within s a b :
  0 <= a <= b -> b <= len s ->
  slice s a b = String.substring (Z.to_nat a) (Z.to_nat (b - a)) s.
Proof.
  intros Hab Hb. unfold slice. rewrite !relIndex_nonneg by lia.
  f_equal; lia.
Qed.

Lemma substring_within s a b :
  0 <= a <= b -> b <= len s -> JS.substring s a b = slice s a b.
Proof.
  intros Hab Hb. rewrite slice_within by done.
  unfold JS.substring, clamp. f_equal; lia.
Qed.

(** The loop extends a rendering of the source up to the cursor into a
    rendering of the whole source. *)
Lemma segmentsLoop_rendered sourceText highlights cursor result :
  0 <= cursor <= len sourceText ->
  Forall (λ h, startOf h <= endOf h) highlights ->
  rendered result = String.substring 0 (Z.to_nat cursor) sourceText ->
  rendered (segmentsLoop sourceText highlights cursor result) = sourceText.
Proof.
  intros Hc Hwf. revert cursor result Hc.
  induction Hwf as [|h rest Hh _ IH]; intros cursor result Hc Hres; simpl.
  - destruct (Z.ltb_spec cursor (len sourceText)).
    + rewrite rendered_app, Hres. simpl. rewrite str_app_nil_r.
      unfold sliceFrom. rewrite slice_within by lia.
      rewrite substring_0_app. apply substring_0_all. unfold len in *. lia.
    + rewrite Hres. apply substring_0_all. unfold len in *. lia.
  - destruct (Z.ltb_spec (startOf h) cursor); simpl; [by apply IH|].
    destruct (Z.gtb_spec (endOf h) (len sourceText)); [by apply IH|].
    apply IH; [lia|].
    rewrite rendered_app. simpl. rewrite str_app_nil_r.
    rewrite (slice_within _ (startOf h)) by lia.
    destruct (Z.gtb_spec (startOf h) cursor).
    + rewrite rendered_app, Hres. simpl. rewrite str_app_nil_r.
      rewrite slice_within by lia. rewrite substring_0_app.
      replace (Z.to_nat cursor + Z.to_nat (startOf h - cursor))%nat
        with (Z.to_nat (startOf h)) by lia.
      rewrite substring_0_app. f_equal. lia.
    + rewrite Hres. replace cursor with (startOf h) by lia.
      rewrite substring_0_app. f_equal. lia.
Qed.

(** A highlighted segment of the loop comes from the given segments or is
    the slice of one of the highlights, which ends within the source. *)
Lemma segmentsLoop_highlighted sourceText highlights cursor result seg h :
  seg ∈ segmentsLoop sourceText highlights cursor result ->
  highlight seg = Some h ->
  seg ∈ result \/
  (h ∈ highlights /\ endOf h <= len sourceText /\
   text seg = slice sourceText (startOf h) (endOf h)).
Proof.
  revert cursor result. induction highlights as [|x rest IH]; intros cursor result;
    simpl.
  - destruct (cursor <? len sourceText); [|by left].
    intros [?|Hs%list_elem_of_singleton]%elem_of_app; [by left|by subst].
  - destruct (Z.ltb_spec (startOf x) cursor); simpl.
    { intros Hin Hh. destruct (IH _ _ Hin Hh) as [?|(? & ? & ?)]; [by left|].
      right. split; [by right|done]. }
    destruct (Z.gtb_spec (endOf x) (len sourceText)).
    { intros Hin Hh. destruct (IH _ _ Hin Hh) as [?|(? & ? & ?)]; [by left|].
      right. split; [by right|done]. }
    intros Hin Hh. destruct (IH _ _ Hin Hh) as [Hres|(Hrest & Hend & Htext)].
    + apply elem_of_app in Hres as [Hres|Hs%list_elem_of_singleton].
      * destruct (startOf x >? cursor); [|by left].
        apply elem_of_app in Hres as [?|Hs%list_elem_of_singleton];
          [by left|by subst].
      * subst seg. simpl in Hh. injection Hh as <-. right.
        split; [by left|]. by split.
    + right. split; [by right|done].
Qed.

Lemma insertHighlight_Permutation h sorted :
  insertHighlight h sorted ≡ₚ h :: sorted.
Proof.
  induction sorted as [|x rest IH]; simpl; [done|].
  destruct (startOf h <=? startOf x); [done|]. rewrite IH. apply perm_swap.
Qed.

Lemma sortedHighlights_Permutation highlights :
  sortedHighlights highlights ≡ₚ highlights.
Proof.
  induction highlights as [|h rest IH]; simpl; [done|].
  by rewrite insertHighlight_Permutation, IH.
Qed.

End viewer_facts.

Section viewer_order.
Import JS JSText Viewer.

Lemma segmentsLoop_shown sourceText highlights cursor result :
  exists shown,
    omap highlight (segmentsLoop sourceText highlights cursor result)
    = (omap highlight result ++ shown)%list /\
    inOrderFrom sourceText cursor shown /\
    shown `sublist_of` highlights.
Proof.
  revert cursor result. induction highlights as [|h rest IH]; intros cursor result;
    simpl.
  - exists []. rewrite app_nil_r. split; [|done].
    destruct (cursor <? len sourceText); [|done].
    rewrite omap_app. simpl. by rewrite app_nil_r.
  - destruct (Z.ltb_spec (startOf h) cursor); simpl.
    { destruct (IH cursor result) as (shown & -> & Hord & Hsub).
      exists shown. split; [done|]. split; [done|]. by apply sublist_cons. }
    destruct (Z.gtb_spec (endOf h) (len sourceText)).
    { destruct (IH cursor result) as (shown & -> & Hord & Hsub).
      exists shown. split; [done|]. split; [done|]. by apply sublist_cons. }
    destruct (IH (endOf h)
                ((if startOf h >? cursor
                  then result ++ [mkSegment (slice sourceText cursor (startOf h)) None]
                  else result)
                 ++ [mkSegment (slice sourceText (startOf h) (endOf h)) (Some h)])%list)
      as (shown & -> & Hord & Hsub).
    exists (h :: shown). split; [|split; [done|by apply sublist_skip]].
    rewrite omap_app. simpl.
    destruct (startOf h >? cursor); [rewrite omap_app; simpl|];
      by rewrite ?app_nil_r, <- app_assoc.
Qed.

End viewer_order.

(** X12. When every highlight has its start offset at or before its end
    offset, the texts of the segments, put one after the other, are the
    source text: whichever highlights are skipped as overlapping or out
    of range, no character is lost or shown twice. *)
Theorem segments_render_source (sourceText : string)
    (highlights : list Viewer.Highlight) :
  Forall (λ h, Viewer.startOf h <= Viewer.endOf h) highlights ->
  Viewer.rendered (Viewer.segments sourceText highlights) = sourceText.
Proof.
  intros Hwf. unfold Viewer.segments. apply segmentsLoop_rendered.
  - unfold JS.len. lia.
  - by rewrite sortedHighlights_Permutation.
  - by destruct sourceText.
Qed.

Lemma segments_render_source_witness :
  Viewer.rendered
    (Viewer.segments "Total: $1,234.56 due"
       [Viewer.overlapping; Viewer.totalHighlight])
  = "Total: $1,234.56 due".
Proof.
  apply segments_render_source.
  repeat constructor; by vm_compute.
Defined.

(** A highlight whose end offset is before its start offset breaks the
    rendering: the text after its end is shown twice. *)
Example segments_reversed_span :
  Viewer.rendered (Viewer.segments "0123456789" [Viewer.reversed])
  = "0123423456789".
Proof. reflexivity. Qed.

(** X13. When the span of every highlight was resolved by
    [computeEvidenceOffsets] on the source text, the segments render the
    source text, and every highlighted segment shows the evidence text of
    its highlight. *)
Theorem segments_show_evidence (sourceText : string)
    (highlights : list Viewer.Highlight) :
  Forall (λ h, exists evidenceText startFrom,
            Grounding.computeEvidenceOffsets sourceText evidenceText startFrom
            = Some (Viewer.span h)) highlights ->
  Viewer.rendered (Viewer.segments sourceText highlights) = sourceText /\
  forall seg h,
    seg ∈ Viewer.segments sourceText highlights ->
    Viewer.highlight seg = Some h ->
    h ∈ highlights /\ Viewer.text seg = Grounding.text (Viewer.span h).
Proof.
  intros Hres.
  assert (Forall (λ h, 0 <= Viewer.startOf h <= Viewer.endOf h /\
                       Viewer.endOf h <= JS.len sourceText /\
                       JS.substring sourceText (Viewer.startOf h) (Viewer.endOf h)
                       = Grounding.text (Viewer.span h)) highlights) as Hvalid.
  { eapply Forall_impl; [exact Hres|]. intros h (t & from & Hspan). simpl in *.
    apply computeEvidenceOffsets_Some in Hspan
      as (Htext & Hne & _ & Hend & [H0 Hocc] & _ & Hsub).
    pose proof (occurrence_fits _ _ _ Hne Hocc) as Hfit.
    unfold Viewer.startOf, Viewer.endOf, JS.len in *. rewrite Htext.
    split; [lia|]. split; [lia|done]. }
  split.
  - apply segmentsLoop_rendered; [unfold JS.len; lia| |by destruct sourceText].
    rewrite sortedHighlights_Permutation.
    eapply Forall_impl; [exact Hvalid|]. intros h (? & _). simpl in *. lia.
  - intros seg h Hin Hh. unfold Viewer.segments in Hin.
    destruct (segmentsLoop_highlighted _ _ _ _ _ _ Hin Hh)
      as [Hnil|(Hmem & _ & Htext)]; [by apply elem_of_nil in Hnil|].
    rewrite sortedHighlights_Permutation in Hmem. split; [done|].
    rewrite Forall_forall in Hvalid.
    destruct (Hvalid h Hmem) as (Hord & Hend & Hsub).
    by rewrite Htext, <- substring_within.
Qed.

Lemma segments_show_evidence_witness :
  Viewer.segments "Total: $1,234.56 due" [Viewer.totalHighlight]
  = [Viewer.mkSegment "Total: " None;
     Viewer.mkSegment "$1,234.56" (Some Viewer.totalHighlight);
     Viewer.mkSegment " due" None] /\
  Viewer.rendered (Viewer.segments "Total: $1,234.56 due" [Viewer.totalHighlight])
  = "Total: $1,234.56 due".
Proof.
  split; [reflexivity|].
  apply (segments_show_evidence "Total: $1,234.56 due" [Viewer.totalHighlight]).
  constructor; [|constructor]. by exists "$1,234.56", 0.
Defined.

(** X14. The highlights that the segments show never overlap: they are
    some of the given highlights, taken in the order of the sort by start
    offset, each ends within the source text, the first starts at or
    after offset 0 and every other one at or after the end of the one
    shown before it. *)
Theorem segments_never_overlap (sourceText : string)
    (highlights : list Viewer.Highlight) :
  Viewer.inOrderFrom sourceText 0
    (omap Viewer.highlight (Viewer.segments sourceText highlights)) /\
  omap Viewer.highlight (Viewer.segments sourceText highlights)
    `sublist_of` Viewer.sortedHighlights highlights.
Proof.
  unfold Viewer.segments.
  destruct (segmentsLoop_shown sourceText (Viewer.sortedHighlights highlights) 0 [])
    as (shown & -> & Hord & Hsub).
  done.
Qed.

(** ** Properties of the chunking utilities *)

Section chunking_facts.
Import JS JSText Chunking.

Lemma trimEnd_cons c s :
  trimEnd (String c s)
  = match trimEnd s with
    | EmptyString => if isWhiteSpace c then EmptyString else String c EmptyString
    | t => String c t
    end.
Proof. reflexivity. Qed.

Lemma trimEnd_idempotent s : trimEnd (trimEnd s) = trimEnd s.
Proof.
  induction s as [|c s IH]; [done|]. rewrite trimEnd_cons.
  destruct (trimEnd s) as [|d t] eqn:Ht.
  - destruct (isWhiteSpace c) eqn:Hc; [done|].
    rewrite trimEnd_cons. simpl. by rewrite Hc.
  - rewrite trimEnd_cons, IH. done.
Qed.

Lemma trimStart_clean s : startsClean (trimStart s).
Proof.
  induction s as [|c s IH]; simpl; [done|].
  by destruct (isWhiteSpace c) eqn:Hc.
Qed.

Lemma trimStart_fixed s : startsClean s -> trimStart s = s.
Proof. destruct s as [|c s]; simpl; [done|]. by intros ->. Qed.

Lemma trimEnd_clean s : startsClean s -> startsClean (trimEnd s).
Proof.
  destruct s as [|c s]; [done|]. simpl. intros Hc.
  destruct (trimEnd s); by rewrite ?Hc.
Qed.

Lemma trim_idempotent s : trim (trim s) = trim s.
Proof.
  unfold trim. rewrite (trimStart_fixed (trimEnd (trimStart s))).
  - apply trimEnd_idempotent.
  - apply trimEnd_clean, trimStart_clean.
Qed.

Lemma length_trimStart s : (String.length (trimStart s) <= String.length s)%nat.
Proof.
  induction s as [|c s IH]; simpl; [done|].
  destruct (isWhiteSpace c); simpl; lia.
Qed.

Lemma length_trimEnd s : (String.length (trimEnd s) <= String.length s)%nat.
Proof.
  induction s as [|c s IH]; [done|]. rewrite trimEnd_cons.
  destruct (trimEnd s); [destruct (isWhiteSpace c)|]; simpl in *; lia.
Qed.

Lemma length_trim s : (String.length (trim s) <= String.length s)%nat.
Proof.
  unfold trim. pose proof (length_trimEnd (trimStart s)).
  pose proof (length_trimStart s). lia.
Qed.

Lemma trim_empty : trim "" = "".
Proof. reflexivity. Qed.

(** The scan of [split] always gives at least one piece. *)
Lemma splitScan_nonempty sep s skip piece : splitScan sep s skip piece <> [].
Proof.
  revert skip piece.
  induction s as [|c s IH]; intros skip piece; cbn [splitScan]; [done|].
  destruct skip; [|apply IH].
  destruct (String.prefix sep (String c s)); [done|apply IH].
Qed.

(** Without an occurrence of the separator the scan gives one piece. *)
Lemma splitScan_no_match sep s i piece :
  search sep s i = None -> splitScan sep s 0 piece = [piece +:+ s].
Proof.
  revert i piece. induction s as [|c s IH]; intros i piece; rewrite search_unfold.
  - destruct (String.prefix sep ""); [done|]. intros _. cbn [splitScan].
    by rewrite str_app_nil_r.
  - destruct (String.prefix sep (String c s)) eqn:Hp; [done|]. intros Hs.
    cbn [splitScan]. rewrite Hp, (IH _ _ Hs), str_app_assoc. done.
Qed.

Lemma searchBack_le pat s i j : searchBack pat s i = Some j -> (j <= i)%nat.
Proof.
  induction i as [|i IH]; cbn [searchBack].
  - destruct (String.prefix pat (dropStr 0 s)); [|done]. intros [= <-]. lia.
  - destruct (String.prefix pat (dropStr (S i) s)); [intros [= <-]; lia|].
    intros Hj%IH. lia.
Qed.

(** [lastIndexOf] is [-1] or an index at or before the position. *)
Lemma lastIndexOf_bounds s pat position :
  -1 <= lastIndexOf s pat position <= Z.max position 0.
Proof.
  unfold lastIndexOf. destruct (len s <? len pat); [lia|].
  destruct (searchBack _ _ _) as [j|] eqn:Hj; [|lia].
  apply searchBack_le in Hj. lia.
Qed.

Lemma length_slice_0 s k :
  0 <= k -> (String.length (slice s 0 k) <= Z.to_nat k)%nat.
Proof.
  intros Hk. unfold slice. rewrite !relIndex_nonneg by lia.
  pose proof (length_substring_n (Z.to_nat (Z.min 0 (len s)))
                (Z.to_nat (Z.min k (len s)) - Z.to_nat (Z.min 0 (len s))) s).
  unfold len in *. lia.
Qed.

Lemma length_sliceFrom s k :
  0 <= k -> (String.length (sliceFrom s k) <= String.length s - Z.to_nat k)%nat.
Proof.
  intros Hk. unfold sliceFrom, slice. rewrite !relIndex_nonneg by (unfold len; lia).
  pose proof (length_substring_le (Z.to_nat (Z.min k (len s)))
                (Z.to_nat (Z.min (len s) (len s)) - Z.to_nat (Z.min k (len s))) s).
  pose proof (length_substring_n (Z.to_nat (Z.min k (len s)))
                (Z.to_nat (Z.min (len s) (len s)) - Z.to_nat (Z.min k (len s))) s).
  unfold len in *. lia.
Qed.

Lemma sliceFrom_0 s : sliceFrom s 0 = s.
Proof.
  unfold sliceFrom. rewrite slice_within by (unfold len; lia).
  apply substring_0_all. unfold len. lia.
Qed.

Lemma slice_0_all s : slice s 0 (len s) = s.
Proof. apply sliceFrom_0. Qed.

Lemma sliceFrom_all s : sliceFrom s (len s) = "".
Proof.
  pose proof (length_sliceFrom s (len s)) as Hlen.
  destruct (sliceFrom s (len s)); [done|].
  unfold len in Hlen. simpl in Hlen. lia.
Qed.

Lemma nonWhite_app a b : nonWhite (a +:+ b) = (nonWhite a ++ nonWhite b)%list.
Proof.
  induction a as [|c a IH]; [done|]. rewrite str_app_cons. simpl.
  destruct (isWhiteSpace c); by rewrite IH.
Qed.

Lemma nonWhite_trimStart s : nonWhite (trimStart s) = nonWhite s.
Proof.
  induction s as [|c s IH]; [done|]. simpl.
  destruct (isWhiteSpace c) eqn:Hc; [done|]. simpl. by rewrite Hc.
Qed.

Lemma nonWhite_trimEnd s : nonWhite (trimEnd s) = nonWhite s.
Proof.
  induction s as [|c s IH]; [done|]. rewrite trimEnd_cons.
  cbn [nonWhite]. rewrite <- IH.
  destruct (trimEnd s) as [|d t]; [|done].
  destruct (isWhiteSpace c) eqn:Hc; simpl; by rewrite ?Hc.
Qed.

(** Trimming removes white space only. *)
Lemma nonWhite_trim s : nonWhite (trim s) = nonWhite s.
Proof. unfold trim. by rewrite nonWhite_trimEnd, nonWhite_trimStart. Qed.

(** The two slices of one iteration make up the remaining text. *)
Lemma slice_sliceFrom s k : 0 <= k -> slice s 0 k +:+ sliceFrom s k = s.
Proof.
  intros Hk. unfold sliceFrom, slice. rewrite !relIndex_nonneg by (unfold len; lia).
  replace (Z.to_nat (Z.min 0 (len s))) with 0%nat by lia.
  rewrite Nat.sub_0_r, substring_0_app. apply substring_0_all.
  unfold len. lia.
Qed.

Lemma numbersFrom_S first n :
  first :: numbersFrom (first + 1) n = numbersFrom first (S n).
Proof.
  unfold numbersFrom. simpl. rewrite Z.add_0_r. f_equal.
  rewrite <- seq_shift, map_map. apply map_ext. intros i. lia.
Qed.

(** For a positive size the cut is at least 1 and at most one more than
    the size, and within the remaining text. *)
Lemma splitIndexOf_bounds remaining maxChunkSize :
  1 <= maxChunkSize -> 0 < len remaining ->
  1 <= splitIndexOf remaining maxChunkSize <= maxChunkSize + 1 /\
  splitIndexOf remaining maxChunkSize <= len remaining.
Proof.
  intros Hmax Hlen. unfold splitIndexOf.
  destruct (Z.gtb_spec (len remaining) maxChunkSize); [|lia].
  pose proof (lastIndexOf_bounds remaining (newline +:+ newline) maxChunkSize).
  pose proof (lastIndexOf_bounds remaining ". " maxChunkSize).
  destruct (Z.gtb_spec (2 * lastIndexOf remaining (newline +:+ newline) maxChunkSize)
              maxChunkSize); [lia|].
  destruct (Z.gtb_spec (2 * lastIndexOf remaining ". " maxChunkSize) maxChunkSize);
    lia.
Qed.

(** The loop ends within as many iterations as the remaining text has
    code units, and what it adds is numbered on from [pageNumber],
    trimmed, and at most one code unit longer than the size. *)
Lemma chunkLoop_ends fuel maxChunkSize remaining pageNumber chunks :
  1 <= maxChunkSize -> (String.length remaining <= fuel)%nat ->
  exists added,
    chunkLoop fuel maxChunkSize remaining pageNumber chunks
      = Some (chunks ++ added)%list /\
    (length added <= String.length remaining)%nat /\
    map PageChunk.pageNumber added = numbersFrom pageNumber (length added) /\
    nonWhiteOf added = nonWhite remaining /\
    Forall (λ chunk, trim (PageChunk.content chunk) = PageChunk.content chunk /\
                     len (PageChunk.content chunk) <= maxChunkSize + 1) added.
Proof.
  intros Hmax. revert remaining pageNumber chunks.
  induction fuel as [|fuel IH]; intros remaining pageNumber chunks Hfuel.
  - destruct remaining; [|simpl in Hfuel; lia].
    exists []. by rewrite app_nil_r.
  - cbn [chunkLoop]. destruct (Z.gtb_spec (len remaining) 0) as [Hpos|Hzero].
    2:{ exists []. rewrite app_nil_r.
        destruct remaining; [|unfold len in Hzero; simpl in Hzero; lia].
        repeat split; simpl; [lia|done]. }
    destruct (splitIndexOf_bounds remaining maxChunkSize Hmax Hpos) as [Hcut Hin].
    set (cut := splitIndexOf remaining maxChunkSize) in *.
    pose proof (length_trim (sliceFrom remaining cut)) as Hrest.
    pose proof (length_sliceFrom remaining cut) as Hrest'.
    pose proof (length_trim (slice remaining 0 cut)) as Hhead.
    pose proof (length_slice_0 remaining cut) as Hhead'.
    destruct (IH (trim (sliceFrom remaining cut)) (pageNumber + 1)
                (chunks ++ [PageChunk.mk (trim (slice remaining 0 cut)) pageNumber])%list)
      as (added & -> & Hcount & Hnum & Hink & Hall).
    { unfold len in *. lia. }
    exists (PageChunk.mk (trim (slice remaining 0 cut)) pageNumber :: added).
    split; [by rewrite <- app_assoc|]. split; [simpl; unfold len in *; lia|].
    split; [|split].
    + simpl. rewrite Hnum. apply numbersFrom_S.
    + unfold nonWhiteOf in *. simpl. rewrite Hink, !nonWhite_trim, <- nonWhite_app.
      by rewrite slice_sliceFrom by lia.
    + constructor; [|done]. simpl. split; [apply trim_idempotent|].
      unfold len in *. lia.
Qed.

(** More fuel does not change a result. *)
Lemma chunkLoop_fuel fuel extra maxChunkSize remaining pageNumber chunks result :
  chunkLoop fuel maxChunkSize remaining pageNumber chunks = Some result ->
  chunkLoop (fuel + extra) maxChunkSize remaining pageNumber chunks = Some result.
Proof.
  revert remaining pageNumber chunks.
  induction fuel as [|fuel IH]; intros remaining pageNumber chunks.
  - cbn [chunkLoop]. destruct (len remaining >? 0) eqn:Hlen; [done|].
    intros <-. destruct extra; cbn [chunkLoop Nat.add]; by rewrite Hlen.
  - cbn [chunkLoop Nat.add]. destruct (len remaining >? 0); [apply IH|done].
Qed.

(** With size 0 every iteration cuts at 0: it adds an empty chunk and
    leaves the trimmed text. *)
Lemma splitIndexOf_zero remaining : 0 < len remaining -> splitIndexOf remaining 0 = 0.
Proof.
  intros Hlen. unfold splitIndexOf.
  destruct (Z.gtb_spec (len remaining) 0); [|lia].
  pose proof (lastIndexOf_bounds remaining (newline +:+ newline) 0).
  pose proof (lastIndexOf_bounds remaining ". " 0).
  destruct (Z.gtb_spec (2 * lastIndexOf remaining (newline +:+ newline) 0) 0); [lia|].
  destruct (Z.gtb_spec (2 * lastIndexOf remaining ". " 0) 0); lia.
Qed.

Lemma chunkLoop_zero_size fuel remaining pageNumber chunks :
  trim remaining <> "" -> chunkLoop fuel 0 remaining pageNumber chunks = None.
Proof.
  revert remaining pageNumber chunks.
  induction fuel as [|fuel IH]; intros remaining pageNumber chunks Htrim;
    cbn [chunkLoop];
    (destruct (Z.gtb_spec (len remaining) 0) as [Hpos|Hzero];
     [|destruct remaining; [done|unfold len in Hzero; simpl in Hzero; lia]]);
    [done|].
  rewrite splitIndexOf_zero, sliceFrom_0 by done.
  apply IH. by rewrite trim_idempotent.
Qed.

(** With a non-empty separator, the scan gives a second piece as soon as
    the separator occurs. *)
Lemma splitScan_match sep s i j piece :
  sep <> "" -> search sep s i = Some j ->
  (2 <= length (splitScan sep s 0 piece))%nat.
Proof.
  intros Hsep. revert i piece.
  induction s as [|c s IH]; intros i piece; rewrite search_unfold.
  - destruct sep; [done|]. done.
  - cbn [splitScan]. destruct (String.prefix sep (String c s)) eqn:Hp.
    + intros _. pose proof (splitScan_nonempty sep s (String.length sep - 1) "").
      destruct (splitScan sep s (String.length sep - 1) ""); [done|simpl; lia].
    + apply IH.
Qed.

End chunking_facts.

(** X15. [splitIntoPages] numbers its pages 1, 2, ... in the order of the
    text, every page content is trimmed (trimming it again changes
    nothing), and there is at least one page unless both the text and
    the delimiter are empty. *)
Theorem splitIntoPages_numbered_trimmed (text delimiter : string) :
  let pages := Chunking.splitIntoPages text delimiter in
  map PageChunk.pageNumber pages = Chunking.numbersFrom 1 (length pages) /\
  Forall (λ page, JS.trim (PageChunk.content page) = PageChunk.content page) pages /\
  (pages = [] <-> delimiter = "" /\ text = "").
Proof.
  unfold Chunking.splitIntoPages. split; [|split].
  - rewrite length_imap.
    change (map PageChunk.pageNumber ?l) with (PageChunk.pageNumber <$> l).
    rewrite fmap_imap.
    rewrite (imap_ext _ (λ index _, 1 + Z.of_nat index)); [|simpl; intros; lia].
    apply imap_seq_0.
  - apply Forall_forall. intros page (index & content & -> & _)%elem_of_lookup_imap.
    apply trim_idempotent.
  - rewrite <- length_zero_iff_nil, length_imap, length_zero_iff_nil.
    unfold JSText.split. destruct delimiter as [|c delimiter].
    + destruct text; [by split|]. simpl. split; [done|]. by intros [_ ?].
    + split; [|by intros [? _]].
      intros Hnil. by apply splitScan_nonempty in Hnil.
Qed.

(** X16. For a non-empty delimiter, [splitIntoPages] gives exactly one
    page if and only if the delimiter does not occur in the text
    ([indexOf] is [-1]); that page is the trimmed text, numbered 1. *)
Theorem splitIntoPages_single_page (text delimiter : string) :
  delimiter <> "" ->
  (length (Chunking.splitIntoPages text delimiter) = 1%nat
   <-> JS.indexOf text delimiter 0 = -1) /\
  (JS.indexOf text delimiter 0 = -1 ->
   Chunking.splitIntoPages text delimiter = [PageChunk.mk (JS.trim text) 1]).
Proof.
  intros Hsep.
  assert (Hnone : JS.indexOf text delimiter 0 = -1 ->
                  JSText.split text delimiter = [text]).
  { unfold JS.indexOf, JS.clamp. replace (Z.to_nat _) with 0%nat by (unfold JS.len; lia).
    cbn [JS.dropStr]. destruct (JS.search delimiter text 0) as [j|] eqn:Hs; [lia|].
    intros _. unfold JSText.split. destruct delimiter; [done|].
    by rewrite (splitScan_no_match _ _ _ _ Hs). }
  split; [split|].
  - intros Hone. unfold Chunking.splitIntoPages in Hone. rewrite length_imap in Hone.
    unfold JS.indexOf, JS.clamp.
    replace (Z.to_nat _) with 0%nat by (unfold JS.len; lia). cbn [JS.dropStr].
    destruct (JS.search delimiter text 0) as [j|] eqn:Hs; [|done].
    pose proof (splitScan_match _ _ _ _ "" Hsep Hs) as Htwo.
    unfold JSText.split in Hone. destruct delimiter; [done|]. lia.
  - intros Hno. unfold Chunking.splitIntoPages. by rewrite (Hnone Hno).
  - intros Hno. unfold Chunking.splitIntoPages. by rewrite (Hnone Hno).
Qed.

Lemma splitIntoPages_single_page_witness :
  (length (Chunking.splitIntoPages " one page " Chunking.defaultDelimiter) = 1%nat
   <-> JS.indexOf " one page " Chunking.defaultDelimiter 0 = -1) /\
  (JS.indexOf " one page " Chunking.defaultDelimiter 0 = -1 ->
   Chunking.splitIntoPages " one page " Chunking.defaultDelimiter
   = [PageChunk.mk (JS.trim " one page ") 1]).
Proof. apply splitIntoPages_single_page. vm_compute. discriminate. Defined.

(** X17. For a size of at least 1, [chunkBySize] ends - within as many
    iterations as the text has code units, and with the same chunks
    however many more are allowed. There are at most as many chunks as
    code units, numbered 1, 2, ...; every chunk is trimmed and at most
    [maxChunkSize + 1] code units long; and the chunks hold, in order,
    exactly the code units of the text that are not white space. *)
Theorem chunkBySize_ends_bounded (fuel : nat) (text : string) (maxChunkSize : Z) :
  1 <= maxChunkSize -> (String.length text <= fuel)%nat ->
  exists chunks,
    (forall extra, Chunking.chunkBySize (fuel + extra) text maxChunkSize = Some chunks) /\
    (length chunks <= String.length text)%nat /\
    map PageChunk.pageNumber chunks = Chunking.numbersFrom 1 (length chunks) /\
    Chunking.nonWhiteOf chunks = Chunking.nonWhite text /\
    Forall (λ chunk,
              JS.trim (PageChunk.content chunk) = PageChunk.content chunk /\
              JS.len (PageChunk.content chunk) <= maxChunkSize + 1) chunks.
Proof.
  intros Hmax Hfuel. unfold Chunking.chunkBySize.
  destruct (chunkLoop_ends fuel maxChunkSize text 1 [] Hmax Hfuel)
    as (chunks & Hrun & Hcount & Hnum & Hink & Hall).
  exists chunks. split; [|done].
  intros extra. by apply chunkLoop_fuel.
Qed.

Lemma chunkBySize_ends_bounded_witness :
  exists chunks,
    (forall extra, Chunking.chunkBySize (10 + extra) "abcd. efgh" 4 = Some chunks) /\
    (length chunks <= String.length "abcd. efgh")%nat /\
    map PageChunk.pageNumber chunks = Chunking.numbersFrom 1 (length chunks) /\
    Chunking.nonWhiteOf chunks = Chunking.nonWhite "abcd. efgh" /\
    Forall (λ chunk,
              JS.trim (PageChunk.content chunk) = PageChunk.content chunk /\
              JS.len (PageChunk.content chunk) <= 4 + 1) chunks.
Proof. apply chunkBySize_ends_bounded; [lia|simpl; lia]. Defined.

(** The bound [maxChunkSize + 1] is reached: a sentence end right at the
    size puts the full stop into the chunk. *)
Example chunkBySize_sentence_end :
  Chunking.chunkBySize 10 "abcd. efgh" 4
  = Some [PageChunk.mk "abcd." 1; PageChunk.mk "efgh" 2].
Proof. reflexivity. Qed.

(** X18. With size 0, [chunkBySize] never ends on a text that is not all
    white space: every iteration cuts at index 0, adds an empty chunk and
    leaves the trimmed text, so no number of iterations returns. *)
Theorem chunkBySize_zero_size_never_ends (text : string) :
  JS.trim text <> "" ->
  forall fuel, Chunking.chunkBySize fuel text 0 = None.
Proof. intros Htrim fuel. by apply chunkLoop_zero_size. Qed.

Lemma chunkBySize_zero_size_never_ends_witness :
  JS.trim " a b " <> "" /\ Chunking.chunkBySize 1000 " a b " 0 = None.
Proof.
  assert (Htrim : JS.trim " a b " <> "") by (vm_compute; discriminate).
  split; [exact Htrim|]. exact (chunkBySize_zero_size_never_ends " a b " Htrim 1000%nat).
Defined.

(** X19. A non-empty text no longer than the size gives exactly one
    chunk, the trimmed text numbered 1 - an empty chunk when the text is
    all white space - and the empty text gives no chunk. *)
Theorem chunkBySize_short_text (fuel : nat) (text : string) (maxChunkSize : Z) :
  JS.len text <= maxChunkSize ->
  Chunking.chunkBySize (S fuel) text maxChunkSize
  = Some (if decide (text = "") then [] else [PageChunk.mk (JS.trim text) 1]).
Proof.
  intros Hlen. unfold Chunking.chunkBySize. cbn [Chunking.chunkLoop].
  destruct (decide (text = "")) as [->|Hne]; [done|].
  destruct (Z.gtb_spec (JS.len text) 0) as [Hpos|Hzero].
  2:{ destruct text; [done|unfold JS.len in Hzero; simpl in Hzero; lia]. }
  unfold Chunking.splitIndexOf. destruct (Z.gtb_spec (JS.len text) maxChunkSize); [lia|].
  rewrite slice_0_all, sliceFrom_all. by destruct fuel.
Qed.

Lemma chunkBySize_short_text_witness :
  Chunking.chunkBySize 1 "   " 4
  = Some (if decide ("   " = "") then [] else [PageChunk.mk (JS.trim "   ") 1]).
Proof. apply (chunkBySize_short_text 0). vm_compute. discriminate. Defined.

(** ** Properties of the demo page's highlights *)

Section demo_page_facts.
Import DemoPage.

Lemma pretty_N_char_digit (y : N) : isDigit (pretty_N_char y) = true.
Proof.
  unfold pretty_N_char. destruct y as [|p]; [done|].
  repeat (destruct p as [p|p|]; try done).
Qed.

Lemma pretty_N_char_value (y : N) :
  (y < 10)%N -> (N.of_nat (nat_of_ascii (pretty_N_char y)) - 48 = y)%N.
Proof.
  intros Hy. unfold pretty_N_char. destruct y as [|p]; [done|].
  repeat (destruct p as [p|p|]; try done; try lia).
Qed.

Lemma pretty_N_go_digits (x : N) (s : string) :
  allDigits s = true -> allDigits (pretty_N_go x s) = true.
Proof.
  revert s. induction (N.lt_wf_0 x) as [x _ IH]; intros s Hs.
  destruct (decide (x = 0%N)) as [->|Hx]; [by rewrite pretty_N_go_0|].
  rewrite pretty_N_go_step by lia. apply IH.
  - apply N.div_lt; lia.
  - simpl. by rewrite pretty_N_char_digit.
Qed.

Lemma pretty_N_go_nonempty (x : N) (s : string) :
  (0 < x)%N -> pretty_N_go x s <> "".
Proof.
  revert s. induction (N.lt_wf_0 x) as [x _ IH]; intros s Hx.
  rewrite pretty_N_go_step by lia.
  destruct (decide (x `div` 10 = 0)%N) as [->|Hdiv]; [by rewrite pretty_N_go_0|].
  apply IH; [apply N.div_lt; lia|].
  by apply N.neq_0_lt_0.
Qed.

Lemma pretty_nat_digits (n : nat) : allDigits (pretty n) = true.
Proof.
  unfold pretty, pretty_nat, pretty, pretty_N.
  destruct (decide _); [done|]. by apply pretty_N_go_digits.
Qed.

Lemma pretty_nat_nonempty (n : nat) : pretty n <> "".
Proof.
  unfold pretty, pretty_nat, pretty, pretty_N.
  destruct (decide _); [done|]. apply pretty_N_go_nonempty. lia.
Qed.

(** Reading the digits of [x] in front of [s] shifts the number read so
    far and adds [x]. *)
Lemma parseFrom_pretty_N_go (x : N) :
  exists k, forall acc s,
    parseFrom acc (pretty_N_go x s) = parseFrom (acc * 10 ^ k + x)%N s.
Proof.
  induction (N.lt_wf_0 x) as [x _ IH].
  destruct (decide (x = 0%N)) as [->|Hx].
  { exists 0%N. intros acc s. rewrite pretty_N_go_0. f_equal. lia. }
  destruct (IH (x `div` 10)%N) as [k Hk]; [apply N.div_lt; lia|].
  exists (N.succ k). intros acc s. rewrite pretty_N_go_step, Hk by lia.
  cbn [parseFrom]. f_equal.
  rewrite pretty_N_char_value by (apply N.mod_lt; lia).
  rewrite N.pow_succ_r'. pose proof (N.div_mod' x 10) as Hdm.
  remember (x `div` 10)%N as q. remember (x `mod` 10)%N as r.
  remember (10 ^ k)%N as pw. lia.
Qed.

Lemma parseInt10_pretty (n : nat) : parseInt10 (pretty n) = N.of_nat n.
Proof.
  unfold parseInt10, pretty, pretty_nat, pretty, pretty_N.
  destruct (decide _) as [->|Hn]; [done|].
  destruct (parseFrom_pretty_N_go (N.of_nat n)) as [k ->]. simpl. lia.
Qed.

Lemma digitRun_digits (digits : string) (c : ascii) (rest : string) :
  allDigits digits = true -> isDigit c = false ->
  digitRun (digits +:+ String c rest) = (digits, String c rest).
Proof.
  intros Hd Hc. induction digits as [|d digits IH].
  - simpl. by rewrite Hc.
  - rewrite str_app_cons. cbn [digitRun allDigits] in *.
    apply andb_true_iff in Hd as [Hd1 Hd2]. by rewrite Hd1, IH.
Qed.

Lemma prefix_app (a b c : string) :
  String.prefix (a +:+ b) (a +:+ c) = String.prefix b c.
Proof.
  induction a as [|x a IH]; [done|]. rewrite !str_app_cons. simpl.
  by destruct (ascii_dec x x).
Qed.

Lemma prefix_cons (c : ascii) (s : string) (d : ascii) (t : string) :
  String.prefix (String c s) (String d t)
  = if ascii_dec c d then String.prefix s t else false.
Proof. reflexivity. Qed.

Lemma prefix_nil (s : string) : String.prefix "" s = true.
Proof. by destruct s. Qed.

Lemma prefix_literal (s : string) : String.prefix "item-" ("item-" +:+ s) = true.
Proof.
  transitivity (String.prefix "" s); [apply (prefix_app "item-" "" s)|].
  apply prefix_nil.
Qed.

Lemma matchItem_unfold (s : string) :
  matchItem s
  = match matchAt s with
    | Some group => Some group
    | None => match s with
              | String _ s' => matchItem s'
              | EmptyString => None
              end
    end.
Proof. by destruct s. Qed.

(** The pattern finds in an identifier the index it was built from. *)
Lemma matchItem_idOf (index : nat) (part : string) :
  matchItem (idOf index part) = Some (pretty index).
Proof.
  rewrite matchItem_unfold. unfold matchAt, idOf.
  pose proof (pretty_nat_digits index) as Hd.
  pose proof (pretty_nat_nonempty index) as Hne.
  remember (pretty index) as digits.
  rewrite prefix_literal.
  change (JS.dropStr 5 ("item-" +:+ digits +:+ "-" +:+ part))
    with (digits +:+ String "-" part).
  rewrite digitRun_digits by done. by destruct digits.
Qed.

Lemma onHighlightClick_idOf (index : nat) (part : string) selected :
  onHighlightClick (idOf index part) selected = Some index.
Proof.
  unfold onHighlightClick. rewrite matchItem_idOf, parseInt10_pretty.
  f_equal. lia.
Qed.

Lemma str_app_inv_head (a b c : string) : a +:+ b = a +:+ c -> b = c.
Proof.
  induction a as [|x a IH]; [done|]. rewrite !str_app_cons. intros [= H].
  by apply IH.
Qed.

(** Two runs of digits, each followed by a dash: one is a prefix of the
    other only if the runs are equal. *)
Lemma digits_dash_prefix (a b x y : string) :
  allDigits a = true -> allDigits b = true ->
  String.prefix (a +:+ String "-" x) (b +:+ String "-" y) = true -> a = b.
Proof.
  revert b. induction a as [|c a IH]; intros b Ha Hb.
  - destruct b as [|d b]; [done|].
    change ("" +:+ String "-" x) with (String "-" x).
    rewrite str_app_cons, prefix_cons.
    destruct (ascii_dec "-" d) as [<-|]; [|done]. by simpl in Hb.
  - destruct b as [|d b].
    + change ("" +:+ String "-" y) with (String "-" y).
      rewrite str_app_cons, prefix_cons.
      destruct (ascii_dec c "-") as [->|]; [|done]. by simpl in Ha.
    + rewrite !str_app_cons, prefix_cons. cbn [allDigits] in *.
      apply andb_true_iff in Ha as [_ Ha]. apply andb_true_iff in Hb as [_ Hb].
      destruct (ascii_dec c d) as [->|]; [|done].
      intros Hp. f_equal. by apply IH.
Qed.

(** The prefix test of [selectedHighlights] holds for the identifiers of
    the selected item and for no other. *)
Lemma startsWith_idOf (selected index : nat) (part : string) :
  String.prefix ("item-" +:+ pretty selected +:+ "-") (idOf index part)
  = bool_decide (index = selected).
Proof.
  unfold idOf. rewrite prefix_app.
  destruct (decide (index = selected)) as [->|Hne].
  - rewrite bool_decide_eq_true_2 by done.
    rewrite prefix_app. transitivity (String.prefix "" part).
    + apply (prefix_app "-" "" part).
    + apply prefix_nil.
  - rewrite bool_decide_eq_false_2 by done.
    destruct (String.prefix _ _) eqn:Hp; [|done].
    apply digits_dash_prefix in Hp; [|apply pretty_nat_digits..].
    by apply (inj pretty) in Hp.
Qed.

Lemma idOf_inj (i j : nat) (p q : string) : idOf i p = idOf j q -> i = j /\ p = q.
Proof.
  intros Heq. assert (i = j) as ->.
  { pose proof (startsWith_idOf j i p) as Hs. rewrite Heq, startsWith_idOf in Hs.
    rewrite bool_decide_eq_true_2 in Hs by done. symmetry in Hs.
    by apply bool_decide_eq_true in Hs. }
  split; [done|]. unfold idOf in Heq.
  do 3 apply str_app_inv_head in Heq. done.
Qed.

Section page_facts.
Variable Number_toString : Qc -> string.

Local Abbreviation pushed := (DemoPage.pushed Number_toString).
Local Abbreviation forEachItem := (DemoPage.forEachItem Number_toString).

(** What one item pushes: at most two highlights, named after its index,
    in its colour, with its evidence spans. *)
Lemma pushed_inv (index : nat) (item : ExtractedItem) h :
  h ∈ pushed index item ->
  Viewer.color h = colorOf index /\
  ((Viewer.id h = idOf index "desc" /\
    evidence item ≫= descriptionSpan = Some (Viewer.span h)) \/
   (Viewer.id h = idOf index "total" /\
    evidence item ≫= totalSpan = Some (Viewer.span h))).
Proof.
  unfold DemoPage.pushed. intros [Hh|Hh]%elem_of_app.
  - destruct (evidence item ≫= descriptionSpan) as [span|];
      [|by apply elem_of_nil in Hh].
    apply list_elem_of_singleton in Hh as ->. simpl. split; [done|by left].
  - destruct (evidence item ≫= totalSpan) as [span|];
      [|by apply elem_of_nil in Hh].
    apply list_elem_of_singleton in Hh as ->. simpl. split; [done|by right].
Qed.

Lemma length_pushed (index : nat) (item : ExtractedItem) :
  (length (pushed index item) <= 2)%nat.
Proof.
  unfold DemoPage.pushed. rewrite length_app.
  destruct (evidence item ≫= descriptionSpan), (evidence item ≫= totalSpan);
    simpl; lia.
Qed.

Lemma NoDup_pushed_ids (index : nat) (item : ExtractedItem) :
  NoDup (map Viewer.id (pushed index item)).
Proof.
  unfold DemoPage.pushed.
  destruct (evidence item ≫= descriptionSpan), (evidence item ≫= totalSpan);
    simpl; repeat constructor; try by apply not_elem_of_nil.
  intros Hin%list_elem_of_singleton. by apply idOf_inj in Hin as [_ ?].
Qed.

Lemma filter_pushed (selected index : nat) (item : ExtractedItem) :
  List.filter
    (λ h, String.prefix ("item-" +:+ pretty selected +:+ "-") (Viewer.id h))
    (pushed index item)
  = if decide (index = selected) then pushed index item else [].
Proof.
  unfold DemoPage.pushed. rewrite List.filter_app.
  destruct (evidence item ≫= descriptionSpan), (evidence item ≫= totalSpan);
    cbn [List.filter Viewer.id]; rewrite ?startsWith_idOf;
    destruct (decide (index = selected));
    rewrite ?bool_decide_eq_true_2, ?bool_decide_eq_false_2 by done; done.
Qed.

Lemma forEachItem_acc (index : nat) (items : list ExtractedItem) acc :
  forEachItem index items acc = (acc ++ forEachItem index items [])%list.
Proof.
  revert index acc. induction items as [|item items IH]; intros index acc.
  - simpl. by rewrite app_nil_r.
  - simpl. rewrite (IH _ (acc ++ _)%list), (IH _ (pushed index item)).
    by rewrite app_assoc.
Qed.

Lemma forEachItem_cons (index : nat) item (items : list ExtractedItem) :
  forEachItem index (item :: items) []
  = (pushed index item ++ forEachItem (S index) items [])%list.
Proof. simpl. by rewrite forEachItem_acc. Qed.

Lemma elem_of_forEachItem (index : nat) (items : list ExtractedItem) h :
  h ∈ forEachItem index items [] <->
  exists i item, items !! i = Some item /\ h ∈ pushed (index + i) item.
Proof.
  revert index. induction items as [|item items IH]; intros index.
  - simpl. split; [by intros ?%elem_of_nil|]. by intros (i & item & ? & _).
  - rewrite forEachItem_cons, elem_of_app, IH. split.
    + intros [Hh|(i & item' & Hi & Hh)].
      * exists 0%nat, item. by rewrite Nat.add_0_r.
      * exists (S i), item'. by rewrite Nat.add_succ_r.
    + intros ([|i] & item' & Hi & Hh).
      * left. simpl in Hi. injection Hi as <-. by rewrite Nat.add_0_r in Hh.
      * right. exists i, item'. by rewrite Nat.add_succ_r in Hh.
Qed.

Lemma filter_forEachItem (selected index : nat) (items : list ExtractedItem) :
  List.filter
    (λ h, String.prefix ("item-" +:+ pretty selected +:+ "-") (Viewer.id h))
    (forEachItem index items [])
  = match (if decide (index <= selected)%nat
           then items !! (selected - index)%nat else None) with
    | Some item => pushed selected item
    | None => []
    end.
Proof.
  revert index. induction items as [|item items IH]; intros index.
  - simpl. by destruct (decide _).
  - rewrite forEachItem_cons, List.filter_app, filter_pushed, IH.
    destruct (decide (index = selected)) as [->|Hne].
    + rewrite decide_False by lia. rewrite decide_True by lia.
      rewrite Nat.sub_diag. simpl. by rewrite app_nil_r.
    + destruct (decide (S index <= selected)%nat) as [Hle|Hgt].
      * rewrite decide_True by lia.
        replace (selected - index)%nat with (S (selected - S index)) by lia.
        done.
      * by rewrite decide_False by lia.
Qed.

Lemma NoDup_forEachItem_ids (index : nat) (items : list ExtractedItem) :
  NoDup (map Viewer.id (forEachItem index items [])).
Proof.
  revert index. induction items as [|item items IH]; intros index.
  - constructor.
  - rewrite forEachItem_cons, map_app. apply NoDup_app.
    split; [apply NoDup_pushed_ids|]. split; [|apply IH].
    intros ident (h1 & -> & Hh1)%list_elem_of_fmap (h2 & Heq & Hh2)%list_elem_of_fmap.
    apply elem_of_forEachItem in Hh2 as (i & item' & _ & Hh2).
    apply pushed_inv in Hh1 as [_ Hid1]. apply pushed_inv in Hh2 as [_ Hid2].
    destruct Hid1 as [[Hid1 _]|[Hid1 _]], Hid2 as [[Hid2 _]|[Hid2 _]];
      rewrite Hid1, Hid2 in Heq; apply idOf_inj in Heq as [? _]; lia.
Qed.

Lemma length_forEachItem (index : nat) (items : list ExtractedItem) :
  (length (forEachItem index items []) <= 2 * length items)%nat.
Proof.
  revert index. induction items as [|item items IH]; intros index; [done|].
  rewrite forEachItem_cons, length_app. pose proof (length_pushed index item).
  specialize (IH (S index)). simpl. lia.
Qed.

Lemma colorOf_known (index : nat) : colorOf index ∈ colors.
Proof.
  unfold colorOf. pose proof (Nat.mod_upper_bound index (length colors)) as Hlt.
  destruct (colors !! (index mod length colors)%nat) as [c|] eqn:Hc.
  - simpl. by apply list_elem_of_lookup_2 in Hc.
  - apply lookup_ge_None in Hc. simpl in *. lia.
Qed.

End page_facts.
End demo_page_facts.

(** X20. With an item selected, [selectedHighlights] is exactly what the
    page built for that item - the prefix test with the closing dash
    takes the highlights of item 1 and not those of item 10 - and it is
    empty when the index is beyond the items. *)
Theorem selectedHighlights_of_item (Number_toString : Qc -> string)
    (items : list DemoPage.ExtractedItem) (selected : nat) :
  DemoPage.selectedHighlights
    (DemoPage.highlights Number_toString (Some items)) (Some selected)
  = match items !! selected with
    | Some item => DemoPage.pushed Number_toString selected item
    | None => []
    end.
Proof.
  unfold DemoPage.selectedHighlights, DemoPage.highlights.
  rewrite filter_forEachItem, decide_True by lia. by rewrite Nat.sub_0_r.
Qed.

(** X21. A click on a highlight of the page selects the item that the
    highlight was built from: the pattern of [onHighlightClick] reads
    from the identifier the index that [highlights] wrote into it,
    whatever was selected before, and the highlights then shown are those
    of that item, the clicked one among them. *)
Theorem onHighlightClick_selects_item (Number_toString : Qc -> string)
    (items : list DemoPage.ExtractedItem) (position : nat)
    (h : Viewer.Highlight) (selected : option nat) :
  DemoPage.highlights Number_toString (Some items) !! position = Some h ->
  exists index item,
    items !! index = Some item /\
    DemoPage.onHighlightClick (Viewer.id h) selected = Some index /\
    h ∈ DemoPage.pushed Number_toString index item /\
    DemoPage.selectedHighlights
      (DemoPage.highlights Number_toString (Some items))
      (DemoPage.onHighlightClick (Viewer.id h) selected)
    = DemoPage.pushed Number_toString index item.
Proof.
  intros Hh%list_elem_of_lookup_2. unfold DemoPage.highlights in *.
  apply elem_of_forEachItem in Hh as (index & item & Hitem & Hh).
  simpl in Hh. exists index, item.
  assert (Hclick : DemoPage.onHighlightClick (Viewer.id h) selected = Some index).
  { destruct (pushed_inv _ _ _ _ Hh) as [_ [[-> _]|[-> _]]];
      apply onHighlightClick_idOf. }
  repeat split; [done..|]. rewrite Hclick.
  unfold DemoPage.selectedHighlights.
  rewrite filter_forEachItem, decide_True by lia.
  by rewrite Nat.sub_0_r, Hitem.
Qed.

Lemma onHighlightClick_selects_item_witness :
  exists index item,
    DemoPage.invoiceItems !! index = Some item /\
    DemoPage.onHighlightClick (DemoPage.idOf 1 "total") None = Some index /\
    Viewer.mkHighlight (DemoPage.idOf 1 "total")
      (Grounding.mkSpan "$1,400.00" 110 119) "green" "Item 2: $1400"
      ∈ DemoPage.pushed Examples.number index item /\
    DemoPage.selectedHighlights
      (DemoPage.highlights Examples.number (Some DemoPage.invoiceItems))
      (DemoPage.onHighlightClick (DemoPage.idOf 1 "total") None)
    = DemoPage.pushed Examples.number index item.
Proof.
  apply (onHighlightClick_selects_item Examples.number DemoPage.invoiceItems 2
           (Viewer.mkHighlight (DemoPage.idOf 1 "total")
              (Grounding.mkSpan "$1,400.00" 110 119) "green" "Item 2: $1400")
           None).
  vm_compute. reflexivity.
Defined.

(** X22. The highlights of the page have pairwise distinct identifiers
    (so that [selectedId] marks at most one of them), at most two per
    item; every colour is one of the four that the viewer styles, and
    every span is an evidence span of an item. *)
Theorem highlights_wellformed (Number_toString : Qc -> string)
    (items : list DemoPage.ExtractedItem) :
  let highlights := DemoPage.highlights Number_toString (Some items) in
  NoDup (map Viewer.id highlights) /\
  (length highlights <= 2 * length items)%nat /\
  Forall (λ h,
    Viewer.color h ∈ DemoPage.colors /\
    exists index item,
      items !! index = Some item /\
      (DemoPage.evidence item ≫= DemoPage.descriptionSpan = Some (Viewer.span h) \/
       DemoPage.evidence item ≫= DemoPage.totalSpan = Some (Viewer.span h)))
    highlights.
Proof.
  unfold DemoPage.highlights. split; [apply NoDup_forEachItem_ids|].
  split; [apply length_forEachItem|].
  apply Forall_forall. intros h (index & item & Hitem & Hh)%elem_of_forEachItem.
  apply pushed_inv in Hh as [-> Hspan]. split; [apply colorOf_known|].
  exists index, item. split; [done|]. destruct Hspan as [[_ ?]|[_ ?]]; auto.
Qed.

(** Item 1 against item 10: with twelve items that each have a span of
    their total, selecting item 1 shows one highlight. *)
Example selectedHighlights_item_1_of_12 :
  map Viewer.id
    (DemoPage.selectedHighlights
       (DemoPage.highlights Examples.number
          (Some (replicate 12 (DemoPage.mkItem None None
             (Some (DemoPage.mkEvidence None
                (Some (Grounding.mkSpan "$1" 0 2))))))))
       (Some 1%nat))
  = ["item-1-total"].
Proof. vm_compute. reflexivity. Qed.
